(** * Fantom Ledger App: the streaming transaction parser (src/tx_stream.c)

    A shallow embedding of the resumable RLP transaction parser and the
    properties of it that the design document states.

    Conventions of the embedding:
    - [uint32_t] values are [Z] and every increment that C performs modulo
      2^32 is written with [u32];
    - the pair [workBuffer]/[workBufferLength] is the list of the bytes that
      are still unread in the current call (its length is
      [workBufferLength]);
    - the pair [rlpBuffer]/[rlpBufferPos] is the list of the bytes stored in
      the scratch buffer so far (its length is [rlpBufferPos]);
    - [THROW] is an outcome [Throw] that carries the context as it was when
      the exception left the function; [txStreamProcess] catches it;
    - the [for (;;)] loop of [txStreamParse] runs on fuel; [None] stands for
      a loop that has not returned within the fuel. *)

From Stdlib Require Import ZArith List Bool Lia.
From Stdlib.Strings Require Import Byte.
Import ListNotations.
Local Open Scope Z_scope.

(** ** Machine data *)

Definition byte : Type := Byte.byte.

Definition u32 (z : Z) : Z := z mod 2 ^ 32.

(** [dst[off] = b]; a store beyond the end of the array is undefined in C and
    is left out here (the capacity check of the field processors precedes
    every store). *)
Fixpoint store (dst : list byte) (off : nat) (b : byte) : list byte :=
  match dst, off with
  | [], _ => []
  | _ :: dst', O => b :: dst'
  | x :: dst', S off' => x :: store dst' off' b
  end.

(** [os_memmove(dst + off, src, |src|)], byte after byte. *)
Fixpoint os_memmove (dst : list byte) (off : nat) (src : list byte) : list byte :=
  match src with
  | [] => dst
  | b :: src' => os_memmove (store dst off b) (S off) src'
  end.

(** ** Enumerations of tx_stream.h *)

Inductive tx_stream_status_e : Type :=
| TX_STREAM_PROCESSING
| TX_STREAM_FINISHED
| TX_STREAM_FAULT.

(** Modelled from the spec: the declaration of [tx_rlp_field_e] is in
    tx_stream.h, which is missing; the order is the one of the schema
    [envelope, optional-type, nonce, gasPrice, startGas, value, recipient,
    data, v, r, s] between the two sentinels "not started" and "done". *)
Inductive tx_rlp_field_e : Type :=
| TX_RLP_NONE
| TX_RLP_ENVELOPE
| TX_RLP_TYPE
| TX_RLP_NONCE
| TX_RLP_GAS_PRICE
| TX_RLP_START_GAS
| TX_RLP_VALUE
| TX_RLP_RECIPIENT
| TX_RLP_DATA
| TX_RLP_V
| TX_RLP_R
| TX_RLP_S
| TX_RLP_DONE.

(** The integer value of an enumerator. *)
Definition field_rank (f : tx_rlp_field_e) : Z :=
  match f with
  | TX_RLP_NONE => 0
  | TX_RLP_ENVELOPE => 1
  | TX_RLP_TYPE => 2
  | TX_RLP_NONCE => 3
  | TX_RLP_GAS_PRICE => 4
  | TX_RLP_START_GAS => 5
  | TX_RLP_VALUE => 6
  | TX_RLP_RECIPIENT => 7
  | TX_RLP_DATA => 8
  | TX_RLP_V => 9
  | TX_RLP_R => 10
  | TX_RLP_S => 11
  | TX_RLP_DONE => 12
  end.

(** [currentField++].  The parser never increments [TX_RLP_DONE]; the model
    keeps it in place. *)
Definition field_succ (f : tx_rlp_field_e) : tx_rlp_field_e :=
  match f with
  | TX_RLP_NONE => TX_RLP_ENVELOPE
  | TX_RLP_ENVELOPE => TX_RLP_TYPE
  | TX_RLP_TYPE => TX_RLP_NONCE
  | TX_RLP_NONCE => TX_RLP_GAS_PRICE
  | TX_RLP_GAS_PRICE => TX_RLP_START_GAS
  | TX_RLP_START_GAS => TX_RLP_VALUE
  | TX_RLP_VALUE => TX_RLP_RECIPIENT
  | TX_RLP_RECIPIENT => TX_RLP_DATA
  | TX_RLP_DATA => TX_RLP_V
  | TX_RLP_V => TX_RLP_R
  | TX_RLP_R => TX_RLP_S
  | TX_RLP_S => TX_RLP_DONE
  | TX_RLP_DONE => TX_RLP_DONE
  end.

Definition field_eqb (f g : tx_rlp_field_e) : bool :=
  field_rank f =? field_rank g.

(** ** The destination record (transaction.h) *)

(** Modelled from the spec: transaction.h is missing; a destination slot is
    a fixed-capacity byte array with a settable length attribute.  The three
    slot types [tx_int256_t], [tx_address_t] and [tx_v_t] have this one
    shape. *)
Record tx_int256_t : Type := mk_slot {
  value : list byte;
  flength : Z
}.

Definition tx_address_t : Type := tx_int256_t.
Definition tx_v_t : Type := tx_int256_t.

Record transaction_t : Type := mk_tx {
  gasPrice : tx_int256_t;
  startGas : tx_int256_t;
  value_ : tx_int256_t;
  recipient : tx_address_t;
  v : tx_v_t
}.

(** The addresses [&ctx->tx->gasPrice] ... [&ctx->tx->v] that the field
    dispatcher passes to the field processors. *)
Inductive tx_ptr : Type :=
| P_gasPrice
| P_startGas
| P_value
| P_recipient
| P_v.

Definition deref (t : transaction_t) (p : tx_ptr) : tx_int256_t :=
  match p with
  | P_gasPrice => gasPrice t
  | P_startGas => startGas t
  | P_value => value_ t
  | P_recipient => recipient t
  | P_v => v t
  end.

Definition assign (t : transaction_t) (p : tx_ptr) (s : tx_int256_t) : transaction_t :=
  match p with
  | P_gasPrice => mk_tx s (startGas t) (value_ t) (recipient t) (v t)
  | P_startGas => mk_tx (gasPrice t) s (value_ t) (recipient t) (v t)
  | P_value => mk_tx (gasPrice t) (startGas t) s (recipient t) (v t)
  | P_recipient => mk_tx (gasPrice t) (startGas t) (value_ t) s (v t)
  | P_v => mk_tx (gasPrice t) (startGas t) (value_ t) (recipient t) s
  end.

Definition set_value (s : tx_int256_t) (x : list byte) : tx_int256_t :=
  mk_slot x (flength s).

Definition set_flength (s : tx_int256_t) (n : Z) : tx_int256_t :=
  mk_slot (value s) n.

(** The schema field that fills a slot. *)
Definition ptr_field (p : tx_ptr) : tx_rlp_field_e :=
  match p with
  | P_gasPrice => TX_RLP_GAS_PRICE
  | P_startGas => TX_RLP_START_GAS
  | P_value => TX_RLP_VALUE
  | P_recipient => TX_RLP_RECIPIENT
  | P_v => TX_RLP_V
  end.

(** ** An instance of the external primitives

    The parser is verified for every length-prefix primitive and every hash
    primitive.  To run it on concrete streams the development instantiates
    them with the usual RLP header rules (lengths limited to 32 bits) and
    with a hash accumulator that records the bytes it has absorbed. *)

Module Rlp.

Definition byte_val (b : byte) : Z := Z.of_N (Byte.to_N b).

(** Big-endian value of a sequence of bytes. *)
Fixpoint be_value (acc : Z) (l : list byte) : Z :=
  match l with
  | [] => acc
  | b :: l' => be_value (acc * 256 + byte_val b) l'
  end.

Definition rlpCanDecode (buffer : list byte) : bool * bool :=
  match buffer with
  | [] => (false, false)
  | b :: _ =>
      let x := byte_val b in
      let n := Z.of_nat (length buffer) in
      if x <=? 0x7f then (true, true)
      else if x <=? 0xb7 then (true, true)
      else if x <=? 0xbf then
        if n <? 1 + (x - 0xb7) then (false, false)
        else if x >? 0xbb then (true, false)
        else (true, true)
      else if x <=? 0xf7 then (true, true)
      else
        if n <? 1 + (x - 0xf7) then (false, false)
        else if x >? 0xfb then (true, false)
        else (true, true)
  end.

Definition rlpDecodeLength (buffer : list byte) : option (Z * Z * bool) :=
  match buffer with
  | [] => None
  | b :: rest =>
      let x := byte_val b in
      if x <=? 0x7f then Some (1, 0, false)
      else if x <=? 0xb7 then Some (x - 0x80, 1, false)
      else if x <=? 0xbf then
        if x <=? 0xbb
        then Some (be_value 0 (firstn (Z.to_nat (x - 0xb7)) rest),
                   1 + (x - 0xb7), false)
        else None
      else if x <=? 0xf7 then Some (x - 0xc0, 1, true)
      else
        if x <=? 0xfb
        then Some (be_value 0 (firstn (Z.to_nat (x - 0xf7)) rest),
                   1 + (x - 0xf7), true)
        else None
  end.

Definition RLP_LENGTH_BUFFER_SIZE : Z := 5.
Definition TX_MAX_INT256_LENGTH : Z := 32.
Definition TX_MAX_ADDRESS_LENGTH : Z := 20.
Definition MAX_BUFFER_SIZE : Z := 255.
Definition TX_FLAG_TYPE : Z := 1.

(** The hash accumulator that records what it absorbs. *)
Definition cx_hash (h : list byte) (data : list byte) : list byte := h ++ data.

End Rlp.

(** ** Sample data

    A destination record whose slots hold zeroes (and a stale [v.length]),
    a signed transaction and the same transaction in the legacy shape,
    without V, R and S.  The fields are: envelope, nonce [05], gas price
    [81 90], gas limit [82 01 02], value [80], recipient [07], data
    [83 0a 0b 0c], and V [25], R [80], S [80]. *)

Module Demo.

Definition slot (n : nat) (len : Z) : tx_int256_t := mk_slot (repeat x00 n) len.

Definition demo_tx : transaction_t :=
  mk_tx (slot 32 0) (slot 32 0) (slot 32 0) (slot 20 0) (slot 32 7).

Definition legacy_bytes : list byte :=
  [xcc; x05; x81; x90; x82; x01; x02; x80; x07; x83; x0a; x0b; x0c].

Definition signed_bytes : list byte :=
  [xcf; x05; x81; x90; x82; x01; x02; x80; x07; x83; x0a; x0b; x0c;
   x25; x80; x80].

End Demo.

(** ** The parser *)

Section TxStream.

(** The hash primitive (cx.h): an opaque accumulator and its update
    [cx_hash(sha3, 0, data, len, NULL, 0)]. *)
Variable cx_sha3_t : Type.
Variable cx_hash : cx_sha3_t -> list byte -> cx_sha3_t.

(** The length-prefix primitives of rlp_utils.h, as functions of the first
    [bufferLength] bytes of [buffer]:
    [rlpCanDecode] returns its result together with [*valid];
    [rlpDecodeLength] returns [(fieldLength, offset, list)] when it
    succeeds; [fieldLength] is stored through a [uint32_t *], hence as
    [u32 fieldLength]. *)
Variable rlpCanDecode : list byte -> bool * bool.
Variable rlpDecodeLength : list byte -> option (Z * Z * bool).

(** Constants of the missing headers. *)
Variable RLP_LENGTH_BUFFER_SIZE : Z.
Variable TX_MAX_INT256_LENGTH : Z.
Variable TX_MAX_ADDRESS_LENGTH : Z.
Variable MAX_BUFFER_SIZE : Z.
Variable TX_FLAG_TYPE : Z.

(** [tx_stream_context_t] *)
Record tx_stream_context_t : Type := mk_ctx {
  sha3 : cx_sha3_t;
  tx : transaction_t;
  currentField : tx_rlp_field_e;
  workBuffer : list byte;
  isProcessingField : bool;
  isFieldSingleByte : bool;
  isCurrentFieldList : bool;
  currentFieldPos : Z;
  currentFieldLength : Z;
  dataLength : Z;
  rlpBuffer : list byte;
  processingFlags : Z
}.

Definition workBufferLength (ctx : tx_stream_context_t) : Z :=
  Z.of_nat (length (workBuffer ctx)).

Definition rlpBufferPos (ctx : tx_stream_context_t) : Z :=
  Z.of_nat (length (rlpBuffer ctx)).

Definition set_sha3 (x : cx_sha3_t) (c : tx_stream_context_t) :=
  mk_ctx x (tx c) (currentField c) (workBuffer c) (isProcessingField c)
    (isFieldSingleByte c) (isCurrentFieldList c) (currentFieldPos c)
    (currentFieldLength c) (dataLength c) (rlpBuffer c) (processingFlags c).

Definition set_tx (x : transaction_t) (c : tx_stream_context_t) :=
  mk_ctx (sha3 c) x (currentField c) (workBuffer c) (isProcessingField c)
    (isFieldSingleByte c) (isCurrentFieldList c) (currentFieldPos c)
    (currentFieldLength c) (dataLength c) (rlpBuffer c) (processingFlags c).

Definition set_currentField (x : tx_rlp_field_e) (c : tx_stream_context_t) :=
  mk_ctx (sha3 c) (tx c) x (workBuffer c) (isProcessingField c)
    (isFieldSingleByte c) (isCurrentFieldList c) (currentFieldPos c)
    (currentFieldLength c) (dataLength c) (rlpBuffer c) (processingFlags c).

Definition set_workBuffer (x : list byte) (c : tx_stream_context_t) :=
  mk_ctx (sha3 c) (tx c) (currentField c) x (isProcessingField c)
    (isFieldSingleByte c) (isCurrentFieldList c) (currentFieldPos c)
    (currentFieldLength c) (dataLength c) (rlpBuffer c) (processingFlags c).

Definition set_isProcessingField (x : bool) (c : tx_stream_context_t) :=
  mk_ctx (sha3 c) (tx c) (currentField c) (workBuffer c) x
    (isFieldSingleByte c) (isCurrentFieldList c) (currentFieldPos c)
    (currentFieldLength c) (dataLength c) (rlpBuffer c) (processingFlags c).

Definition set_isFieldSingleByte (x : bool) (c : tx_stream_context_t) :=
  mk_ctx (sha3 c) (tx c) (currentField c) (workBuffer c) (isProcessingField c)
    x (isCurrentFieldList c) (currentFieldPos c)
    (currentFieldLength c) (dataLength c) (rlpBuffer c) (processingFlags c).

Definition set_isCurrentFieldList (x : bool) (c : tx_stream_context_t) :=
  mk_ctx (sha3 c) (tx c) (currentField c) (workBuffer c) (isProcessingField c)
    (isFieldSingleByte c) x (currentFieldPos c)
    (currentFieldLength c) (dataLength c) (rlpBuffer c) (processingFlags c).

Definition set_currentFieldPos (x : Z) (c : tx_stream_context_t) :=
  mk_ctx (sha3 c) (tx c) (currentField c) (workBuffer c) (isProcessingField c)
    (isFieldSingleByte c) (isCurrentFieldList c) x
    (currentFieldLength c) (dataLength c) (rlpBuffer c) (processingFlags c).

Definition set_currentFieldLength (x : Z) (c : tx_stream_context_t) :=
  mk_ctx (sha3 c) (tx c) (currentField c) (workBuffer c) (isProcessingField c)
    (isFieldSingleByte c) (isCurrentFieldList c) (currentFieldPos c)
    x (dataLength c) (rlpBuffer c) (processingFlags c).

Definition set_dataLength (x : Z) (c : tx_stream_context_t) :=
  mk_ctx (sha3 c) (tx c) (currentField c) (workBuffer c) (isProcessingField c)
    (isFieldSingleByte c) (isCurrentFieldList c) (currentFieldPos c)
    (currentFieldLength c) x (rlpBuffer c) (processingFlags c).

Definition set_rlpBuffer (x : list byte) (c : tx_stream_context_t) :=
  mk_ctx (sha3 c) (tx c) (currentField c) (workBuffer c) (isProcessingField c)
    (isFieldSingleByte c) (isCurrentFieldList c) (currentFieldPos c)
    (currentFieldLength c) (dataLength c) x (processingFlags c).

Definition set_processingFlags (x : Z) (c : tx_stream_context_t) :=
  mk_ctx (sha3 c) (tx c) (currentField c) (workBuffer c) (isProcessingField c)
    (isFieldSingleByte c) (isCurrentFieldList c) (currentFieldPos c)
    (currentFieldLength c) (dataLength c) (rlpBuffer c) x.

(** The outcome of a function that may [THROW]: it returns [a] and leaves
    the context [c], or it throws and leaves the context [c]. *)
Inductive exc (A : Type) : Type :=
| Ret (a : A) (c : tx_stream_context_t)
| Throw (c : tx_stream_context_t).

Arguments Ret {A} a c.
Arguments Throw {A} c.

(** [txStreamInit]: the context is cleared, the hash is initialised (to
    [sha3_init], the result of [cx_keccak_init]) and the first expected field
    is the envelope. *)
Definition txStreamInit (sha3_init : cx_sha3_t) (t : transaction_t)
  : tx_stream_context_t :=
  mk_ctx sha3_init t TX_RLP_ENVELOPE [] false false false 0 0 0 [] 0.

(** [txStreamReadByte] *)
Definition txStreamReadByte (ctx : tx_stream_context_t) : exc byte :=
  match workBuffer ctx with
  | [] => Throw ctx
  | data :: rest =>
      let ctx := set_workBuffer rest ctx in
      let ctx :=
        if isProcessingField ctx
        then set_currentFieldPos (u32 (currentFieldPos ctx + 1)) ctx
        else ctx in
      let ctx :=
        if negb (isProcessingField ctx && isFieldSingleByte ctx)
        then set_sha3 (cx_hash (sha3 ctx) [data]) ctx
        else ctx in
      Ret data ctx
  end.

(** [txStreamCopyData]; [out] is [NULL] ([None]) or the address
    [p->value + off] ([Some (p, off)]). *)
Definition txStreamCopyData (ctx : tx_stream_context_t)
    (out : option (tx_ptr * Z)) (len : Z) : exc unit :=
  if workBufferLength ctx <? len then Throw ctx
  else
    let data := firstn (Z.to_nat len) (workBuffer ctx) in
    let ctx :=
      match out with
      | Some (p, off) =>
          let s := deref (tx ctx) p in
          set_tx (assign (tx ctx) p
                    (set_value s (os_memmove (value s) (Z.to_nat off) data))) ctx
      | None => ctx
      end in
    let ctx :=
      if negb (isProcessingField ctx && isFieldSingleByte ctx)
      then set_sha3 (cx_hash (sha3 ctx) data) ctx
      else ctx in
    let ctx := set_workBuffer (skipn (Z.to_nat len) (workBuffer ctx)) ctx in
    let ctx :=
      if isProcessingField ctx
      then set_currentFieldPos (u32 (currentFieldPos ctx + len)) ctx
      else ctx in
    Ret tt ctx.

(** [txStreamProcessContent] *)
Definition txStreamProcessContent (ctx : tx_stream_context_t) : exc unit :=
  if negb (isCurrentFieldList ctx) then Throw ctx
  else
    let ctx := set_dataLength (currentFieldLength ctx) ctx in
    let ctx := set_currentField (field_succ (currentField ctx)) ctx in
    Ret tt (set_isProcessingField false ctx).

(** [txStreamProcessInt256Field] *)
Definition txStreamProcessInt256Field (ctx : tx_stream_context_t)
    (field : option tx_ptr) (fieldSize : Z) : exc unit :=
  if isCurrentFieldList ctx then Throw ctx
  else if negb (currentFieldLength ctx <=? fieldSize) then Throw ctx
  else
    let copied :=
      if currentFieldPos ctx <? currentFieldLength ctx then
        let toCopy :=
          if workBufferLength ctx <? currentFieldLength ctx - currentFieldPos ctx
          then workBufferLength ctx
          else currentFieldLength ctx - currentFieldPos ctx in
        match field with
        | Some p => txStreamCopyData ctx (Some (p, currentFieldPos ctx)) toCopy
        | None => txStreamCopyData ctx None toCopy
        end
      else Ret tt ctx in
    match copied with
    | Throw c => Throw c
    | Ret _ ctx =>
        if currentFieldPos ctx =? currentFieldLength ctx then
          let ctx :=
            match field with
            | Some p =>
                set_tx (assign (tx ctx) p
                          (set_flength (deref (tx ctx) p) (currentFieldLength ctx)))
                       ctx
            | None => ctx
            end in
          let ctx := set_currentField (field_succ (currentField ctx)) ctx in
          Ret tt (set_isProcessingField false ctx)
        else Ret tt ctx
    end.

(** [txStreamProcessAddressField] *)
Definition txStreamProcessAddressField (ctx : tx_stream_context_t)
    (address : option tx_ptr) (fieldSize : Z) : exc unit :=
  if isCurrentFieldList ctx then Throw ctx
  else if negb (currentFieldLength ctx <=? fieldSize) then Throw ctx
  else
    let copied :=
      if currentFieldPos ctx <? currentFieldLength ctx then
        let toCopy :=
          if workBufferLength ctx <? currentFieldLength ctx - currentFieldPos ctx
          then workBufferLength ctx
          else currentFieldLength ctx - currentFieldPos ctx in
        match address with
        | Some p => txStreamCopyData ctx (Some (p, currentFieldPos ctx)) toCopy
        | None => txStreamCopyData ctx None toCopy
        end
      else Ret tt ctx in
    match copied with
    | Throw c => Throw c
    | Ret _ ctx =>
        if currentFieldPos ctx =? currentFieldLength ctx then
          let ctx :=
            match address with
            | Some p =>
                set_tx (assign (tx ctx) p
                          (set_flength (deref (tx ctx) p) (currentFieldLength ctx)))
                       ctx
            | None => ctx
            end in
          let ctx := set_currentField (field_succ (currentField ctx)) ctx in
          Ret tt (set_isProcessingField false ctx)
        else Ret tt ctx
    end.

(** [txStreamProcessVField] *)
Definition txStreamProcessVField (ctx : tx_stream_context_t)
    (pv : option tx_ptr) (fieldSize : Z) : exc unit :=
  if isCurrentFieldList ctx then Throw ctx
  else if negb (currentFieldLength ctx <=? fieldSize) then Throw ctx
  else
    let copied :=
      if currentFieldPos ctx <? currentFieldLength ctx then
        let toCopy :=
          if workBufferLength ctx <? currentFieldLength ctx - currentFieldPos ctx
          then workBufferLength ctx
          else currentFieldLength ctx - currentFieldPos ctx in
        match pv with
        | Some p => txStreamCopyData ctx (Some (p, currentFieldPos ctx)) toCopy
        | None => txStreamCopyData ctx None toCopy
        end
      else Ret tt ctx in
    match copied with
    | Throw c => Throw c
    | Ret _ ctx =>
        if currentFieldPos ctx =? currentFieldLength ctx then
          let ctx :=
            match pv with
            | Some p =>
                set_tx (assign (tx ctx) p
                          (set_flength (deref (tx ctx) p) (currentFieldLength ctx)))
                       ctx
            | None => ctx
            end in
          let ctx := set_currentField (field_succ (currentField ctx)) ctx in
          Ret tt (set_isProcessingField false ctx)
        else Ret tt ctx
    end.

(** [txStreamParseFieldProxy] *)
Definition txStreamParseFieldProxy (ctx : tx_stream_context_t)
  : exc tx_stream_status_e :=
  let processing (r : exc unit) : exc tx_stream_status_e :=
    match r with
    | Ret _ c => Ret TX_STREAM_PROCESSING c
    | Throw c => Throw c
    end in
  match currentField ctx with
  | TX_RLP_ENVELOPE =>
      match txStreamProcessContent ctx with
      | Throw c => Throw c
      | Ret _ ctx =>
          let ctx :=
            if Z.land (processingFlags ctx) TX_FLAG_TYPE =? 0
            then set_currentField (field_succ (currentField ctx)) ctx
            else ctx in
          Ret TX_STREAM_PROCESSING ctx
      end
  | TX_RLP_TYPE =>
      processing (txStreamProcessInt256Field ctx None TX_MAX_INT256_LENGTH)
  | TX_RLP_NONCE =>
      processing (txStreamProcessInt256Field ctx None TX_MAX_INT256_LENGTH)
  | TX_RLP_GAS_PRICE =>
      processing (txStreamProcessInt256Field ctx (Some P_gasPrice) TX_MAX_INT256_LENGTH)
  | TX_RLP_START_GAS =>
      processing (txStreamProcessInt256Field ctx (Some P_startGas) TX_MAX_INT256_LENGTH)
  | TX_RLP_VALUE =>
      processing (txStreamProcessInt256Field ctx (Some P_value) TX_MAX_INT256_LENGTH)
  | TX_RLP_RECIPIENT =>
      processing (txStreamProcessAddressField ctx (Some P_recipient) TX_MAX_ADDRESS_LENGTH)
  | TX_RLP_DATA | TX_RLP_R | TX_RLP_S =>
      processing (txStreamProcessInt256Field ctx None MAX_BUFFER_SIZE)
  | TX_RLP_V =>
      processing (txStreamProcessVField ctx (Some P_v) TX_MAX_INT256_LENGTH)
  | TX_RLP_NONE | TX_RLP_DONE => Ret TX_STREAM_FAULT ctx
  end.

(** The [while] loop of [txStreamDetectField]; every turn reads one byte, so
    [n] turns are enough for a work buffer of [n] bytes.  The result is the
    returned status together with [*canDecode]. *)
Fixpoint txStreamDetectField_loop (n : nat) (ctx : tx_stream_context_t)
  : exc (tx_stream_status_e * bool) :=
  match n with
  | O => Ret (TX_STREAM_PROCESSING, false) ctx
  | S n' =>
      if workBufferLength ctx =? 0 then Ret (TX_STREAM_PROCESSING, false) ctx
      else if rlpBufferPos ctx =? RLP_LENGTH_BUFFER_SIZE
      then Ret (TX_STREAM_FAULT, false) ctx
      else
        match txStreamReadByte ctx with
        | Throw c => Throw c
        | Ret data ctx =>
            let ctx := set_rlpBuffer (rlpBuffer ctx ++ [data]) ctx in
            let '(can, isValid) := rlpCanDecode (rlpBuffer ctx) in
            if can then
              if negb isValid then Ret (TX_STREAM_FAULT, false) ctx
              else Ret (TX_STREAM_PROCESSING, true) ctx
            else txStreamDetectField_loop n' ctx
        end
  end.

(** [txStreamDetectField] *)
Definition txStreamDetectField (ctx : tx_stream_context_t)
  : exc (tx_stream_status_e * bool) :=
  txStreamDetectField_loop (length (workBuffer ctx)) ctx.

(** The block [if (!ctx->isProcessingField) { ... }] of [txStreamParse]:
    [Ret (Some s)] is [return s], [Ret None] falls through to the field
    dispatcher.  The byte that [ctx->workBuffer--] uncovers is the byte read
    last, which is the last one stored in the scratch buffer. *)
Definition txStreamParse_header (ctx : tx_stream_context_t)
  : exc (option tx_stream_status_e) :=
  match txStreamDetectField ctx with
  | Throw c => Throw c
  | Ret (TX_STREAM_FAULT, _) ctx => Ret (Some TX_STREAM_FAULT) ctx
  | Ret (_, false) ctx => Ret (Some TX_STREAM_PROCESSING) ctx
  | Ret (_, true) ctx =>
      match rlpDecodeLength (rlpBuffer ctx) with
      | None => Ret (Some TX_STREAM_FAULT) ctx
      | Some (fieldLength, offset, list) =>
          let ctx := set_currentFieldLength (u32 fieldLength) ctx in
          let ctx := set_isCurrentFieldList list ctx in
          let data := last (rlpBuffer ctx) x00 in
          let ctx := set_rlpBuffer [] ctx in
          let ctx := set_isFieldSingleByte (offset =? 0) ctx in
          let ctx :=
            if offset =? 0
            then set_workBuffer (data :: workBuffer ctx) ctx
            else ctx in
          let ctx := set_currentFieldPos 0 ctx in
          Ret None (set_isProcessingField true ctx)
      end
  end.

(** One turn of the [for (;;)] loop of [txStreamParse]: [Ret (Some s)] is
    [return s], [Ret None] is the end of the loop body. *)
Definition txStreamParse_body (ctx : tx_stream_context_t)
  : exc (option tx_stream_status_e) :=
  if field_eqb (currentField ctx) TX_RLP_DONE
  then Ret (Some TX_STREAM_FINISHED) ctx
  else if field_eqb (currentField ctx) TX_RLP_V && (workBufferLength ctx =? 0)
  then Ret (Some TX_STREAM_FINISHED)
           (set_tx (assign (tx ctx) P_v (set_flength (v (tx ctx)) 0)) ctx)
  else if workBufferLength ctx =? 0
  then Ret (Some TX_STREAM_PROCESSING) ctx
  else
    let header :=
      if negb (isProcessingField ctx) then txStreamParse_header ctx
      else Ret None ctx in
    match header with
    | Throw c => Throw c
    | Ret (Some s) ctx => Ret (Some s) ctx
    | Ret None ctx =>
        match txStreamParseFieldProxy ctx with
        | Throw c => Throw c
        | Ret TX_STREAM_FAULT ctx => Ret (Some TX_STREAM_FAULT) ctx
        | Ret _ ctx => Ret None ctx
        end
    end.

(** [txStreamParse] *)
Fixpoint txStreamParse (fuel : nat) (ctx : tx_stream_context_t)
  : option (exc tx_stream_status_e) :=
  match fuel with
  | O => None
  | S fuel' =>
      match txStreamParse_body ctx with
      | Throw c => Some (Throw c)
      | Ret (Some s) c => Some (Ret s c)
      | Ret None c => txStreamParse fuel' c
      end
  end.

(** Turns of the parse loop that a call with [n] bytes of input can need:
    every turn that does not return reads a byte or completes a field. *)
Definition parse_fuel (n : nat) : nat := (n + 14)%nat.

(** [txStreamProcess]; [buffer] stands for the pair [buffer]/[length]. *)
Definition txStreamProcess (ctx : tx_stream_context_t) (buffer : list byte)
    (flags : Z) : option (tx_stream_status_e * tx_stream_context_t) :=
  if negb (Z.of_nat (length buffer) >? 0) then Some (TX_STREAM_FAULT, ctx)
  else if negb ((field_rank (currentField ctx) >? field_rank TX_RLP_NONE)
                && (field_rank (currentField ctx) <? field_rank TX_RLP_DONE))
  then Some (TX_STREAM_FAULT, ctx)
  else
    let ctx := set_workBuffer buffer ctx in
    let ctx := set_processingFlags flags ctx in
    match txStreamParse (parse_fuel (length buffer)) ctx with
    | None => None
    | Some (Ret result c) => Some (result, c)
    | Some (Throw c) => Some (TX_STREAM_FAULT, c)
    end.


(** Retention policy and capacity bound of the scalar fields, as the field
    dispatcher passes them to the field processors. *)
Definition field_ptr (f : tx_rlp_field_e) : option tx_ptr :=
  match f with
  | TX_RLP_GAS_PRICE => Some P_gasPrice
  | TX_RLP_START_GAS => Some P_startGas
  | TX_RLP_VALUE => Some P_value
  | TX_RLP_RECIPIENT => Some P_recipient
  | TX_RLP_V => Some P_v
  | _ => None
  end.

Definition field_capacity (f : tx_rlp_field_e) : option Z :=
  match f with
  | TX_RLP_TYPE | TX_RLP_NONCE | TX_RLP_GAS_PRICE | TX_RLP_START_GAS
  | TX_RLP_VALUE | TX_RLP_V => Some TX_MAX_INT256_LENGTH
  | TX_RLP_RECIPIENT => Some TX_MAX_ADDRESS_LENGTH
  | TX_RLP_DATA | TX_RLP_R | TX_RLP_S => Some MAX_BUFFER_SIZE
  | TX_RLP_NONE | TX_RLP_ENVELOPE | TX_RLP_DONE => None
  end.

(** The caller of the claims about fragmentation: [txStreamProcess] is
    called on every fragment in turn, with the same flags, until a call
    faults. *)
Fixpoint txStreamFeed (ctx : tx_stream_context_t) (fragments : list (list byte))
    (flags : Z) : option (tx_stream_status_e * tx_stream_context_t) :=
  match fragments with
  | [] => Some (TX_STREAM_PROCESSING, ctx)
  | f :: rest =>
      match txStreamProcess ctx f flags with
      | None => None
      | Some (TX_STREAM_FAULT, c) => Some (TX_STREAM_FAULT, c)
      | Some (s, c) =>
          match rest with
          | [] => Some (s, c)
          | _ => txStreamFeed c rest flags
          end
      end
  end.

(** The context that an outcome leaves. *)
Definition ctx_of {A : Type} (r : exc A) : tx_stream_context_t :=
  match r with
  | Ret _ c => c
  | Throw c => c
  end.

(** [ctx] with [b] appended to the unread input. *)
Definition more_input (b : list byte) (ctx : tx_stream_context_t) :=
  set_workBuffer (workBuffer ctx ++ b) ctx.

(** [ctx->tx->v.length = 0] *)
Definition clear_v (ctx : tx_stream_context_t) :=
  set_tx (assign (tx ctx) P_v (set_flength (v (tx ctx)) 0)) ctx.

(** What holds of the context at every head of the parse loop: inside a
    field the position is short of the declared length. *)
Definition in_field_ok (ctx : tx_stream_context_t) : Prop :=
  isProcessingField ctx = true ->
  0 <= currentFieldPos ctx < currentFieldLength ctx /\
  currentFieldLength ctx < 2 ^ 32.

(** ** Definitions used by the statements and the proofs *)

(** The hash after the bytes of [l] have been read one by one. *)
Definition hash_bytes (h : cx_sha3_t) (l : list byte) : cx_sha3_t :=
  fold_left (fun h x => cx_hash h [x]) l h.

(** The context after the detector has read [consumed] and left [rest]. *)
Definition detected (consumed rest : list byte) (ctx : tx_stream_context_t) :=
  set_rlpBuffer (rlpBuffer ctx ++ consumed)
    (set_sha3 (hash_bytes (sha3 ctx) consumed) (set_workBuffer rest ctx)).

(** The detector as a function of the scratch buffer and of the unread
    input alone: the verdict, the bytes read and the bytes left. *)
Fixpoint scan (scratch input : list byte)
  : (tx_stream_status_e * bool) * list byte * list byte :=
  match input with
  | [] => ((TX_STREAM_PROCESSING, false), [], [])
  | x :: input' =>
      if Z.of_nat (length scratch) =? RLP_LENGTH_BUFFER_SIZE
      then ((TX_STREAM_FAULT, false), [], input)
      else
        let '(can, isValid) := rlpCanDecode (scratch ++ [x]) in
        if can then
          if negb isValid then ((TX_STREAM_FAULT, false), [x], input')
          else ((TX_STREAM_PROCESSING, true), [x], input')
        else
          let '(r, consumed, rest) := scan (scratch ++ [x]) input' in
          (r, x :: consumed, rest)
  end.

Ltac unfold_setters :=
  unfold set_sha3, set_tx, set_currentField, set_workBuffer,
    set_isProcessingField, set_isFieldSingleByte, set_isCurrentFieldList,
    set_currentFieldPos, set_currentFieldLength, set_dataLength,
    set_rlpBuffer, set_processingFlags; simpl.

(** The context after [rlpDecodeLength] has succeeded. *)
Definition begin_field (fieldLength offset : Z) (list : bool)
    (ctx : tx_stream_context_t) : tx_stream_context_t :=
  mk_ctx (sha3 ctx) (tx ctx) (currentField ctx)
    (if offset =? 0 then last (rlpBuffer ctx) x00 :: workBuffer ctx
     else workBuffer ctx)
    true (offset =? 0) list 0 (u32 fieldLength) (dataLength ctx) []
    (processingFlags ctx).

(** The context after [txStreamCopyData] has moved [k] bytes inside a
    field. *)
Definition copied (out : option (tx_ptr * Z)) (k : nat)
    (ctx : tx_stream_context_t) : tx_stream_context_t :=
  let data := firstn k (workBuffer ctx) in
  mk_ctx
    (if isFieldSingleByte ctx then sha3 ctx else cx_hash (sha3 ctx) data)
    (match out with
     | Some (p, off) =>
         assign (tx ctx) p
           (set_value (deref (tx ctx) p)
              (os_memmove (value (deref (tx ctx) p)) (Z.to_nat off) data))
     | None => tx ctx
     end)
    (currentField ctx) (skipn k (workBuffer ctx)) true (isFieldSingleByte ctx)
    (isCurrentFieldList ctx) (u32 (currentFieldPos ctx + Z.of_nat k))
    (currentFieldLength ctx) (dataLength ctx) (rlpBuffer ctx)
    (processingFlags ctx).

(** The end of a field: the slot's length is recorded, the schema position
    advances and the in-field flag is cleared. *)
Definition completed (field : option tx_ptr) (ctx : tx_stream_context_t)
  : tx_stream_context_t :=
  mk_ctx (sha3 ctx)
    (match field with
     | Some p =>
         assign (tx ctx) p (set_flength (deref (tx ctx) p) (currentFieldLength ctx))
     | None => tx ctx
     end)
    (field_succ (currentField ctx)) (workBuffer ctx) false
    (isFieldSingleByte ctx) (isCurrentFieldList ctx) (currentFieldPos ctx)
    (currentFieldLength ctx) (dataLength ctx) (rlpBuffer ctx)
    (processingFlags ctx).

(** The number of bytes that one call of a field processor moves. *)
Definition take_len (ctx : tx_stream_context_t) : nat :=
  if currentFieldPos ctx <? currentFieldLength ctx
  then Z.to_nat (Z.min (workBufferLength ctx)
                       (currentFieldLength ctx - currentFieldPos ctx))
  else O.

(** The context after a field processor has run without a fault. *)
Definition accumulate (field : option tx_ptr) (ctx : tx_stream_context_t)
  : tx_stream_context_t :=
  let c1 :=
    if currentFieldPos ctx <? currentFieldLength ctx
    then copied (option_map (fun p => (p, currentFieldPos ctx)) field)
                (take_len ctx) ctx
    else ctx in
  if currentFieldPos c1 =? currentFieldLength c1 then completed field c1
  else c1.

(** The context after the envelope has been accepted. *)
Definition enveloped (ctx : tx_stream_context_t) : tx_stream_context_t :=
  mk_ctx (sha3 ctx) (tx ctx)
    (if Z.land (processingFlags ctx) TX_FLAG_TYPE =? 0
     then TX_RLP_NONCE else TX_RLP_TYPE)
    (workBuffer ctx) false (isFieldSingleByte ctx) (isCurrentFieldList ctx)
    (currentFieldPos ctx) (currentFieldLength ctx) (currentFieldLength ctx)
    (rlpBuffer ctx) (processingFlags ctx).

(** An outcome is a fault when it is a thrown exception or the status
    [TX_STREAM_FAULT]. *)
Definition proxy_faults (r : exc tx_stream_status_e) : Prop :=
  match r with
  | Throw _ => True
  | Ret TX_STREAM_FAULT _ => True
  | Ret _ _ => False
  end.

(** The end of the loop body. *)
Definition after_proxy (r : exc tx_stream_status_e)
  : exc (option tx_stream_status_e) :=
  match r with
  | Throw c => Throw c
  | Ret TX_STREAM_FAULT c => Ret (Some TX_STREAM_FAULT) c
  | Ret _ c => Ret None c
  end.

Definition body_faults (r : exc (option tx_stream_status_e)) : Prop :=
  match r with
  | Throw _ => True
  | Ret (Some TX_STREAM_FAULT) _ => True
  | Ret _ _ => False
  end.

(** [c'] comes after [ctx] in a parse: the flags are the same, the schema
    position has not gone back, and the only slot that may differ is the slot
    of the field at which [ctx] is. *)
Definition frame (ctx c' : tx_stream_context_t) : Prop :=
  processingFlags c' = processingFlags ctx /\
  field_rank (currentField ctx) <= field_rank (currentField c') /\
  (currentField ctx <> TX_RLP_NONE -> currentField c' <> TX_RLP_NONE) /\
  forall p, currentField ctx <> ptr_field p ->
            deref (tx c') p = deref (tx ctx) p.

(** The loop returns [r] from [ctx]. *)
Definition parses (ctx : tx_stream_context_t) (r : exc tx_stream_status_e)
  : Prop :=
  exists n, txStreamParse n ctx = Some r.

(** Every turn that does not return takes input or ends a field. *)
Definition turns_left (ctx : tx_stream_context_t) : nat :=
  (length (workBuffer ctx) + Z.to_nat (12 - field_rank (currentField ctx)))%nat.

(** The primitive does not report the header decodable after any of the
    first [k] bytes of [input] has been added to the scratch buffer. *)
Definition undecodable (scratch input : list byte) (k : nat) : Prop :=
  forall j, (1 <= j <= k)%nat ->
            fst (rlpCanDecode (scratch ++ firstn j input)) = false.

(** The context is exactly at the boundary before the V field: the parser
    expects V, is not inside a field, and holds no header byte. *)
Definition at_v_boundary (c : tx_stream_context_t) : Prop :=
  currentField c = TX_RLP_V /\ isProcessingField c = false /\
  rlpBuffer c = [] /\ workBuffer c = [].

(** The context with its flags field blanked. *)
Definition forget_flags (c : tx_stream_context_t) : tx_stream_context_t :=
  set_processingFlags 0 c.

Definition exc_map {A : Type} (g : tx_stream_context_t -> tx_stream_context_t)
    (r : exc A) : exc A :=
  match r with
  | Ret a c => Ret a (g c)
  | Throw c => Throw (g c)
  end.

(** Between calls, a field in progress is not a self-encoded byte. *)
Definition hash_ok (ctx : tx_stream_context_t) : Prop :=
  isProcessingField ctx = true ->
  0 <= currentFieldPos ctx < currentFieldLength ctx /\
  currentFieldLength ctx < 2 ^ 32 /\
  isFieldSingleByte ctx = false.

(** The scratch buffer is within its bound. *)
Definition scratch_ok (ctx : tx_stream_context_t) : Prop :=
  rlpBufferPos ctx <= RLP_LENGTH_BUFFER_SIZE.

(** What a returned status says of the context that the call leaves. *)
Definition status_meaning (s : tx_stream_status_e) (c : tx_stream_context_t)
  : Prop :=
  match s with
  | TX_STREAM_PROCESSING =>
      workBuffer c = [] /\ currentField c <> TX_RLP_DONE
  | TX_STREAM_FINISHED =>
      currentField c = TX_RLP_DONE \/
      (currentField c = TX_RLP_V /\ workBuffer c = [] /\
       flength (v (tx c)) = 0)
  | TX_STREAM_FAULT => True
  end.

(** Two states of a slot's array agree at every index from [cap] on. *)
Definition same_beyond (cap : Z) (old new : list byte) : Prop :=
  forall i, cap <= Z.of_nat i -> nth_error new i = nth_error old i.

(** A slot has been used within the capacity [cap]: its array is unchanged
    from [cap] on, and its length is within [cap] if it was. *)
Definition slot_kept (cap : Z) (s s' : tx_int256_t) : Prop :=
  same_beyond cap (value s) (value s') /\
  (flength s <= cap -> flength s' <= cap).

(** Every slot has been used within the capacity that the dispatcher passes
    for its field. *)
Definition tx_kept (t t' : transaction_t) : Prop :=
  forall q cap,
    field_capacity (ptr_field q) = Some cap ->
    slot_kept cap (deref t q) (deref t' q).

(** A caller that follows section 5 of the specification: a call that
    returns [TX_STREAM_FINISHED] or [TX_STREAM_FAULT] is the last one, and
    the fragments behind it are not fed.  [txStreamFeed] is the caller that
    stops at a fault only. *)
Fixpoint txStreamFeedTerminal (ctx : tx_stream_context_t)
    (fragments : list (list byte)) (flags : Z)
  : option (tx_stream_status_e * tx_stream_context_t) :=
  match fragments with
  | [] => Some (TX_STREAM_PROCESSING, ctx)
  | f :: rest =>
      match txStreamProcess ctx f flags with
      | None => None
      | Some (TX_STREAM_PROCESSING, c) =>
          match rest with
          | [] => Some (TX_STREAM_PROCESSING, c)
          | _ => txStreamFeedTerminal c rest flags
          end
      | Some (s, c) => Some (s, c)
      end
  end.

(** The call has left the loop by the legacy-shape exit: it returned
    [TX_STREAM_FINISHED] with the parser at the V field. *)
Definition legacy_exit (s : tx_stream_status_e) (c : tx_stream_context_t)
  : bool :=
  match s with
  | TX_STREAM_FINISHED => field_eqb (currentField c) TX_RLP_V
  | _ => false
  end.

(** ** Assumptions on the external primitives

    Each is used only by the results that say so: the chunking law by the
    results on fragmentation, all three by the accounting of the hash. *)

(** Feeding the hash in two pieces is feeding it the whole. *)
Hypothesis cx_hash_app : forall h a b,
  cx_hash h (a ++ b) = cx_hash (cx_hash h a) b.

(** Feeding the hash nothing leaves it as it is. *)
Hypothesis cx_hash_nil : forall h, cx_hash h [] = h.

(** The primitive reports offset 0 only for a self-encoded byte: a scalar
    of declared length 1. *)
Hypothesis rlp_self_encoded : forall buffer fieldLength list,
  rlpDecodeLength buffer = Some (fieldLength, 0, list) ->
  fieldLength = 1 /\ list = false.

(** ** Basic facts *)

Lemma field_eqb_eq f g : field_eqb f g = true <-> f = g.
Proof.
  unfold field_eqb. rewrite Z.eqb_eq.
  split; [| intros ->; reflexivity].
  destruct f, g; simpl; intros E; try reflexivity; discriminate E.
Qed.

Lemma field_eqb_neq f g : field_eqb f g = false <-> f <> g.
Proof.
  rewrite <- field_eqb_eq. destruct (field_eqb f g); split; congruence.
Qed.

Lemma txStreamProcessAddressField_eq :
  txStreamProcessAddressField = txStreamProcessInt256Field.
Proof. reflexivity. Qed.

Lemma txStreamProcessVField_eq :
  txStreamProcessVField = txStreamProcessInt256Field.
Proof. reflexivity. Qed.

(** The dispatcher on a scalar field is the bounded copy with the field's
    slot and capacity. *)
Lemma proxy_scalar ctx cap :
  field_capacity (currentField ctx) = Some cap ->
  txStreamParseFieldProxy ctx =
  match txStreamProcessInt256Field ctx (field_ptr (currentField ctx)) cap with
  | Ret _ c => Ret TX_STREAM_PROCESSING c
  | Throw c => Throw c
  end.
Proof.
  unfold txStreamParseFieldProxy, field_capacity.
  rewrite txStreamProcessAddressField_eq, txStreamProcessVField_eq.
  destruct (currentField ctx); simpl; intros E; inversion E; subst; reflexivity.
Qed.

Lemma wbl_zero ctx : (workBufferLength ctx =? 0) = true <-> workBuffer ctx = [].
Proof.
  unfold workBufferLength. rewrite Z.eqb_eq.
  destruct (workBuffer ctx); simpl; split; intros E; try reflexivity;
    try discriminate; lia.
Qed.

Lemma wbl_nonzero ctx : (workBufferLength ctx =? 0) = false <-> workBuffer ctx <> [].
Proof.
  rewrite <- wbl_zero. destruct (workBufferLength ctx =? 0); split; congruence.
Qed.

(** ** The field length detector *)

Lemma ctx_eta (c : tx_stream_context_t) :
  c = mk_ctx (sha3 c) (tx c) (currentField c) (workBuffer c)
        (isProcessingField c) (isFieldSingleByte c) (isCurrentFieldList c)
        (currentFieldPos c) (currentFieldLength c) (dataLength c)
        (rlpBuffer c) (processingFlags c).
Proof. destruct c; reflexivity. Qed.

Lemma txStreamReadByte_cons ctx x rest :
  workBuffer ctx = x :: rest ->
  isProcessingField ctx = false ->
  txStreamReadByte ctx =
  Ret x (set_sha3 (cx_hash (sha3 ctx) [x]) (set_workBuffer rest ctx)).
Proof.
  intros Hw Hp. unfold txStreamReadByte. rewrite Hw. simpl.
  rewrite Hp. simpl. rewrite Hp. reflexivity.
Qed.

Lemma detected_nil ctx rest :
  workBuffer ctx = rest -> detected [] rest ctx = ctx.
Proof.
  intros <-. unfold detected, hash_bytes. simpl. rewrite app_nil_r.
  destruct ctx; reflexivity.
Qed.

Lemma detected_cons ctx x consumed rest :
  detected consumed rest
    (set_rlpBuffer (rlpBuffer ctx ++ [x])
       (set_sha3 (cx_hash (sha3 ctx) [x]) (set_workBuffer (consumed ++ rest) ctx)))
  = detected (x :: consumed) rest ctx.
Proof.
  unfold detected, hash_bytes. simpl. rewrite <- app_assoc. reflexivity.
Qed.

Lemma detect_loop_scan n : forall ctx,
  isProcessingField ctx = false ->
  (length (workBuffer ctx) <= n)%nat ->
  txStreamDetectField_loop n ctx =
  let '(r, consumed, rest) := scan (rlpBuffer ctx) (workBuffer ctx) in
  Ret r (detected consumed rest ctx).
Proof.
  induction n as [|n IH]; intros ctx Hp Hn.
  - destruct (workBuffer ctx) eqn:Hw; [| simpl in Hn; lia].
    simpl. rewrite (detected_nil ctx [] Hw). reflexivity.
  - simpl. destruct (workBufferLength ctx =? 0) eqn:Hz.
    + apply wbl_zero in Hz. rewrite Hz. simpl.
      rewrite (detected_nil ctx [] Hz). reflexivity.
    + apply wbl_nonzero in Hz.
      destruct (workBuffer ctx) as [|x wb] eqn:Hw; [congruence|].
      simpl. unfold rlpBufferPos.
      destruct (Z.of_nat (length (rlpBuffer ctx)) =? RLP_LENGTH_BUFFER_SIZE).
      * rewrite (detected_nil ctx _ Hw). reflexivity.
      * rewrite (txStreamReadByte_cons ctx x wb Hw Hp). simpl.
        destruct (rlpCanDecode (rlpBuffer ctx ++ [x])) as [can isValid] eqn:Hc.
        destruct can.
        -- destruct isValid; reflexivity.
        -- set (c1 := set_rlpBuffer _ _).
           rewrite (IH c1); [| exact Hp | simpl; simpl in Hn; lia].
           simpl.
           destruct (scan (rlpBuffer ctx ++ [x]) wb) as [[r consumed] rest] eqn:Hs.
           unfold c1, detected, hash_bytes. simpl.
           rewrite <- app_assoc. reflexivity.
Qed.

Lemma detect_scan ctx :
  isProcessingField ctx = false ->
  txStreamDetectField ctx =
  let '(r, consumed, rest) := scan (rlpBuffer ctx) (workBuffer ctx) in
  Ret r (detected consumed rest ctx).
Proof.
  intros Hp. apply detect_loop_scan; [assumption | lia].
Qed.

Lemma scan_split : forall input scratch r consumed rest,
  scan scratch input = (r, consumed, rest) -> input = consumed ++ rest.
Proof.
  induction input as [|x input IH]; simpl; intros scratch r consumed rest E.
  - inversion E; reflexivity.
  - destruct (Z.of_nat (length scratch) =? RLP_LENGTH_BUFFER_SIZE).
    + inversion E; reflexivity.
    + destruct (rlpCanDecode (scratch ++ [x])) as [can isValid].
      destruct can.
      * destruct isValid; inversion E; reflexivity.
      * destruct (scan (scratch ++ [x]) input) as [[r' c'] rest'] eqn:Hs.
        inversion E; subst. simpl. f_equal. eapply IH; eassumption.
Qed.

Lemma scan_verdict : forall input scratch r consumed rest,
  scan scratch input = (r, consumed, rest) ->
  (r = (TX_STREAM_PROCESSING, false) /\ rest = []) \/
  (r = (TX_STREAM_PROCESSING, true) /\ consumed <> []) \/
  r = (TX_STREAM_FAULT, false).
Proof.
  induction input as [|x input IH]; simpl; intros scratch r consumed rest E.
  - inversion E; auto.
  - destruct (Z.of_nat (length scratch) =? RLP_LENGTH_BUFFER_SIZE).
    + inversion E; auto.
    + destruct (rlpCanDecode (scratch ++ [x])) as [can isValid].
      destruct can.
      * destruct isValid; inversion E; subst; auto.
        right; left; split; [reflexivity | discriminate].
      * destruct (scan (scratch ++ [x]) input) as [[r' c'] rest'] eqn:Hs.
        inversion E; subst.
        destruct (IH _ _ _ _ Hs) as [[? ?]|[[? ?]|?]]; auto.
        right; left; split; [assumption | discriminate].
Qed.

(** More input after a verdict does not change the verdict. *)
Lemma scan_app_verdict b : forall input scratch r consumed rest,
  scan scratch input = (r, consumed, rest) ->
  r <> (TX_STREAM_PROCESSING, false) ->
  scan scratch (input ++ b) = (r, consumed, rest ++ b).
Proof.
  induction input as [|x input IH]; simpl; intros scratch r consumed rest E Hr.
  - inversion E; subst; congruence.
  - destruct (Z.of_nat (length scratch) =? RLP_LENGTH_BUFFER_SIZE).
    + inversion E; reflexivity.
    + destruct (rlpCanDecode (scratch ++ [x])) as [can isValid].
      destruct can.
      * destruct isValid; inversion E; reflexivity.
      * destruct (scan (scratch ++ [x]) input) as [[r' c'] rest'] eqn:Hs.
        inversion E; subst.
        rewrite (IH _ _ _ _ Hs Hr). reflexivity.
Qed.

(** When the input ends before a verdict, the detector resumes on the next
    input from the scratch buffer it has filled. *)
Lemma scan_app_exhausted b : forall input scratch consumed rest,
  scan scratch input = ((TX_STREAM_PROCESSING, false), consumed, rest) ->
  scan scratch (input ++ b) =
  let '(r, consumed', rest') := scan (scratch ++ consumed) b in
  (r, consumed ++ consumed', rest').
Proof.
  induction input as [|x input IH]; simpl; intros scratch consumed rest E.
  - inversion E; subst. rewrite app_nil_r.
    destruct (scan scratch b) as [[r c] rest']. reflexivity.
  - destruct (Z.of_nat (length scratch) =? RLP_LENGTH_BUFFER_SIZE).
    + inversion E.
    + destruct (rlpCanDecode (scratch ++ [x])) as [can isValid].
      destruct can.
      * destruct isValid; inversion E.
      * destruct (scan (scratch ++ [x]) input) as [[r' c'] rest'] eqn:Hs.
        inversion E; subst.
        rewrite (IH _ _ _ Hs). rewrite <- app_assoc. simpl.
        destruct (scan (scratch ++ x :: c') b) as [[r c] rest'']. reflexivity.
Qed.

(** ** The header block and the field accumulator in closed form *)

Lemma header_scan ctx :
  isProcessingField ctx = false ->
  txStreamParse_header ctx =
  let '(r, consumed, rest) := scan (rlpBuffer ctx) (workBuffer ctx) in
  let d := detected consumed rest ctx in
  match r with
  | (TX_STREAM_FAULT, _) => Ret (Some TX_STREAM_FAULT) d
  | (_, false) => Ret (Some TX_STREAM_PROCESSING) d
  | (_, true) =>
      match rlpDecodeLength (rlpBuffer ctx ++ consumed) with
      | None => Ret (Some TX_STREAM_FAULT) d
      | Some (fieldLength, offset, list) =>
          Ret None (begin_field fieldLength offset list d)
      end
  end.
Proof.
  intros Hp. unfold txStreamParse_header. rewrite (detect_scan ctx Hp).
  destruct (scan (rlpBuffer ctx) (workBuffer ctx)) as [[[st can] consumed] rest].
  destruct st, can; try reflexivity; simpl;
    destruct (rlpDecodeLength (rlpBuffer ctx ++ consumed)) as [[[fl off] li]|];
    try reflexivity;
    unfold begin_field; simpl; destruct (off =? 0); reflexivity.
Qed.

Lemma txStreamCopyData_closed ctx out len :
  isProcessingField ctx = true ->
  0 <= len <= workBufferLength ctx ->
  txStreamCopyData ctx out len = Ret tt (copied out (Z.to_nat len) ctx).
Proof.
  intros Hp Hl. unfold txStreamCopyData.
  destruct (workBufferLength ctx <? len) eqn:E; [apply Z.ltb_lt in E; lia|].
  unfold copied. rewrite Z2Nat.id by lia.
  destruct out as [[p off]|]; simpl; rewrite Hp; simpl;
    destruct (isFieldSingleByte ctx) eqn:Hs; simpl; rewrite ?Hp;
    unfold_setters; rewrite ?Hp, ?Hs; reflexivity.
Qed.

Lemma txStreamProcessInt256Field_closed ctx field cap :
  isProcessingField ctx = true ->
  txStreamProcessInt256Field ctx field cap =
  if isCurrentFieldList ctx then Throw ctx
  else if negb (currentFieldLength ctx <=? cap) then Throw ctx
  else Ret tt (accumulate field ctx).
Proof.
  intros Hp. unfold txStreamProcessInt256Field, accumulate, take_len.
  destruct (isCurrentFieldList ctx); [reflexivity|].
  destruct (negb (currentFieldLength ctx <=? cap)); [reflexivity|].
  destruct (currentFieldPos ctx <? currentFieldLength ctx) eqn:Hlt.
  - apply Z.ltb_lt in Hlt.
    assert (Hw : 0 <= workBufferLength ctx) by (unfold workBufferLength; lia).
    assert (Hk :
      (if workBufferLength ctx <? currentFieldLength ctx - currentFieldPos ctx
       then workBufferLength ctx
       else currentFieldLength ctx - currentFieldPos ctx) =
      Z.min (workBufferLength ctx) (currentFieldLength ctx - currentFieldPos ctx)).
    { destruct (Z.ltb_spec (workBufferLength ctx)
                  (currentFieldLength ctx - currentFieldPos ctx)); lia. }
    rewrite Hk.
    destruct field as [p|]; simpl;
      rewrite txStreamCopyData_closed by (try assumption; lia);
      simpl;
      match goal with
      | |- context [if ?b then _ else _] => destruct b
      end; reflexivity.
  - simpl. destruct (currentFieldPos ctx =? currentFieldLength ctx);
      destruct field; reflexivity.
Qed.

(** The field dispatcher in closed form. *)
Lemma proxy_closed ctx :
  isProcessingField ctx = true ->
  txStreamParseFieldProxy ctx =
  match currentField ctx with
  | TX_RLP_NONE | TX_RLP_DONE => Ret TX_STREAM_FAULT ctx
  | TX_RLP_ENVELOPE =>
      if isCurrentFieldList ctx then Ret TX_STREAM_PROCESSING (enveloped ctx)
      else Throw ctx
  | f =>
      match field_capacity f with
      | Some cap =>
          if isCurrentFieldList ctx then Throw ctx
          else if negb (currentFieldLength ctx <=? cap) then Throw ctx
          else Ret TX_STREAM_PROCESSING (accumulate (field_ptr f) ctx)
      | None => Ret TX_STREAM_FAULT ctx
      end
  end.
Proof.
  intros Hp.
  destruct (field_capacity (currentField ctx)) as [cap|] eqn:Hc.
  - rewrite (proxy_scalar ctx cap Hc).
    rewrite (txStreamProcessInt256Field_closed ctx _ cap Hp).
    destruct (currentField ctx); simpl in Hc; try discriminate Hc;
      inversion Hc; subst; simpl;
      destruct (isCurrentFieldList ctx); try reflexivity;
      match goal with
      | |- context [if ?b then _ else _] => destruct b
      end; reflexivity.
  - unfold txStreamParseFieldProxy.
    destruct (currentField ctx) eqn:Hf; simpl in Hc; try discriminate Hc;
      try reflexivity.
    unfold txStreamProcessContent, enveloped.
    destruct (isCurrentFieldList ctx) eqn:Hl; simpl; [| reflexivity].
    rewrite Hf. simpl.
    destruct (Z.land (processingFlags ctx) TX_FLAG_TYPE =? 0);
      unfold_setters; rewrite ?Hl; reflexivity.
Qed.

(** ** A field processor and more input *)

Lemma u32_small z : 0 <= z < 2 ^ 32 -> u32 z = z.
Proof. intros H. unfold u32. apply Z.mod_small. exact H. Qed.

Lemma os_memmove_app : forall a dst off b,
  os_memmove dst off (a ++ b) =
  os_memmove (os_memmove dst off a) (off + length a) b.
Proof.
  induction a as [|x a IH]; simpl; intros dst off b.
  - rewrite Nat.add_0_r. reflexivity.
  - rewrite IH. f_equal. lia.
Qed.

Lemma deref_assign t p s : deref (assign t p s) p = s.
Proof. destruct p; reflexivity. Qed.

Lemma assign_assign t p s1 s2 : assign (assign t p s1) p s2 = assign t p s2.
Proof. destruct p; reflexivity. Qed.

Lemma deref_assign_other t p q s : p <> q -> deref (assign t p s) q = deref t q.
Proof. destruct p, q; intros H; try reflexivity; congruence. Qed.

Lemma more_input_nil ctx b :
  workBuffer ctx = [] -> more_input b ctx = set_workBuffer b ctx.
Proof. intros H. unfold more_input. rewrite H. reflexivity. Qed.

(** When the unread input holds the rest of the field, input appended
    behind it is left alone. *)
Lemma accumulate_full b field ctx :
  0 <= currentFieldPos ctx <= currentFieldLength ctx ->
  currentFieldLength ctx - currentFieldPos ctx <= workBufferLength ctx ->
  accumulate field (more_input b ctx) = more_input b (accumulate field ctx).
Proof.
  intros Hpos Hlen. unfold accumulate, take_len. simpl.
  unfold workBufferLength in *. simpl. rewrite length_app.
  destruct (currentFieldPos ctx <? currentFieldLength ctx) eqn:Hlt.
  - apply Z.ltb_lt in Hlt.
    rewrite !Z.min_r by lia.
    set (k := Z.to_nat (currentFieldLength ctx - currentFieldPos ctx)).
    assert (Hk : (k <= length (workBuffer ctx))%nat) by (unfold k; lia).
    unfold copied. simpl.
    rewrite firstn_app, skipn_app.
    replace (k - length (workBuffer ctx))%nat with O by lia.
    simpl. rewrite app_nil_r.
    match goal with
    | |- context [if ?b then _ else _] => destruct b
    end; reflexivity.
  - simpl. destruct (currentFieldPos ctx =? currentFieldLength ctx); reflexivity.
Qed.

(** When the unread input ends inside the field, the processor takes all of
    it, and resuming on the next input gives what one call on both gives. *)
Lemma accumulate_partial b field ctx :
  0 <= currentFieldPos ctx ->
  workBufferLength ctx < currentFieldLength ctx - currentFieldPos ctx ->
  currentFieldLength ctx < 2 ^ 32 ->
  let c' := accumulate field ctx in
  c' = copied (option_map (fun p => (p, currentFieldPos ctx)) field)
         (length (workBuffer ctx)) ctx /\
  workBuffer c' = [] /\
  currentFieldPos c' = currentFieldPos ctx + workBufferLength ctx /\
  accumulate field (more_input b ctx) = accumulate field (set_workBuffer b c').
Proof.
  intros Hpos Hlen Hmax.
  assert (Hw : 0 <= workBufferLength ctx) by (unfold workBufferLength; lia).
  assert (Hlt : (currentFieldPos ctx <? currentFieldLength ctx) = true)
    by (apply Z.ltb_lt; lia).
  assert (Hpos' : u32 (currentFieldPos ctx + workBufferLength ctx) =
                  currentFieldPos ctx + workBufferLength ctx)
    by (apply u32_small; lia).
  assert (Hc : accumulate field ctx =
               copied (option_map (fun p => (p, currentFieldPos ctx)) field)
                 (length (workBuffer ctx)) ctx).
  { unfold accumulate, take_len. rewrite Hlt.
    rewrite Z.min_l by lia.
    replace (Z.to_nat (workBufferLength ctx)) with (length (workBuffer ctx))
      by (unfold workBufferLength; lia).
    destruct (currentFieldPos (copied _ _ ctx) =? currentFieldLength (copied _ _ ctx)) eqn:E;
      [| reflexivity].
    apply Z.eqb_eq in E. simpl in E. fold (workBufferLength ctx) in E. lia. }
  cbv zeta. rewrite Hc.
  split; [reflexivity|].
  split; [simpl; apply skipn_all|].
  split; [simpl; exact Hpos'|].
  set (n := length (workBuffer ctx)).
  set (k' := Z.to_nat (Z.min (Z.of_nat (length b))
     (currentFieldLength ctx - (currentFieldPos ctx + workBufferLength ctx)))).
  assert (Hlt' : (currentFieldPos ctx + workBufferLength ctx <?
                  currentFieldLength ctx) = true) by (apply Z.ltb_lt; lia).
  set (cB := set_workBuffer b
         (copied (option_map (fun p => (p, currentFieldPos ctx)) field) n ctx)).
  assert (HposB : currentFieldPos cB = currentFieldPos ctx + workBufferLength ctx)
    by exact Hpos'.
  assert (HtA : take_len (more_input b ctx) = (n + k')%nat).
  { unfold take_len.
    change (currentFieldPos (more_input b ctx)) with (currentFieldPos ctx).
    change (currentFieldLength (more_input b ctx)) with (currentFieldLength ctx).
    rewrite Hlt.
    unfold k', n, workBufferLength in *. simpl. rewrite length_app. lia. }
  assert (HtB : take_len cB = k').
  { unfold take_len. rewrite HposB.
    change (currentFieldLength cB) with (currentFieldLength ctx).
    rewrite Hlt'. reflexivity. }
  assert (HA : accumulate field (more_input b ctx) =
    let c1 := copied (option_map (fun p => (p, currentFieldPos ctx)) field)
                (n + k') (more_input b ctx) in
    if currentFieldPos c1 =? currentFieldLength c1 then completed field c1
    else c1).
  { rewrite <- HtA. unfold accumulate.
    change (currentFieldPos (more_input b ctx)) with (currentFieldPos ctx).
    change (currentFieldLength (more_input b ctx)) with (currentFieldLength ctx).
    rewrite Hlt. reflexivity. }
  assert (HB : accumulate field cB =
    let c1 :=
      copied (option_map
                (fun p => (p, currentFieldPos ctx + workBufferLength ctx)) field)
        k' cB in
    if currentFieldPos c1 =? currentFieldLength c1 then completed field c1
    else c1).
  { rewrite <- HtB. unfold accumulate. rewrite HposB.
    change (currentFieldLength cB) with (currentFieldLength ctx).
    rewrite Hlt'. reflexivity. }
  assert (Hcop :
    copied (option_map (fun p => (p, currentFieldPos ctx)) field) (n + k')
      (more_input b ctx) =
    copied (option_map (fun p => (p, currentFieldPos ctx + workBufferLength ctx)) field)
      k' cB).
  { subst cB. subst n. unfold copied. simpl.
    rewrite firstn_app, skipn_app.
    rewrite (firstn_all2 (n := length (workBuffer ctx) + k')) by lia.
    rewrite !firstn_all.
    rewrite skipn_all2 by lia.
    replace (length (workBuffer ctx) + k' - length (workBuffer ctx))%nat
      with k' by lia.
    simpl.
    f_equal.
    - destruct (isFieldSingleByte ctx); [reflexivity | apply cx_hash_app].
    - destruct field as [p|]; simpl; [| reflexivity].
      rewrite assign_assign, deref_assign. simpl.
      unfold set_value. simpl. f_equal. f_equal.
      rewrite os_memmove_app. f_equal.
      unfold workBufferLength in *. lia.
    - fold (workBufferLength ctx). rewrite Hpos'.
      f_equal. unfold workBufferLength in *. lia. }
  fold n. fold cB. rewrite HA, HB. cbv zeta. rewrite Hcop. reflexivity.
Qed.

Lemma accumulate_full_done field ctx :
  0 <= currentFieldPos ctx <= currentFieldLength ctx ->
  currentFieldLength ctx < 2 ^ 32 ->
  currentFieldLength ctx - currentFieldPos ctx <= workBufferLength ctx ->
  exists c1,
    accumulate field ctx = completed field c1 /\
    currentField c1 = currentField ctx /\
    (length (workBuffer c1) <= length (workBuffer ctx))%nat /\
    (currentFieldPos ctx < currentFieldLength ctx ->
     (length (workBuffer c1) < length (workBuffer ctx))%nat).
Proof.
  intros Hpos Hmax Hlen. unfold accumulate, take_len.
  destruct (currentFieldPos ctx <? currentFieldLength ctx) eqn:Hlt.
  - apply Z.ltb_lt in Hlt. rewrite Z.min_r by lia.
    set (c1 := copied _ _ ctx).
    assert (E : currentFieldPos c1 = currentFieldLength c1).
    { unfold c1. simpl. rewrite Z2Nat.id by lia. rewrite u32_small by lia. lia. }
    rewrite E, Z.eqb_refl. exists c1.
    split; [reflexivity|]. split; [reflexivity|].
    unfold c1. simpl. rewrite length_skipn.
    unfold workBufferLength in Hlen. split; intros; lia.
  - apply Z.ltb_ge in Hlt. assert (E : currentFieldPos ctx = currentFieldLength ctx) by lia.
    rewrite E, Z.eqb_refl. exists ctx.
    split; [reflexivity|]. split; [reflexivity|]. split; intros; lia.
Qed.

(** The field dispatcher and more input: it does the same, or it takes the
    whole input and resumes on the next one, or it faults. *)
Lemma proxy_more b ctx :
  isProcessingField ctx = true ->
  0 <= currentFieldPos ctx <= currentFieldLength ctx ->
  currentFieldLength ctx < 2 ^ 32 ->
  (exists c',
     txStreamParseFieldProxy ctx = Ret TX_STREAM_PROCESSING c' /\
     txStreamParseFieldProxy (more_input b ctx) =
       Ret TX_STREAM_PROCESSING (more_input b c') /\
     isProcessingField c' = false /\
     (field_rank (currentField ctx) < field_rank (currentField c')) /\
     (length (workBuffer c') <= length (workBuffer ctx))%nat) \/
  (exists c',
     txStreamParseFieldProxy ctx = Ret TX_STREAM_PROCESSING c' /\
     workBuffer c' = [] /\
     isProcessingField c' = true /\
     0 <= currentFieldPos c' < currentFieldLength c' /\
     currentFieldLength c' = currentFieldLength ctx /\
     currentFieldPos c' = currentFieldPos ctx + workBufferLength ctx /\
     currentField c' = currentField ctx /\
     txStreamParseFieldProxy (more_input b ctx) =
       txStreamParseFieldProxy (set_workBuffer b c')) \/
  (proxy_faults (txStreamParseFieldProxy ctx) /\
   proxy_faults (txStreamParseFieldProxy (more_input b ctx))).
Proof.
  intros Hp Hpos Hmax.
  assert (Hp' : isProcessingField (more_input b ctx) = true) by exact Hp.
  rewrite (proxy_closed ctx Hp), (proxy_closed (more_input b ctx) Hp').
  change (currentField (more_input b ctx)) with (currentField ctx).
  change (isCurrentFieldList (more_input b ctx)) with (isCurrentFieldList ctx).
  change (currentFieldLength (more_input b ctx)) with (currentFieldLength ctx).
  destruct (field_capacity (currentField ctx)) as [cap|] eqn:Hcap.
  - assert (Hdisp :
      forall (X : tx_stream_context_t -> exc tx_stream_status_e) c,
        match currentField ctx with
        | TX_RLP_NONE | TX_RLP_DONE => Ret TX_STREAM_FAULT c
        | TX_RLP_ENVELOPE => X c
        | _ =>
            match field_capacity (currentField ctx) with
            | Some cap =>
                if isCurrentFieldList ctx then Throw c
                else if negb (currentFieldLength ctx <=? cap) then Throw c
                else Ret TX_STREAM_PROCESSING
                       (accumulate (field_ptr (currentField ctx)) c)
            | None => Ret TX_STREAM_FAULT c
            end
        end =
        if isCurrentFieldList ctx then Throw c
        else if negb (currentFieldLength ctx <=? cap) then Throw c
        else Ret TX_STREAM_PROCESSING
               (accumulate (field_ptr (currentField ctx)) c)).
    { intros X c. rewrite Hcap.
      destruct (currentField ctx); simpl in Hcap; try discriminate Hcap;
        reflexivity. }
    assert (HL : forall c,
      match currentField ctx with
      | TX_RLP_NONE | TX_RLP_DONE => Ret TX_STREAM_FAULT c
      | TX_RLP_ENVELOPE =>
          if isCurrentFieldList c then Ret TX_STREAM_PROCESSING (enveloped c)
          else Throw c
      | f =>
          match field_capacity f with
          | Some cap =>
              if isCurrentFieldList c then Throw c
              else if negb (currentFieldLength c <=? cap) then Throw c
              else Ret TX_STREAM_PROCESSING (accumulate (field_ptr f) c)
          | None => Ret TX_STREAM_FAULT c
          end
      end =
      if isCurrentFieldList c then Throw c
      else if negb (currentFieldLength c <=? cap) then Throw c
      else Ret TX_STREAM_PROCESSING
             (accumulate (field_ptr (currentField ctx)) c)).
    { intros c.
      destruct (currentField ctx); simpl in Hcap; try discriminate Hcap;
        inversion Hcap; subst; reflexivity. }
    clear Hdisp.
    rewrite (HL ctx).
    assert (HLb := HL (more_input b ctx)).
    change (isCurrentFieldList (more_input b ctx)) with (isCurrentFieldList ctx) in HLb.
    change (currentFieldLength (more_input b ctx)) with (currentFieldLength ctx) in HLb.
    rewrite HLb. clear HLb.
    destruct (isCurrentFieldList ctx) eqn:Hlist; [right; right; simpl; auto|].
    destruct (negb (currentFieldLength ctx <=? cap)) eqn:Hfit;
      [right; right; simpl; auto|].
    destruct (Z_le_gt_dec (currentFieldLength ctx - currentFieldPos ctx)
                (workBufferLength ctx)) as [Hfull|Hpart].
    + left. exists (accumulate (field_ptr (currentField ctx)) ctx).
      destruct (accumulate_full_done (field_ptr (currentField ctx)) ctx Hpos Hmax Hfull)
        as (c1 & E1 & E2 & E3 & _).
      split; [reflexivity|].
      split; [rewrite accumulate_full by assumption; reflexivity|].
      rewrite E1. simpl. split; [reflexivity|]. rewrite E2.
      split; [| exact E3].
      destruct (currentField ctx); simpl in Hcap; try discriminate Hcap;
        simpl; lia.
    + right; left.
      destruct (accumulate_partial b (field_ptr (currentField ctx)) ctx)
        as (E1 & E2 & E3 & E4); try lia.
      exists (accumulate (field_ptr (currentField ctx)) ctx).
      split; [reflexivity|].
      split; [exact E2|].
      assert (Hw : 0 <= workBufferLength ctx) by (unfold workBufferLength; lia).
      split; [rewrite E1; reflexivity|].
      assert (Hlen' : currentFieldLength
                        (accumulate (field_ptr (currentField ctx)) ctx) =
                      currentFieldLength ctx) by (rewrite E1; reflexivity).
      split; [rewrite E3, Hlen'; lia|].
      split; [rewrite E1; reflexivity|].
      split; [exact E3|].
      split; [rewrite E1; reflexivity|].
      remember (accumulate (field_ptr (currentField ctx)) ctx) as c' eqn:Hc'.
      assert (Hpc : isProcessingField (set_workBuffer b c') = true)
        by (rewrite E1; reflexivity).
      rewrite (proxy_closed _ Hpc).
      assert (Hf : currentField (set_workBuffer b c') = currentField ctx)
        by (rewrite E1; reflexivity).
      rewrite Hf.
      assert (HLc := HL (set_workBuffer b c')).
      assert (Hl1 : isCurrentFieldList (set_workBuffer b c') = isCurrentFieldList ctx)
        by (rewrite E1; reflexivity).
      assert (Hl2 : currentFieldLength (set_workBuffer b c') = currentFieldLength ctx)
        by (rewrite E1; reflexivity).
      rewrite HLc, Hl1, Hl2, Hlist, Hfit. rewrite E4. reflexivity.
  - destruct (currentField ctx) eqn:Hf; simpl in Hcap; try discriminate Hcap.
    + right; right; simpl; auto.
    + destruct (isCurrentFieldList ctx) eqn:Hlist.
      * left. exists (enveloped ctx).
        split; [reflexivity|]. split; [reflexivity|].
        split; [reflexivity|]. simpl.
        split; [| lia].
        destruct (Z.land (processingFlags ctx) TX_FLAG_TYPE =? 0); simpl; lia.
      * right; right; simpl; auto.
    + right; right; simpl; auto.
Qed.

(** ** One turn of the parse loop and more input *)

Lemma body_in_field ctx :
  currentField ctx <> TX_RLP_DONE ->
  workBuffer ctx <> [] ->
  isProcessingField ctx = true ->
  txStreamParse_body ctx = after_proxy (txStreamParseFieldProxy ctx).
Proof.
  intros Hd Hw Hp. unfold txStreamParse_body.
  apply field_eqb_neq in Hd. apply wbl_nonzero in Hw.
  rewrite Hd, Hw, Hp, andb_false_r. simpl.
  destruct (txStreamParseFieldProxy ctx) as [[] c|c]; reflexivity.
Qed.

Lemma body_at_boundary ctx :
  currentField ctx <> TX_RLP_DONE ->
  workBuffer ctx <> [] ->
  isProcessingField ctx = false ->
  txStreamParse_body ctx =
  match txStreamParse_header ctx with
  | Throw c => Throw c
  | Ret (Some s) c => Ret (Some s) c
  | Ret None c => after_proxy (txStreamParseFieldProxy c)
  end.
Proof.
  intros Hd Hw Hp. unfold txStreamParse_body.
  apply field_eqb_neq in Hd. apply wbl_nonzero in Hw.
  rewrite Hd, Hw, Hp, andb_false_r. simpl.
  destruct (txStreamParse_header ctx) as [[s|] c|c]; reflexivity.
Qed.

Lemma body_at_end ctx :
  currentField ctx <> TX_RLP_DONE ->
  workBuffer ctx = [] ->
  txStreamParse_body ctx =
  if field_eqb (currentField ctx) TX_RLP_V
  then Ret (Some TX_STREAM_FINISHED) (clear_v ctx)
  else Ret (Some TX_STREAM_PROCESSING) ctx.
Proof.
  intros Hd Hw. unfold txStreamParse_body.
  apply field_eqb_neq in Hd. apply wbl_zero in Hw.
  rewrite Hd, Hw, andb_true_r. reflexivity.
Qed.

Lemma body_done ctx :
  currentField ctx = TX_RLP_DONE ->
  txStreamParse_body ctx = Ret (Some TX_STREAM_FINISHED) ctx.
Proof.
  intros Hd. unfold txStreamParse_body.
  apply field_eqb_eq in Hd. rewrite Hd. reflexivity.
Qed.

Lemma u32_range z : 0 <= u32 z < 2 ^ 32.
Proof. unfold u32. apply Z.mod_pos_bound. lia. Qed.

Lemma hash_bytes_app h a b :
  hash_bytes h (a ++ b) = hash_bytes (hash_bytes h a) b.
Proof. unfold hash_bytes. apply fold_left_app. Qed.

(** The header block and more input. *)
Lemma header_more b ctx :
  isProcessingField ctx = false ->
  match txStreamParse_header ctx with
  | Ret None h =>
      txStreamParse_header (more_input b ctx) = Ret None (more_input b h) /\
      isProcessingField h = true /\ currentFieldPos h = 0 /\
      0 <= currentFieldLength h < 2 ^ 32 /\
      currentField h = currentField ctx /\
      (length (workBuffer h) <= length (workBuffer ctx))%nat /\
      (isFieldSingleByte h = false ->
       (length (workBuffer h) < length (workBuffer ctx))%nat)
  | Ret (Some TX_STREAM_PROCESSING) d =>
      workBuffer d = [] /\ isProcessingField d = false /\
      currentField d = currentField ctx /\
      txStreamParse_header (more_input b ctx) =
      txStreamParse_header (set_workBuffer b d)
  | Ret (Some TX_STREAM_FAULT) d =>
      txStreamParse_header (more_input b ctx) =
      Ret (Some TX_STREAM_FAULT) (more_input b d)
  | Ret (Some TX_STREAM_FINISHED) _ => False
  | Throw _ => False
  end.
Proof.
  intros Hp.
  assert (Hp' : isProcessingField (more_input b ctx) = false) by exact Hp.
  rewrite (header_scan ctx Hp), (header_scan (more_input b ctx) Hp').
  change (rlpBuffer (more_input b ctx)) with (rlpBuffer ctx).
  change (workBuffer (more_input b ctx)) with (workBuffer ctx ++ b).
  destruct (scan (rlpBuffer ctx) (workBuffer ctx)) as [[r consumed] rest] eqn:Hs.
  destruct (scan_verdict _ _ _ _ _ Hs) as [[Hr Hrest]|[[Hr Hne]|Hr]]; subst r.
  - (* the input ends before a verdict *)
    subst rest. cbv zeta.
    split; [reflexivity|]. split; [exact Hp|]. split; [reflexivity|].
    rewrite (scan_app_exhausted b _ _ _ _ Hs).
    assert (Hp2 : isProcessingField
                    (set_workBuffer b (detected consumed [] ctx)) = false)
      by exact Hp.
    rewrite (header_scan _ Hp2).
    change (rlpBuffer (set_workBuffer b (detected consumed [] ctx)))
      with (rlpBuffer ctx ++ consumed).
    change (workBuffer (set_workBuffer b (detected consumed [] ctx))) with b.
    destruct (scan (rlpBuffer ctx ++ consumed) b) as [[r' c'] rest'].
    assert (Hd : detected (consumed ++ c') rest' (more_input b ctx) =
                 detected c' rest' (set_workBuffer b (detected consumed [] ctx))).
    { unfold detected. simpl. rewrite hash_bytes_app, app_assoc. reflexivity. }
    cbv zeta. rewrite Hd, app_assoc. reflexivity.
  - (* a header has been recognised *)
    rewrite (scan_app_verdict b _ _ _ _ _ Hs) by discriminate.
    cbv zeta.
    change (detected consumed (rest ++ b) (more_input b ctx))
      with (more_input b (detected consumed rest ctx)).
    destruct (rlpDecodeLength (rlpBuffer ctx ++ consumed)) as [[[fl off] li]|];
      [| reflexivity].
    split.
    { unfold begin_field, more_input. simpl.
      destruct (off =? 0); reflexivity. }
    split; [reflexivity|]. split; [reflexivity|].
    split; [apply u32_range|]. split; [reflexivity|].
    apply scan_split in Hs. rewrite Hs, length_app.
    assert (0 < length consumed)%nat by (destruct consumed; simpl; [congruence | lia]).
    simpl. destruct (off =? 0); simpl; split; intros; try lia; discriminate.
  - (* the detector faults *)
    rewrite (scan_app_verdict b _ _ _ _ _ Hs) by discriminate.
    reflexivity.
Qed.

Lemma after_proxy_faults r : proxy_faults r -> body_faults (after_proxy r).
Proof. destruct r as [[] c|c]; simpl; auto. Qed.

Lemma more_input_nonempty b ctx : b <> [] -> workBuffer (more_input b ctx) <> [].
Proof.
  intros Hb. simpl. destruct (workBuffer ctx); simpl; [assumption | discriminate].
Qed.

(** One turn of the loop and more input: the turn does the same and ends a
    field, or it takes the whole input and the next call resumes it, or it
    faults. *)
Lemma body_more b ctx :
  b <> [] ->
  in_field_ok ctx ->
  workBuffer ctx <> [] ->
  currentField ctx <> TX_RLP_DONE ->
  (exists c',
     txStreamParse_body ctx = Ret None c' /\
     txStreamParse_body (more_input b ctx) = Ret None (more_input b c') /\
     isProcessingField c' = false) \/
  (exists r c',
     txStreamParse_body ctx = Ret r c' /\
     (r = None \/ r = Some TX_STREAM_PROCESSING) /\
     workBuffer c' = [] /\ in_field_ok c' /\
     currentField c' = currentField ctx /\
     txStreamParse_body (more_input b ctx) =
     txStreamParse_body (set_workBuffer b c')) \/
  (body_faults (txStreamParse_body ctx) /\
   body_faults (txStreamParse_body (more_input b ctx))).
Proof.
  intros Hb Hok Hw Hd.
  assert (Hwb := more_input_nonempty b ctx Hb).
  destruct (isProcessingField ctx) eqn:Hp.
  - destruct (Hok Hp) as [Hpos Hmax].
    rewrite (body_in_field ctx Hd Hw Hp).
    rewrite (body_in_field (more_input b ctx) Hd Hwb Hp).
    destruct (proxy_more b ctx Hp) as
      [(c' & E1 & E2 & E3 & _)|[(c' & E1 & E2 & E3 & E4 & E5 & E6 & E7 & E8)|[F1 F2]]];
      try lia.
    + left. exists c'. rewrite E1, E2. auto.
    + right; left. exists None, c'. rewrite E1, E8.
      split; [reflexivity|]. split; [auto|]. split; [assumption|].
      split; [intros _; lia|]. split; [assumption|].
      rewrite (body_in_field (set_workBuffer b c')); auto.
      simpl. congruence.
    + right; right. split; apply after_proxy_faults; assumption.
  - rewrite (body_at_boundary ctx Hd Hw Hp).
    rewrite (body_at_boundary (more_input b ctx) Hd Hwb Hp).
    pose proof (header_more b ctx Hp) as Hh.
    destruct (txStreamParse_header ctx) as [[[]|] h|h]; try contradiction.
    + destruct Hh as (E1 & E2 & E3 & E4).
      right; left. exists (Some TX_STREAM_PROCESSING), h.
      split; [reflexivity|]. split; [auto|]. split; [assumption|].
      split; [intros H; congruence|]. split; [assumption|].
      rewrite E4. rewrite (body_at_boundary (set_workBuffer b h)); auto.
      simpl. congruence.
    + right; right. rewrite Hh. simpl. auto.
    + destruct Hh as (E1 & E2 & E3 & E4 & E5 & _).
      rewrite E1.
      destruct (proxy_more b h E2) as
        [(c' & P1 & P2 & P3 & _)|[(c' & P1 & P2 & P3 & P4 & P5 & P6 & P7 & P8)|[F1 F2]]];
        try lia.
      * left. exists c'. rewrite P1, P2. auto.
      * right; left. exists None, c'. rewrite P1, P8.
        split; [reflexivity|]. split; [auto|]. split; [assumption|].
        split; [intros _; lia|]. split; [congruence|].
        rewrite (body_in_field (set_workBuffer b c')); auto.
        simpl. congruence.
      * right; right. split; apply after_proxy_faults; assumption.
Qed.

(** ** The legacy-shape reset of [v.length] does not show in a finished parse *)

Lemma accumulate_clear_v c :
  isProcessingField c = true ->
  accumulate (Some P_v) (clear_v c) =
  if isProcessingField (accumulate (Some P_v) c)
  then clear_v (accumulate (Some P_v) c)
  else accumulate (Some P_v) c.
Proof.
  intros Hp. unfold accumulate, take_len. cbv zeta.
  change (currentFieldPos (clear_v c)) with (currentFieldPos c).
  change (currentFieldLength (clear_v c)) with (currentFieldLength c).
  change (workBufferLength (clear_v c)) with (workBufferLength c).
  destruct (currentFieldPos c <? currentFieldLength c); cbv iota.
  - set (k := Z.to_nat _).
    set (out := option_map (fun p => (p, currentFieldPos c)) (Some P_v)).
    change (currentFieldPos (copied out k (clear_v c)))
      with (currentFieldPos (copied out k c)).
    change (currentFieldLength (copied out k (clear_v c)))
      with (currentFieldLength (copied out k c)).
    destruct (currentFieldPos (copied out k c) =? currentFieldLength (copied out k c));
      simpl; unfold clear_v, completed, copied; simpl;
      destruct (tx c); simpl; reflexivity.
  - change (currentFieldPos (clear_v c)) with (currentFieldPos c).
    change (currentFieldLength (clear_v c)) with (currentFieldLength c).
    destruct (currentFieldPos c =? currentFieldLength c); simpl.
    + unfold clear_v, completed; simpl. destruct (tx c); simpl; reflexivity.
    + rewrite Hp. reflexivity.
Qed.

Lemma proxy_clear_v c :
  currentField c = TX_RLP_V ->
  isProcessingField c = true ->
  match txStreamParseFieldProxy c with
  | Ret s c' =>
      s = TX_STREAM_PROCESSING /\
      ((currentField c' = TX_RLP_V /\
        txStreamParseFieldProxy (clear_v c) = Ret s (clear_v c')) \/
       (currentField c' <> TX_RLP_V /\
        txStreamParseFieldProxy (clear_v c) = Ret s c'))
  | Throw _ => True
  end.
Proof.
  intros Hf Hp.
  assert (Hp' : isProcessingField (clear_v c) = true) by exact Hp.
  rewrite (proxy_closed c Hp), (proxy_closed (clear_v c) Hp').
  change (currentField (clear_v c)) with (currentField c).
  change (isCurrentFieldList (clear_v c)) with (isCurrentFieldList c).
  change (currentFieldLength (clear_v c)) with (currentFieldLength c).
  rewrite Hf. simpl.
  destruct (isCurrentFieldList c); [exact I|].
  destruct (negb (currentFieldLength c <=? TX_MAX_INT256_LENGTH)); [exact I|].
  split; [reflexivity|].
  rewrite (accumulate_clear_v c Hp).
  unfold accumulate.
  destruct (currentFieldPos c <? currentFieldLength c);
    match goal with
    | |- context [if ?x =? ?y then _ else _] => destruct (x =? y)
    end; simpl; rewrite ?Hf, ?Hp; simpl;
    try (left; split; [reflexivity | reflexivity]);
    try (right; split; [discriminate | reflexivity]).
Qed.

Lemma header_clear_v c :
  isProcessingField c = false ->
  txStreamParse_header (clear_v c) =
  match txStreamParse_header c with
  | Ret s h => Ret s (clear_v h)
  | Throw h => Throw (clear_v h)
  end.
Proof.
  intros Hp.
  assert (Hp' : isProcessingField (clear_v c) = false) by exact Hp.
  rewrite (header_scan c Hp), (header_scan (clear_v c) Hp').
  change (rlpBuffer (clear_v c)) with (rlpBuffer c).
  change (workBuffer (clear_v c)) with (workBuffer c).
  destruct (scan (rlpBuffer c) (workBuffer c)) as [[[st can] consumed] rest].
  cbv zeta.
  destruct st, can; try reflexivity;
    destruct (rlpDecodeLength (rlpBuffer c ++ consumed)) as [[[fl off] li]|];
    reflexivity.
Qed.

Lemma header_keeps_field c :
  isProcessingField c = false ->
  currentField (ctx_of (txStreamParse_header c)) = currentField c /\
  tx (ctx_of (txStreamParse_header c)) = tx c /\
  processingFlags (ctx_of (txStreamParse_header c)) = processingFlags c /\
  (forall h, txStreamParse_header c = Ret None h -> isProcessingField h = true).
Proof.
  intros Hp. rewrite (header_scan c Hp).
  destruct (scan (rlpBuffer c) (workBuffer c)) as [[[st can] consumed] rest].
  cbv zeta.
  destruct st, can; simpl; try (repeat split; intros; congruence);
    destruct (rlpDecodeLength (rlpBuffer c ++ consumed)) as [[[fl off] li]|];
    simpl; repeat split; intros h E; inversion E; reflexivity.
Qed.

(** One turn of the loop from a context at the V field, with and without
    the reset. *)
Lemma body_clear_v c :
  currentField c = TX_RLP_V ->
  match txStreamParse_body c with
  | Ret None c' =>
      (currentField c' = TX_RLP_V /\
       txStreamParse_body (clear_v c) = Ret None (clear_v c')) \/
      (currentField c' <> TX_RLP_V /\
       txStreamParse_body (clear_v c) = Ret None c')
  | Ret (Some TX_STREAM_FINISHED) c' =>
      txStreamParse_body (clear_v c) = Ret (Some TX_STREAM_FINISHED) c'
  | _ => True
  end.
Proof.
  intros Hf.
  assert (Hd : currentField c <> TX_RLP_DONE) by (rewrite Hf; discriminate).
  destruct (workBuffer c) as [|x wb] eqn:Hw.
  - rewrite (body_at_end c Hd Hw), (body_at_end (clear_v c) Hd Hw).
    change (currentField (clear_v c)) with (currentField c).
    rewrite Hf. simpl.
    unfold clear_v. simpl. destruct (tx c); simpl; reflexivity.
  - assert (Hne : workBuffer c <> []) by (rewrite Hw; discriminate).
    destruct (isProcessingField c) eqn:Hp.
    + rewrite (body_in_field c Hd Hne Hp), (body_in_field (clear_v c) Hd Hne Hp).
      pose proof (proxy_clear_v c Hf Hp) as H.
      destruct (txStreamParseFieldProxy c) as [s c'|c']; [| exact I].
      destruct H as [-> [[E1 E2]|[E1 E2]]]; rewrite E2; simpl; auto.
    + rewrite (body_at_boundary c Hd Hne Hp), (body_at_boundary (clear_v c) Hd Hne Hp).
      rewrite (header_clear_v c Hp).
      destruct (header_keeps_field c Hp) as (K1 & _ & _ & K2).
      destruct (txStreamParse_header c) as [[s|] h|h] eqn:Hh.
      * destruct s; try exact I.
        exfalso. pose proof (header_more [] c Hp) as Hm. rewrite Hh in Hm.
        exact Hm.
      * simpl in K1. specialize (K2 h eq_refl).
        pose proof (proxy_clear_v h (eq_trans K1 Hf) K2) as H.
        destruct (txStreamParseFieldProxy h) as [s c'|c']; [| exact I].
        destruct H as [-> [[E1 E2]|[E1 E2]]]; rewrite E2; simpl; auto.
      * exact I.
Qed.

(** ** What one turn of the loop leaves alone *)

Lemma field_rank_succ f : field_rank f <= field_rank (field_succ f).
Proof. destruct f; simpl; lia. Qed.

Lemma field_succ_not_none f : field_succ f <> TX_RLP_NONE.
Proof. destruct f; discriminate. Qed.

Lemma field_ptr_field f p : field_ptr f = Some p -> ptr_field p = f.
Proof. destruct f; simpl; intros E; inversion E; reflexivity. Qed.

Lemma frame_refl ctx : frame ctx ctx.
Proof. unfold frame. repeat split; auto; lia. Qed.

Lemma frame_accumulate ctx :
  frame ctx (accumulate (field_ptr (currentField ctx)) ctx).
Proof.
  assert (Hq : forall q t s, currentField ctx <> ptr_field q ->
    deref (match field_ptr (currentField ctx) with
           | Some p => assign t p (s p)
           | None => t
           end) q = deref t q).
  { intros q t s Hq.
    destruct (field_ptr (currentField ctx)) as [p|] eqn:Hp; [| reflexivity].
    apply deref_assign_other. apply field_ptr_field in Hp. congruence. }
  unfold frame, accumulate.
  destruct (currentFieldPos ctx <? currentFieldLength ctx);
    match goal with
    | |- context [if ?x =? ?y then _ else _] => destruct (x =? y)
    end; simpl;
    (split; [reflexivity|]);
    (split; [try apply field_rank_succ; lia|]);
    (split; [try (intros _; apply field_succ_not_none); auto|]);
    intros q Hne.
  - rewrite (Hq q _ (fun p => set_flength _ _) Hne).
    destruct (field_ptr (currentField ctx)) as [p|] eqn:Hp; [| reflexivity].
    simpl. apply deref_assign_other. apply field_ptr_field in Hp. congruence.
  - destruct (field_ptr (currentField ctx)) as [p|] eqn:Hp; [| reflexivity].
    simpl. apply deref_assign_other. apply field_ptr_field in Hp. congruence.
  - apply (Hq q _ (fun p => set_flength _ _) Hne).
  - reflexivity.
Qed.

Lemma frame_proxy ctx :
  isProcessingField ctx = true ->
  frame ctx (ctx_of (txStreamParseFieldProxy ctx)).
Proof.
  intros Hp. rewrite (proxy_closed ctx Hp).
  pose proof (frame_accumulate ctx) as Ha.
  destruct (currentField ctx) eqn:Hf; simpl;
    try apply frame_refl;
    try (destruct (isCurrentFieldList ctx); [apply frame_refl|];
         match goal with
         | |- context [if ?b then _ else _] => destruct b
         end; [apply frame_refl | exact Ha]).
  destruct (isCurrentFieldList ctx); [| apply frame_refl].
  unfold frame. simpl. rewrite Hf.
  split; [reflexivity|].
  split; [destruct (Z.land (processingFlags ctx) TX_FLAG_TYPE =? 0); simpl; lia|].
  split; [destruct (Z.land (processingFlags ctx) TX_FLAG_TYPE =? 0); discriminate|].
  reflexivity.
Qed.

Lemma frame_trans_eq c1 c2 c3 :
  currentField c2 = currentField c1 -> tx c2 = tx c1 ->
  processingFlags c2 = processingFlags c1 ->
  frame c2 c3 -> frame c1 c3.
Proof.
  unfold frame. intros E1 E2 E3. rewrite E1, E2, E3. auto.
Qed.

Lemma frame_body ctx : frame ctx (ctx_of (txStreamParse_body ctx)).
Proof.
  destruct (field_eqb (currentField ctx) TX_RLP_DONE) eqn:Hd.
  { apply field_eqb_eq in Hd. rewrite (body_done ctx Hd). apply frame_refl. }
  apply field_eqb_neq in Hd.
  destruct (workBuffer ctx) as [|x wb] eqn:Hw.
  { rewrite (body_at_end ctx Hd Hw).
    destruct (field_eqb (currentField ctx) TX_RLP_V) eqn:Hv; [| apply frame_refl].
    apply field_eqb_eq in Hv. unfold frame. simpl.
    split; [reflexivity|]. split; [lia|]. split; [auto|].
    intros p Hne. rewrite Hv in Hne.
    destruct p; try reflexivity. exfalso. apply Hne. reflexivity. }
  assert (Hne : workBuffer ctx <> []) by (rewrite Hw; discriminate).
  destruct (isProcessingField ctx) eqn:Hp.
  - rewrite (body_in_field ctx Hd Hne Hp).
    pose proof (frame_proxy ctx Hp) as H.
    destruct (txStreamParseFieldProxy ctx) as [[] c|c]; exact H.
  - rewrite (body_at_boundary ctx Hd Hne Hp).
    destruct (header_keeps_field ctx Hp) as (K1 & K2 & K3 & K4).
    destruct (txStreamParse_header ctx) as [[s|] h|h] eqn:Hh; simpl in *.
    + unfold frame. rewrite K1, K2, K3. repeat split; auto; lia.
    + pose proof (frame_proxy h (K4 h eq_refl)) as H.
      apply (frame_trans_eq ctx h); auto.
      destruct (txStreamParseFieldProxy h) as [[] c|c]; exact H.
    + unfold frame. rewrite K1, K2, K3. repeat split; auto; lia.
Qed.

(** ** Runs of the parse loop *)

Lemma parse_fuel_mono n : forall ctx r m,
  txStreamParse n ctx = Some r -> (n <= m)%nat -> txStreamParse m ctx = Some r.
Proof.
  induction n as [|n IH]; intros ctx r m E Hm; [discriminate E|].
  destruct m as [|m]; [lia|]. simpl in *.
  destruct (txStreamParse_body ctx) as [[s|] c|c]; try assumption.
  apply IH; [assumption | lia].
Qed.

Lemma parses_deterministic ctx r1 r2 : parses ctx r1 -> parses ctx r2 -> r1 = r2.
Proof.
  intros [n1 E1] [n2 E2].
  apply (parse_fuel_mono _ _ _ (Nat.max n1 n2)) in E1; [| lia].
  apply (parse_fuel_mono _ _ _ (Nat.max n1 n2)) in E2; [| lia].
  congruence.
Qed.

Lemma parses_return ctx s c :
  txStreamParse_body ctx = Ret (Some s) c -> parses ctx (Ret s c).
Proof. intros E. exists 1%nat. simpl. rewrite E. reflexivity. Qed.

Lemma parses_step ctx c r :
  txStreamParse_body ctx = Ret None c -> parses c r -> parses ctx r.
Proof. intros E [n H]. exists (S n). simpl. rewrite E. exact H. Qed.

Lemma parses_same_body ctx ctx' r :
  txStreamParse_body ctx = txStreamParse_body ctx' ->
  parses ctx' r -> parses ctx r.
Proof.
  intros E [n H]. exists n. destruct n as [|n]; [discriminate H|].
  simpl in *. rewrite E. exact H.
Qed.

Lemma parse_clear_v n : forall c cF,
  currentField c = TX_RLP_V ->
  txStreamParse n c = Some (Ret TX_STREAM_FINISHED cF) ->
  txStreamParse n (clear_v c) = Some (Ret TX_STREAM_FINISHED cF).
Proof.
  induction n as [|n IH]; intros c cF Hf E; [discriminate E|].
  simpl in *. pose proof (body_clear_v c Hf) as H.
  destruct (txStreamParse_body c) as [[s|] c'|c'].
  - inversion E; subst. rewrite H. reflexivity.
  - destruct H as [[H1 H2]|[H1 H2]]; rewrite H2; auto.
  - discriminate E.
Qed.

(** A call whose input ends where a longer input would go on, followed by a
    call on the rest, finishes as the call on the longer input does. *)
Lemma parse_split b n : forall ctx cF,
  b <> [] ->
  in_field_ok ctx ->
  txStreamParse n (more_input b ctx) = Some (Ret TX_STREAM_FINISHED cF) ->
  workBuffer cF = [] ->
  exists s c1,
    parses ctx (Ret s c1) /\
    s <> TX_STREAM_FAULT /\
    workBuffer c1 = [] /\
    in_field_ok c1 /\
    currentField c1 <> TX_RLP_DONE /\
    (currentField ctx <> TX_RLP_NONE -> currentField c1 <> TX_RLP_NONE) /\
    processingFlags c1 = processingFlags ctx /\
    parses (set_workBuffer b c1) (Ret TX_STREAM_FINISHED cF).
Proof.
  induction n as [|n IH]; intros ctx cF Hb Hok E HcF; [discriminate E|].
  destruct (field_eqb (currentField ctx) TX_RLP_DONE) eqn:Hd.
  { (* the schema is complete: the longer input is not consumed *)
    apply field_eqb_eq in Hd. simpl in E.
    rewrite (body_done (more_input b ctx) Hd) in E. inversion E; subst cF.
    exfalso. exact (more_input_nonempty b ctx Hb HcF). }
  apply field_eqb_neq in Hd.
  destruct (workBuffer ctx) as [|x wb] eqn:Hw.
  { (* the shorter input is exhausted *)
    rewrite (more_input_nil ctx b Hw) in E.
    destruct (field_eqb (currentField ctx) TX_RLP_V) eqn:Hv.
    - exists TX_STREAM_FINISHED, (clear_v ctx).
      split; [apply parses_return; rewrite (body_at_end ctx Hd Hw), Hv; reflexivity|].
      split; [discriminate|]. split; [exact Hw|]. split; [exact Hok|].
      split; [exact Hd|]. split; [auto|]. split; [reflexivity|].
      apply field_eqb_eq in Hv.
      exists (S n). exact (parse_clear_v (S n) (set_workBuffer b ctx) cF Hv E).
    - exists TX_STREAM_PROCESSING, ctx.
      split; [apply parses_return; rewrite (body_at_end ctx Hd Hw), Hv; reflexivity|].
      split; [discriminate|]. split; [exact Hw|]. split; [exact Hok|].
      split; [exact Hd|]. split; [auto|]. split; [reflexivity|].
      exists (S n). exact E. }
  assert (Hne : workBuffer ctx <> []) by (rewrite Hw; discriminate).
  destruct (body_more b ctx Hb Hok Hne Hd) as
    [(c' & B1 & B2 & B3)|[(r & c' & B1 & B2 & B3 & B4 & B5 & B6)|[F1 F2]]].
  - (* the turn ends a field inside the shorter input *)
    simpl in E. rewrite B2 in E.
    destruct (IH c' cF Hb) as (s & c1 & P1 & P2 & P3 & P4 & P5 & P6 & P7 & P8);
      [intros H; congruence | exact E | exact HcF |].
    exists s, c1.
    split; [exact (parses_step _ _ _ B1 P1)|].
    repeat (split; [assumption|]).
    pose proof (frame_body ctx) as (F1 & _ & F3 & _).
    rewrite B1 in F1, F3. simpl in F1, F3.
    split; [auto|].
    split; [congruence | exact P8].
  - (* the shorter input ends inside the turn *)
    assert (Hd' : currentField c' <> TX_RLP_DONE) by congruence.
    assert (E' : txStreamParse (S n) (set_workBuffer b c') =
                 Some (Ret TX_STREAM_FINISHED cF)).
    { simpl. rewrite <- B6. exact E. }
    pose proof (frame_body ctx) as (F1 & _ & F3 & _).
    rewrite B1 in F1, F3. simpl in F1, F3.
    assert (Hend :
      exists s c1,
        parses c' (Ret s c1) /\ s <> TX_STREAM_FAULT /\ workBuffer c1 = [] /\
        in_field_ok c1 /\ currentField c1 = currentField c' /\
        processingFlags c1 = processingFlags c' /\
        parses (set_workBuffer b c1) (Ret TX_STREAM_FINISHED cF)).
    { destruct (field_eqb (currentField c') TX_RLP_V) eqn:Hv.
      - exists TX_STREAM_FINISHED, (clear_v c').
        split; [apply parses_return; rewrite (body_at_end c' Hd' B3), Hv; reflexivity|].
        split; [discriminate|]. split; [exact B3|]. split; [exact B4|].
        split; [reflexivity|]. split; [reflexivity|].
        apply field_eqb_eq in Hv.
        exists (S n). exact (parse_clear_v (S n) (set_workBuffer b c') cF Hv E').
      - exists TX_STREAM_PROCESSING, c'.
        split; [apply parses_return; rewrite (body_at_end c' Hd' B3), Hv; reflexivity|].
        split; [discriminate|]. split; [exact B3|]. split; [exact B4|].
        split; [reflexivity|]. split; [reflexivity|].
        exists (S n). exact E'. }
    destruct B2 as [-> | ->].
    + destruct Hend as (s & c1 & P1 & P2 & P3 & P4 & P5 & P6 & P7).
      exists s, c1.
      split; [exact (parses_step _ _ _ B1 P1)|].
      repeat (split; [assumption|]).
      split; [congruence|]. split; [rewrite P5; auto|].
      split; [congruence | exact P7].
    + exists TX_STREAM_PROCESSING, c'.
      split; [exact (parses_return _ _ _ B1)|].
      split; [discriminate|].
      repeat (split; [assumption|]).
      exists (S n). exact E'.
  - (* a fault *)
    simpl in E. exfalso.
    destruct (txStreamParse_body (more_input b ctx)) as [[[]|] c|c];
      simpl in F2; try contradiction; discriminate E.
Qed.

(** ** The parse loop returns *)

Lemma field_rank_range f : 0 <= field_rank f <= 12.
Proof. destruct f; simpl; lia. Qed.

Lemma body_progress ctx c' :
  in_field_ok ctx ->
  txStreamParse_body ctx = Ret None c' ->
  in_field_ok c' /\ (turns_left c' < turns_left ctx)%nat.
Proof.
  intros Hok E.
  destruct (field_eqb (currentField ctx) TX_RLP_DONE) eqn:Hd.
  { apply field_eqb_eq in Hd. rewrite (body_done ctx Hd) in E. discriminate E. }
  apply field_eqb_neq in Hd.
  destruct (workBuffer ctx) as [|x wb] eqn:Hw.
  { rewrite (body_at_end ctx Hd Hw) in E.
    destruct (field_eqb (currentField ctx) TX_RLP_V); discriminate E. }
  assert (Hne : workBuffer ctx <> []) by (rewrite Hw; discriminate).
  assert (Hlen : (0 < length (workBuffer ctx))%nat) by (rewrite Hw; simpl; lia).
  clear Hw. unfold turns_left.
  pose proof (field_rank_range (currentField ctx)) as Hr.
  pose proof (field_rank_range (currentField c')) as Hr'.
  destruct (isProcessingField ctx) eqn:Hp.
  - destruct (Hok Hp) as [Hpos Hmax].
    rewrite (body_in_field ctx Hd Hne Hp) in E.
    destruct (proxy_more [] ctx Hp) as
      [(c1 & E1 & _ & E3 & E4 & E5)|[(c1 & E1 & E2 & E3 & E4 & E5 & E6 & E7 & _)|[F1 _]]];
      try lia.
    + rewrite E1 in E. inversion E; subst c1.
      split; [intros H; congruence | lia].
    + rewrite E1 in E. inversion E; subst c1.
      split; [intros _; lia|]. rewrite E2, E7. simpl. lia.
    + destruct (txStreamParseFieldProxy ctx) as [[] c|c]; simpl in F1;
        try contradiction; discriminate E.
  - rewrite (body_at_boundary ctx Hd Hne Hp) in E.
    pose proof (header_more [] ctx Hp) as Hh.
    destruct (txStreamParse_header ctx) as [[s|] h|h]; try discriminate E.
    destruct Hh as (_ & H2 & H3 & H4 & H5 & H6 & _).
    destruct (proxy_more [] h H2) as
      [(c1 & E1 & _ & E3 & E4 & E5)|[(c1 & E1 & E2 & E3 & E4 & E5 & E6 & E7 & _)|[F1 _]]];
      try lia.
    + rewrite E1 in E. inversion E; subst c1.
      split; [intros H; congruence|]. rewrite H5 in E4. lia.
    + rewrite E1 in E. inversion E; subst c1.
      split; [intros _; lia|]. rewrite E2, E7, H5. simpl. lia.
    + destruct (txStreamParseFieldProxy h) as [[] c|c]; simpl in F1;
        try contradiction; discriminate E.
Qed.

Lemma parse_terminates n : forall ctx,
  in_field_ok ctx ->
  (turns_left ctx < n)%nat ->
  exists r, txStreamParse n ctx = Some r.
Proof.
  induction n as [|n IH]; intros ctx Hok Hn; [lia|].
  simpl. destruct (txStreamParse_body ctx) as [[s|] c|c] eqn:E; eauto.
  destruct (body_progress ctx c Hok E) as [Hok' Hlt].
  apply IH; [assumption | lia].
Qed.

Lemma parses_fuel ctx r :
  in_field_ok ctx ->
  parses ctx r ->
  txStreamParse (parse_fuel (length (workBuffer ctx))) ctx = Some r.
Proof.
  intros Hok Hr.
  destruct (parse_terminates (parse_fuel (length (workBuffer ctx))) ctx Hok)
    as [r' E].
  { unfold turns_left, parse_fuel.
    pose proof (field_rank_range (currentField ctx)). lia. }
  rewrite E. f_equal.
  apply (parses_deterministic ctx); [exists (parse_fuel (length (workBuffer ctx))) |];
    assumption.
Qed.

(** ** Fragmentation *)

Lemma set_processingFlags_same c :
  set_processingFlags (processingFlags c) c = c.
Proof. destruct c; reflexivity. Qed.

Lemma process_parses ctx buffer flags s c :
  in_field_ok ctx ->
  buffer <> [] ->
  currentField ctx <> TX_RLP_NONE ->
  currentField ctx <> TX_RLP_DONE ->
  parses (set_processingFlags flags (set_workBuffer buffer ctx)) (Ret s c) ->
  txStreamProcess ctx buffer flags = Some (s, c).
Proof.
  intros Hok Hb Hn Hd Hp. unfold txStreamProcess.
  assert (Hlen : (Z.of_nat (length buffer) >? 0) = true).
  { destruct buffer; [congruence|]. simpl length. apply Z.gtb_lt. lia. }
  assert (Hr : (field_rank (currentField ctx) >? field_rank TX_RLP_NONE)
               && (field_rank (currentField ctx) <? field_rank TX_RLP_DONE) = true).
  { destruct (currentField ctx); try reflexivity; congruence. }
  rewrite Hlen, Hr. change (negb true) with false. cbv iota.
  set (c0 := set_processingFlags flags (set_workBuffer buffer ctx)) in *.
  assert (Hok0 : in_field_ok c0) by exact Hok.
  pose proof (parses_fuel c0 (Ret s c) Hok0 Hp) as E.
  change (workBuffer c0) with buffer in E. rewrite E. reflexivity.
Qed.

Lemma process_inv ctx buffer flags s c :
  txStreamProcess ctx buffer flags = Some (s, c) ->
  s <> TX_STREAM_FAULT ->
  buffer <> [] /\ currentField ctx <> TX_RLP_NONE /\
  currentField ctx <> TX_RLP_DONE /\
  txStreamParse (parse_fuel (length buffer))
    (set_processingFlags flags (set_workBuffer buffer ctx)) = Some (Ret s c).
Proof.
  unfold txStreamProcess. intros E Hs.
  destruct (negb (Z.of_nat (length buffer) >? 0)) eqn:Hlen;
    [inversion E; congruence|].
  destruct (negb ((field_rank (currentField ctx) >? field_rank TX_RLP_NONE)
                  && (field_rank (currentField ctx) <? field_rank TX_RLP_DONE)))
    eqn:Hr; [inversion E; congruence|].
  split; [intros ->; discriminate Hlen|].
  split; [intros H; rewrite H in Hr; discriminate Hr|].
  split; [intros H; rewrite H in Hr; discriminate Hr|].
  destruct (txStreamParse _ _) as [[s' c'|c']|]; inversion E; subst; congruence.
Qed.

(** The caller that feeds every fragment ends where the single call on
    the whole stream ends. *)
Lemma feed_all_fragments :
  forall fragments ctx flags cF,
    in_field_ok ctx ->
    fragments <> [] ->
    Forall (fun f => f <> []) fragments ->
    txStreamProcess ctx (concat fragments) flags = Some (TX_STREAM_FINISHED, cF) ->
    workBuffer cF = [] ->
    txStreamFeed ctx fragments flags = Some (TX_STREAM_FINISHED, cF).
Proof.
  induction fragments as [|f rest IH]; intros ctx flags cF Hok Hne Hall E HcF;
    [congruence|].
  inversion Hall as [|? ? Hf Hrest]; subst.
  destruct rest as [|g rest].
  - simpl in *. rewrite app_nil_r in E. rewrite E. reflexivity.
  - set (b := concat (g :: rest)) in *.
    assert (Hb : b <> []).
    { unfold b. simpl. inversion Hrest; subst.
      destruct g; [congruence | discriminate]. }
    change (concat (f :: g :: rest)) with (f ++ b) in E.
    destruct (process_inv _ _ _ _ _ E) as (_ & Hn & Hd & Ep); [discriminate|].
    set (cA := set_processingFlags flags (set_workBuffer f ctx)).
    assert (HokA : in_field_ok cA) by exact Hok.
    destruct (parse_split b _ cA cF Hb HokA Ep HcF)
      as (s & c1 & P1 & P2 & P3 & P4 & P5 & P6 & P7 & P8).
    assert (E1 : txStreamProcess ctx f flags = Some (s, c1))
      by (apply process_parses; assumption).
    assert (E2 : txStreamProcess c1 b flags = Some (TX_STREAM_FINISHED, cF)).
    { apply process_parses; auto.
      simpl in P7. rewrite <- P7.
      change (set_processingFlags (processingFlags c1) (set_workBuffer b c1))
        with (set_workBuffer b (set_processingFlags (processingFlags c1) c1)).
      rewrite set_processingFlags_same. exact P8. }
    assert (IH' := IH c1 flags cF P4 ltac:(discriminate) Hrest E2 HcF).
    change (txStreamFeed ctx (f :: g :: rest) flags) with
      (match txStreamProcess ctx f flags with
       | None => None
       | Some (TX_STREAM_FAULT, c) => Some (TX_STREAM_FAULT, c)
       | Some (_, c) => txStreamFeed c (g :: rest) flags
       end).
    rewrite E1. destruct s; try exact IH'. congruence.
Qed.

(** ** Faults *)

(** C9.  A call with an empty buffer, or on a context whose current field is
    the not-started or the done sentinel, returns [TX_STREAM_FAULT] and
    leaves the context as it was: no input is taken and the parse has not
    moved. *)
Theorem precondition_fault :
  forall ctx buffer flags,
    buffer = [] \/ currentField ctx = TX_RLP_NONE \/
    currentField ctx = TX_RLP_DONE ->
    txStreamProcess ctx buffer flags = Some (TX_STREAM_FAULT, ctx).
Proof.
  intros ctx buffer flags [-> | [H | H]]; unfold txStreamProcess.
  - reflexivity.
  - rewrite H. destruct (negb (Z.of_nat (length buffer) >? 0)); reflexivity.
  - rewrite H. destruct (negb (Z.of_nat (length buffer) >? 0)); reflexivity.
Qed.

(** A fault in the first turn of the loop is the fault of the call. *)
Lemma process_first_turn_throws ctx buffer flags h :
  buffer <> [] ->
  currentField ctx <> TX_RLP_NONE ->
  currentField ctx <> TX_RLP_DONE ->
  txStreamParse_body (set_processingFlags flags (set_workBuffer buffer ctx)) =
    Throw h \/
  txStreamParse_body (set_processingFlags flags (set_workBuffer buffer ctx)) =
    Ret (Some TX_STREAM_FAULT) h ->
  txStreamProcess ctx buffer flags = Some (TX_STREAM_FAULT, h).
Proof.
  intros Hb Hn Hd E. unfold txStreamProcess.
  assert (Hlen : (Z.of_nat (length buffer) >? 0) = true).
  { destruct buffer; [congruence|]. simpl length. apply Z.gtb_lt. lia. }
  assert (Hr : (field_rank (currentField ctx) >? field_rank TX_RLP_NONE)
               && (field_rank (currentField ctx) <? field_rank TX_RLP_DONE) = true).
  { destruct (currentField ctx); try reflexivity; congruence. }
  rewrite Hlen, Hr. change (negb true) with false. cbv iota.
  unfold parse_fuel. rewrite Nat.add_succ_r.
  cbn [txStreamParse]. destruct E as [E | E]; rewrite E; reflexivity.
Qed.


(** C5.  When the header block decodes, for a scalar field, a declared
    length above the capacity bound that the dispatcher passes for that
    field, the parse loop leaves with an exception from the context right
    after the header ([h]): no payload byte has been taken from the input,
    hashed or stored.  The call in which this happens in the first turn
    returns [TX_STREAM_FAULT] with that same context. *)
Theorem capacity_fault :
  forall ctx h cap,
    isProcessingField ctx = false ->
    workBuffer ctx <> [] ->
    field_capacity (currentField ctx) = Some cap ->
    txStreamParse_header ctx = Ret None h ->
    cap < currentFieldLength h ->
    txStreamParseFieldProxy h = Throw h /\
    tx h = tx ctx /\
    (forall n, txStreamParse (S n) ctx = Some (Throw h)) /\
    (forall c buffer flags,
        ctx = set_processingFlags flags (set_workBuffer buffer c) ->
        txStreamProcess c buffer flags = Some (TX_STREAM_FAULT, h)).
Proof.
  intros ctx h cap Hp Hw Hcap Hh Hlt.
  destruct (header_keeps_field ctx Hp) as (K1 & K2 & _ & K4).
  rewrite Hh in K1, K2. simpl in K1, K2. specialize (K4 h Hh).
  assert (Hd : currentField ctx <> TX_RLP_DONE)
    by (intros H; rewrite H in Hcap; discriminate Hcap).
  assert (Hn : currentField ctx <> TX_RLP_NONE)
    by (intros H; rewrite H in Hcap; discriminate Hcap).
  assert (Hpx : txStreamParseFieldProxy h = Throw h).
  { rewrite (proxy_closed h K4), K1.
    assert (Hfit : negb (currentFieldLength h <=? cap) = true)
      by (apply negb_true_iff, Z.leb_gt; exact Hlt).
    destruct (currentField ctx); simpl in Hcap; try discriminate Hcap;
      inversion Hcap; subst; simpl; rewrite Hfit;
      destruct (isCurrentFieldList h); reflexivity. }
  assert (Hbody : txStreamParse_body ctx = Throw h).
  { rewrite (body_at_boundary ctx Hd Hw Hp), Hh, Hpx. reflexivity. }
  split; [exact Hpx|]. split; [exact K2|].
  split.
  - intros n. simpl. rewrite Hbody. reflexivity.
  - intros c buffer flags ->.
    apply process_first_turn_throws;
      [exact Hw | exact Hn | exact Hd | left; exact Hbody].
Qed.

Lemma scan_skip k : forall input scratch,
  (k <= length input)%nat ->
  (forall j, (j < k)%nat ->
             Z.of_nat (length scratch) + Z.of_nat j <> RLP_LENGTH_BUFFER_SIZE) ->
  undecodable scratch input k ->
  scan scratch input =
  let '(r, c, rest) := scan (scratch ++ firstn k input) (skipn k input) in
  (r, firstn k input ++ c, rest).
Proof.
  induction k as [|k IH]; intros input scratch Hk Hsize Hund.
  - simpl. rewrite app_nil_r. destruct (scan scratch input) as [[r c] rest].
    reflexivity.
  - destruct input as [|x input]; [simpl in Hk; lia|].
    simpl scan at 1.
    destruct (Z.eqb_spec (Z.of_nat (length scratch)) RLP_LENGTH_BUFFER_SIZE) as [E|_].
    { exfalso. apply (Hsize O); lia. }
    pose proof (Hund 1%nat ltac:(lia)) as H1. simpl in H1.
    destruct (rlpCanDecode (scratch ++ [x])) as [can isValid]. simpl in H1.
    subst can.
    rewrite (IH input (scratch ++ [x])).
    + simpl firstn. simpl skipn. rewrite <- app_assoc. simpl.
      destruct (scan (scratch ++ x :: firstn k input) (skipn k input))
        as [[r c] rest]. reflexivity.
    + simpl in Hk. lia.
    + intros j Hj. rewrite length_app. simpl.
      specialize (Hsize (S j) ltac:(lia)). lia.
    + intros j Hj. rewrite <- app_assoc. simpl.
      exact (Hund (S j) ltac:(lia)).
Qed.

Lemma firstn_skipn_cons (k : nat) (input : list byte) :
  (k < length input)%nat ->
  exists x, skipn k input = x :: skipn (S k) input /\
            firstn (S k) input = firstn k input ++ [x].
Proof.
  revert input. induction k as [|k IH]; intros [|y input] Hk; simpl in Hk;
    try lia.
  - exists y. split; reflexivity.
  - destruct (IH input ltac:(lia)) as (x & E1 & E2).
    exists x. split; [exact E1|].
    change (firstn (S (S k)) (y :: input)) with (y :: firstn (S k) input).
    rewrite E2. reflexivity.
Qed.

(** C7.  A call at a field boundary returns [TX_STREAM_FAULT] when the
    scratch buffer holds [RLP_LENGTH_BUFFER_SIZE] bytes, none of which made
    the header decodable, and a further byte of input is to be read; when
    the primitive reports the accumulated header bytes ill-formed; and when
    the primitive reports them decodable and then fails to decode them. *)
Theorem scratch_fault :
  forall ctx buffer flags k,
    isProcessingField ctx = false ->
    currentField ctx <> TX_RLP_NONE ->
    currentField ctx <> TX_RLP_DONE ->
    (k < length buffer)%nat ->
    undecodable (rlpBuffer ctx) buffer k ->
    (forall j, (j < k)%nat ->
               rlpBufferPos ctx + Z.of_nat j <> RLP_LENGTH_BUFFER_SIZE) ->
    rlpBufferPos ctx + Z.of_nat k = RLP_LENGTH_BUFFER_SIZE \/
    (rlpBufferPos ctx + Z.of_nat k <> RLP_LENGTH_BUFFER_SIZE /\
     rlpCanDecode (rlpBuffer ctx ++ firstn (S k) buffer) = (true, false)) \/
    (rlpBufferPos ctx + Z.of_nat k <> RLP_LENGTH_BUFFER_SIZE /\
     rlpCanDecode (rlpBuffer ctx ++ firstn (S k) buffer) = (true, true) /\
     rlpDecodeLength (rlpBuffer ctx ++ firstn (S k) buffer) = None) ->
    exists c', txStreamProcess ctx buffer flags = Some (TX_STREAM_FAULT, c').
Proof.
  intros ctx buffer flags k Hp Hn Hd Hk Hund Hsize Hcase.
  assert (Hb : buffer <> []) by (intros ->; simpl in Hk; lia).
  set (c0 := set_processingFlags flags (set_workBuffer buffer ctx)).
  assert (Hp0 : isProcessingField c0 = false) by exact Hp.
  assert (Hd0 : currentField c0 <> TX_RLP_DONE) by exact Hd.
  assert (Hw0 : workBuffer c0 <> []) by exact Hb.
  assert (Hbody : exists c',
            txStreamParse_body c0 = Ret (Some TX_STREAM_FAULT) c').
  { rewrite (body_at_boundary c0 Hd0 Hw0 Hp0), (header_scan c0 Hp0).
    change (rlpBuffer c0) with (rlpBuffer ctx).
    change (workBuffer c0) with buffer.
    rewrite (scan_skip k buffer (rlpBuffer ctx)); [| lia | exact Hsize | exact Hund].
    destruct (firstn_skipn_cons k buffer Hk) as (x & E1 & E2).
    rewrite E1. simpl scan. unfold rlpBufferPos in Hcase.
    rewrite length_app, length_firstn, Nat.min_l by lia.
    rewrite Nat2Z.inj_add.
    destruct Hcase as [H | [[H1 H2] | [H1 [H2 H3]]]].
    - apply Z.eqb_eq in H. rewrite H. eexists. reflexivity.
    - apply Z.eqb_neq in H1. rewrite H1.
      rewrite <- app_assoc, <- E2, H2. simpl. eexists. reflexivity.
    - apply Z.eqb_neq in H1. rewrite H1.
      rewrite <- app_assoc, <- E2, H2. simpl.
      rewrite <- E2, H3. eexists. reflexivity. }
  destruct Hbody as [c' Hbody]. exists c'.
  apply process_first_turn_throws; auto.
Qed.

(** ** The legacy shape *)

Lemma header_result ctx :
  isProcessingField ctx = false ->
  workBuffer ctx <> [] ->
  match txStreamParse_header ctx with
  | Ret (Some _) d => rlpBuffer d <> [] \/ workBuffer d <> []
  | Ret None h => isProcessingField h = true
  | Throw _ => False
  end.
Proof.
  intros Hp Hw. rewrite (header_scan ctx Hp).
  destruct (scan (rlpBuffer ctx) (workBuffer ctx)) as [[r consumed] rest] eqn:Hs.
  pose proof (scan_split _ _ _ _ _ Hs) as Hsplit.
  assert (Hd : rlpBuffer (detected consumed rest ctx) <> [] \/
               workBuffer (detected consumed rest ctx) <> []).
  { simpl. destruct consumed as [|x consumed].
    - right. simpl in Hsplit. congruence.
    - left. destruct (rlpBuffer ctx); discriminate. }
  cbv zeta. destruct r as [[] []]; try exact Hd;
    destruct (rlpDecodeLength (rlpBuffer ctx ++ consumed)) as [[[fl off] li]|];
    try exact Hd; reflexivity.
Qed.

Lemma body_return_at_v ctx s c' :
  txStreamParse_body ctx = Ret (Some s) c' \/ txStreamParse_body ctx = Throw c' ->
  at_v_boundary c' ->
  txStreamParse_body ctx = Ret (Some TX_STREAM_FINISHED) c' /\
  flength (v (tx c')) = 0.
Proof.
  intros E (A1 & A2 & A3 & A4).
  destruct (field_eqb (currentField ctx) TX_RLP_DONE) eqn:Hd.
  { apply field_eqb_eq in Hd. rewrite (body_done ctx Hd) in E.
    destruct E as [E | E]; inversion E; subst. congruence. }
  apply field_eqb_neq in Hd.
  destruct (workBuffer ctx) as [|x wb] eqn:Hw.
  { rewrite (body_at_end ctx Hd Hw) in *.
    destruct (field_eqb (currentField ctx) TX_RLP_V) eqn:Hv;
      destruct E as [E | E]; inversion E; subst.
    - split; reflexivity.
    - apply field_eqb_neq in Hv. congruence. }
  assert (Hne : workBuffer ctx <> []) by (rewrite Hw; discriminate).
  exfalso.
  assert (Hpx : forall h, isProcessingField h = true ->
            after_proxy (txStreamParseFieldProxy h) = Ret (Some s) c' \/
            after_proxy (txStreamParseFieldProxy h) = Throw c' -> False).
  { intros h Hh. rewrite (proxy_closed h Hh).
    destruct (currentField h); simpl;
      repeat match goal with
             | |- context [if ?b then _ else _] => destruct b
             end; simpl; intros [H | H]; inversion H; subst; congruence. }
  destruct (isProcessingField ctx) eqn:Hp.
  - rewrite (body_in_field ctx Hd Hne Hp) in E. exact (Hpx ctx Hp E).
  - rewrite (body_at_boundary ctx Hd Hne Hp) in E.
    pose proof (header_result ctx Hp Hne) as Hh.
    destruct (txStreamParse_header ctx) as [[s'|] h|h].
    + destruct E as [E | E]; inversion E; subst. destruct Hh; congruence.
    + exact (Hpx h Hh E).
    + contradiction.
Qed.

Lemma parse_at_v n : forall ctx s c',
  txStreamParse n ctx = Some (Ret s c') \/ txStreamParse n ctx = Some (Throw c') ->
  at_v_boundary c' ->
  txStreamParse n ctx = Some (Ret TX_STREAM_FINISHED c') /\
  flength (v (tx c')) = 0.
Proof.
  induction n as [|n IH]; intros ctx s c' E Hv.
  - destruct E as [E | E]; discriminate E.
  - simpl in *. destruct (txStreamParse_body ctx) as [[s0|] c|c] eqn:Hb.
    + destruct (body_return_at_v ctx s0 c') as [B1 B2]; auto.
      * destruct E as [E | E]; inversion E; subst. left. exact Hb.
      * rewrite Hb in B1. inversion B1; subst. split; [reflexivity | exact B2].
    + eapply IH; eassumption.
    + destruct (body_return_at_v ctx s c') as [B1 B2]; auto.
      * destruct E as [E | E]; inversion E; subst. right. exact Hb.
      * rewrite Hb in B1. discriminate B1.
Qed.

(** C4.  Whenever a call has taken all of its input and leaves the parser
    exactly at the boundary before the V field, it returns
    [TX_STREAM_FINISHED] with [v.length] equal to 0. *)
Theorem legacy_shape_finished :
  forall ctx buffer flags s c',
    buffer <> [] ->
    txStreamProcess ctx buffer flags = Some (s, c') ->
    at_v_boundary c' ->
    s = TX_STREAM_FINISHED /\ flength (v (tx c')) = 0.
Proof.
  intros ctx buffer flags s c' Hb E Hv. unfold txStreamProcess in E.
  assert (Hlen : (Z.of_nat (length buffer) >? 0) = true).
  { destruct buffer; [congruence|]. simpl length. apply Z.gtb_lt. lia. }
  rewrite Hlen in E. change (negb true) with false in E. cbv iota in E.
  destruct (negb ((field_rank (currentField ctx) >? field_rank TX_RLP_NONE)
                  && (field_rank (currentField ctx) <? field_rank TX_RLP_DONE)))
    eqn:Hr.
  { inversion E; subst. destruct Hv as [Hv _]. rewrite Hv in Hr.
    discriminate Hr. }
  destruct (txStreamParse (parse_fuel (length buffer))
              (set_processingFlags flags (set_workBuffer buffer ctx)))
    as [[s0 c0|c0]|] eqn:Hparse; inversion E; subst.
  - destruct (parse_at_v _ _ s c' (or_introl Hparse) Hv) as [P1 P2].
    rewrite Hparse in P1. inversion P1; subst. split; [reflexivity | exact P2].
  - destruct (parse_at_v _ _ TX_STREAM_FAULT c' (or_intror Hparse) Hv) as [P1 P2].
    rewrite Hparse in P1. discriminate P1.
Qed.

(** ** The destination record *)

Lemma parse_frame n : forall ctx r,
  txStreamParse n ctx = Some r ->
  field_rank (currentField ctx) <= field_rank (currentField (ctx_of r)) /\
  forall p,
    ~ (field_rank (currentField ctx) <= field_rank (ptr_field p)
       <= field_rank (currentField (ctx_of r))) ->
    deref (tx (ctx_of r)) p = deref (tx ctx) p.
Proof.
  induction n as [|n IH]; intros ctx r E; [discriminate E|].
  simpl in E. pose proof (frame_body ctx) as (_ & F2 & _ & F4).
  assert (Hret : forall c, ctx_of (txStreamParse_body ctx) = c ->
            field_rank (currentField ctx) <= field_rank (currentField c) /\
            forall p,
              ~ (field_rank (currentField ctx) <= field_rank (ptr_field p)
                 <= field_rank (currentField c)) ->
              deref (tx c) p = deref (tx ctx) p).
  { intros c <-. split; [exact F2|]. intros p Hp. apply F4.
    intros Heq. apply Hp. rewrite <- Heq. lia. }
  destruct (txStreamParse_body ctx) as [[s|] c|c] eqn:Hb.
  - inversion E; subst. apply Hret. reflexivity.
  - destruct (IH c r E) as [I1 I2]. simpl in F2, F4.
    split; [lia|]. intros p Hp.
    rewrite I2 by lia. apply F4.
    intros Heq. apply Hp. rewrite <- Heq. lia.
  - inversion E; subst. apply Hret. reflexivity.
Qed.

Lemma tx_ext (t t' : transaction_t) :
  (forall p, deref t' p = deref t p) -> t' = t.
Proof.
  intros H. destruct t, t'.
  pose proof (H P_gasPrice). pose proof (H P_startGas). pose proof (H P_value).
  pose proof (H P_recipient). pose proof (H P_v). simpl in *. congruence.
Qed.

(** ** The processing flags *)

Lemma accumulate_set_flags f field c :
  accumulate field (set_processingFlags f c) =
  set_processingFlags f (accumulate field c).
Proof.
  unfold accumulate, take_len. cbv zeta.
  change (currentFieldPos (set_processingFlags f c)) with (currentFieldPos c).
  change (currentFieldLength (set_processingFlags f c)) with (currentFieldLength c).
  destruct (currentFieldPos c <? currentFieldLength c); cbv iota.
  - set (k := Z.to_nat _). set (out := option_map _ field).
    change (currentFieldPos (copied out k (set_processingFlags f c)))
      with (currentFieldPos (copied out k c)).
    change (currentFieldLength (copied out k (set_processingFlags f c)))
      with (currentFieldLength (copied out k c)).
    destruct (currentFieldPos (copied out k c) =? currentFieldLength (copied out k c));
      reflexivity.
  - change (currentFieldPos (set_processingFlags f c)) with (currentFieldPos c).
    change (currentFieldLength (set_processingFlags f c)) with (currentFieldLength c).
    destruct (currentFieldPos c =? currentFieldLength c); reflexivity.
Qed.

Lemma proxy_set_flags f c :
  isProcessingField c = true ->
  currentField c <> TX_RLP_ENVELOPE ->
  txStreamParseFieldProxy (set_processingFlags f c) =
  exc_map (set_processingFlags f) (txStreamParseFieldProxy c).
Proof.
  intros Hp He.
  assert (Hp' : isProcessingField (set_processingFlags f c) = true) by exact Hp.
  rewrite (proxy_closed c Hp), (proxy_closed _ Hp').
  change (currentField (set_processingFlags f c)) with (currentField c).
  change (isCurrentFieldList (set_processingFlags f c)) with (isCurrentFieldList c).
  change (currentFieldLength (set_processingFlags f c)) with (currentFieldLength c).
  destruct (currentField c); try congruence; simpl; try reflexivity;
    destruct (isCurrentFieldList c); try reflexivity;
    match goal with
    | |- context [if ?b then _ else _] => destruct b
    end; try reflexivity; simpl; rewrite accumulate_set_flags; reflexivity.
Qed.

Lemma after_proxy_map g r :
  after_proxy (exc_map g r) = exc_map g (after_proxy r).
Proof. destruct r as [[] c|c]; reflexivity. Qed.

Lemma body_set_flags f c :
  currentField c <> TX_RLP_ENVELOPE ->
  txStreamParse_body (set_processingFlags f c) =
  exc_map (set_processingFlags f) (txStreamParse_body c).
Proof.
  intros He.
  destruct (field_eqb (currentField c) TX_RLP_DONE) eqn:Hd.
  { apply field_eqb_eq in Hd.
    rewrite (body_done c Hd), (body_done (set_processingFlags f c) Hd).
    reflexivity. }
  apply field_eqb_neq in Hd.
  destruct (workBuffer c) as [|x wb] eqn:Hw.
  { rewrite (body_at_end c Hd Hw), (body_at_end (set_processingFlags f c) Hd Hw).
    change (currentField (set_processingFlags f c)) with (currentField c).
    destruct (field_eqb (currentField c) TX_RLP_V); reflexivity. }
  assert (Hne : workBuffer c <> []) by (rewrite Hw; discriminate).
  destruct (isProcessingField c) eqn:Hp.
  - rewrite (body_in_field c Hd Hne Hp).
    rewrite (body_in_field (set_processingFlags f c) Hd Hne Hp).
    rewrite (proxy_set_flags f c Hp He). apply after_proxy_map.
  - rewrite (body_at_boundary c Hd Hne Hp).
    rewrite (body_at_boundary (set_processingFlags f c) Hd Hne Hp).
    assert (Hh : txStreamParse_header (set_processingFlags f c) =
                 exc_map (set_processingFlags f) (txStreamParse_header c)).
    { assert (Hp' : isProcessingField (set_processingFlags f c) = false)
        by exact Hp.
      rewrite (header_scan c Hp), (header_scan _ Hp').
      change (rlpBuffer (set_processingFlags f c)) with (rlpBuffer c).
      change (workBuffer (set_processingFlags f c)) with (workBuffer c).
      destruct (scan (rlpBuffer c) (workBuffer c)) as [[[st can] consumed] rest].
      cbv zeta.
      destruct st, can; try reflexivity;
        destruct (rlpDecodeLength (rlpBuffer c ++ consumed)) as [[[fl off] li]|];
        reflexivity. }
    rewrite Hh.
    destruct (header_keeps_field c Hp) as (K1 & _ & _ & K4).
    destruct (txStreamParse_header c) as [[s|] h|h]; try reflexivity.
    simpl in K1. simpl exc_map. cbv iota.
    rewrite (proxy_set_flags f h (K4 h eq_refl)) by congruence.
    apply after_proxy_map.
Qed.

Lemma parse_set_flags f n : forall c,
  1 < field_rank (currentField c) ->
  txStreamParse n (set_processingFlags f c) =
  option_map (exc_map (set_processingFlags f)) (txStreamParse n c).
Proof.
  induction n as [|n IH]; intros c Hr; [reflexivity|].
  simpl. rewrite (body_set_flags f c) by (intros H; rewrite H in Hr; simpl in Hr; lia).
  pose proof (frame_body c) as (_ & F2 & _).
  destruct (txStreamParse_body c) as [[s|] c'|c']; try reflexivity.
  simpl in *. apply IH. lia.
Qed.

(** Once the parse is past the envelope, the flags passed to a call change
    nothing but the flags field of the context. *)
Lemma flags_after_envelope :
  forall ctx buffer flags1 flags2,
    currentField ctx <> TX_RLP_ENVELOPE ->
    option_map (fun r => (fst r, forget_flags (snd r)))
      (txStreamProcess ctx buffer flags1) =
    option_map (fun r => (fst r, forget_flags (snd r)))
      (txStreamProcess ctx buffer flags2).
Proof.
  intros ctx buffer flags1 flags2 He. unfold txStreamProcess.
  destruct (negb (Z.of_nat (length buffer) >? 0)); [reflexivity|].
  destruct (negb ((field_rank (currentField ctx) >? field_rank TX_RLP_NONE)
                  && (field_rank (currentField ctx) <? field_rank TX_RLP_DONE)))
    eqn:Hr; [reflexivity|].
  assert (Hrank : 1 < field_rank (currentField ctx)).
  { destruct (currentField ctx); simpl in *; try lia; try discriminate Hr.
    congruence. }
  rewrite (parse_set_flags flags1), (parse_set_flags flags2) by exact Hrank.
  destruct (txStreamParse _ (set_workBuffer buffer ctx)) as [[s c|c]|];
    reflexivity.
Qed.

(** ** Self-encoded single bytes *)


(** ** The hash feeder *)

Lemma hash_bytes_eq l : forall h, hash_bytes h l = cx_hash h l.
Proof.
  induction l as [|x l IH]; intros h.
  - symmetry. apply cx_hash_nil.
  - change (hash_bytes h (x :: l)) with (hash_bytes (cx_hash h [x]) l).
    rewrite IH. change (x :: l) with ([x] ++ l). rewrite cx_hash_app. reflexivity.
Qed.

Lemma accumulate_consumes field c :
  isProcessingField c = true ->
  0 <= currentFieldPos c <= currentFieldLength c ->
  currentFieldLength c < 2 ^ 32 ->
  let k := Z.to_nat (Z.min (workBufferLength c)
                       (currentFieldLength c - currentFieldPos c)) in
  let a := accumulate field c in
  workBuffer a = skipn k (workBuffer c) /\
  sha3 a = (if isFieldSingleByte c then sha3 c
            else cx_hash (sha3 c) (firstn k (workBuffer c))) /\
  isFieldSingleByte a = isFieldSingleByte c /\
  (isProcessingField a = true ->
   0 <= currentFieldPos a < currentFieldLength a /\
   currentFieldLength a < 2 ^ 32) /\
  (currentFieldLength c - currentFieldPos c <= workBufferLength c ->
   isProcessingField a = false).
Proof.
  intros Hp Hpos Hmax k a.
  assert (Hw : 0 <= workBufferLength c) by (unfold workBufferLength; lia).
  unfold a, accumulate, take_len. fold k.
  destruct (currentFieldPos c <? currentFieldLength c) eqn:Hlt.
  - apply Z.ltb_lt in Hlt.
    set (c1 := copied _ k c).
    assert (Hp1 : currentFieldPos c1 = currentFieldPos c + Z.of_nat k).
    { unfold c1. simpl. apply u32_small. unfold k. lia. }
    assert (Hl1 : currentFieldLength c1 = currentFieldLength c) by reflexivity.
    destruct (currentFieldPos c1 =? currentFieldLength c1) eqn:E.
    + simpl. repeat split; try discriminate; reflexivity.
    + apply Z.eqb_neq in E. rewrite Hp1, Hl1 in E.
      split; [reflexivity|]. split; [reflexivity|].
      split; [reflexivity|].
      split; [intros _; rewrite Hp1, Hl1; unfold k in *; lia|].
      intros H. exfalso. unfold k in E. lia.
  - apply Z.ltb_ge in Hlt.
    assert (E : currentFieldPos c = currentFieldLength c) by lia.
    rewrite E, Z.eqb_refl.
    assert (Hk : k = O) by (unfold k; lia).
    rewrite Hk. simpl. rewrite cx_hash_nil.
    repeat split; try discriminate.
    destruct (isFieldSingleByte c); reflexivity.
Qed.

Lemma proxy_hash h :
  isProcessingField h = true ->
  0 <= currentFieldPos h <= currentFieldLength h ->
  currentFieldLength h < 2 ^ 32 ->
  (isFieldSingleByte h = true ->
   currentFieldPos h = 0 /\ currentFieldLength h = 1 /\
   isCurrentFieldList h = false /\ workBuffer h <> []) ->
  match txStreamParseFieldProxy h with
  | Ret TX_STREAM_FAULT _ => True
  | Throw _ => True
  | Ret _ c' =>
      exists k,
        workBuffer c' = skipn k (workBuffer h) /\
        (isFieldSingleByte h = true -> k = 1%nat /\ sha3 c' = sha3 h) /\
        (isFieldSingleByte h = false ->
         sha3 c' = cx_hash (sha3 h) (firstn k (workBuffer h))) /\
        hash_ok c'
  end.
Proof.
  intros Hp Hpos Hmax Hsingle. rewrite (proxy_closed h Hp).
  destruct (field_capacity (currentField h)) as [cap|] eqn:Hcap.
  - assert (Hgoal :
      match
        (if isCurrentFieldList h then Throw h
         else if negb (currentFieldLength h <=? cap) then Throw h
         else Ret TX_STREAM_PROCESSING
                (accumulate (field_ptr (currentField h)) h))
      with
      | Ret TX_STREAM_FAULT _ => True
      | Throw _ => True
      | Ret _ c' =>
          exists k,
            workBuffer c' = skipn k (workBuffer h) /\
            (isFieldSingleByte h = true -> k = 1%nat /\ sha3 c' = sha3 h) /\
            (isFieldSingleByte h = false ->
             sha3 c' = cx_hash (sha3 h) (firstn k (workBuffer h))) /\
            hash_ok c'
      end).
    { destruct (isCurrentFieldList h); [exact I|].
      destruct (negb (currentFieldLength h <=? cap)); [exact I|].
      destruct (accumulate_consumes (field_ptr (currentField h)) h Hp Hpos Hmax)
        as (A1 & A2 & A3 & A4 & A5).
      eexists. split; [exact A1|].
      split.
      - intros Hs. destruct (Hsingle Hs) as (S1 & S2 & _ & S4).
        rewrite A2, Hs. split; [| reflexivity].
        rewrite S1, S2. unfold workBufferLength.
        destruct (workBuffer h); [congruence|]. simpl length. lia.
      - split; [intros Hs; rewrite A2, Hs; reflexivity|].
        intros Ha. destruct (A4 Ha) as [B1 B2].
        split; [exact B1|]. split; [exact B2|].
        rewrite A3.
        destruct (isFieldSingleByte h) eqn:Hs; [| reflexivity].
        exfalso. destruct (Hsingle eq_refl) as (S1 & S2 & _ & S4).
        rewrite A5 in Ha; [discriminate Ha|].
        rewrite S1, S2. unfold workBufferLength.
        destruct (workBuffer h); [congruence|]. simpl length. lia. }
    destruct (currentField h); simpl in Hcap; try discriminate Hcap;
      inversion Hcap; subst; exact Hgoal.
  - destruct (currentField h); simpl in Hcap; try discriminate Hcap; try exact I.
    destruct (isCurrentFieldList h) eqn:Hl; [| exact I].
    exists O. split; [reflexivity|].
    split.
    + intros Hs. destruct (Hsingle Hs) as (_ & _ & S3 & _). congruence.
    + split; [intros _; simpl; symmetry; apply cx_hash_nil|].
      intros H. discriminate H.
Qed.

Lemma last_app_nonempty (s l : list byte) d :
  l <> [] -> last (s ++ l) d = last l d.
Proof.
  intros Hl. destruct (exists_last Hl) as (l' & y & ->).
  rewrite app_assoc, !last_last. reflexivity.
Qed.

(** One turn of the loop that does not fault hashes the bytes it takes from
    the input, once each and in order. *)
Lemma body_hash ctx r c' :
  hash_ok ctx ->
  txStreamParse_body ctx = Ret r c' ->
  r <> Some TX_STREAM_FAULT ->
  exists consumed,
    workBuffer ctx = consumed ++ workBuffer c' /\
    sha3 c' = cx_hash (sha3 ctx) consumed /\
    hash_ok c'.
Proof.
  intros Hok E Hr.
  destruct (field_eqb (currentField ctx) TX_RLP_DONE) eqn:Hd.
  { apply field_eqb_eq in Hd. rewrite (body_done ctx Hd) in E.
    inversion E; subst. exists []. rewrite cx_hash_nil. auto. }
  apply field_eqb_neq in Hd.
  destruct (workBuffer ctx) as [|x0 wb0] eqn:Hw.
  { rewrite (body_at_end ctx Hd Hw) in E.
    destruct (field_eqb (currentField ctx) TX_RLP_V); inversion E; subst;
      exists []; simpl; rewrite cx_hash_nil; auto. }
  assert (Hne : workBuffer ctx <> []) by (rewrite Hw; discriminate).
  rewrite <- Hw. clear Hw x0 wb0.
  destruct (isProcessingField ctx) eqn:Hp.
  - destruct (Hok Hp) as (Hpos & Hmax & Hs).
    rewrite (body_in_field ctx Hd Hne Hp) in E.
    pose proof (proxy_hash ctx Hp ltac:(lia) Hmax) as H.
    rewrite Hs in H. specialize (H ltac:(discriminate)).
    destruct (txStreamParseFieldProxy ctx) as [[] c|c]; simpl in E;
      inversion E; subst; try congruence;
      destruct H as (k & H1 & _ & H3 & H4);
      exists (firstn k (workBuffer ctx));
      rewrite H1, firstn_skipn; auto.
  - rewrite (body_at_boundary ctx Hd Hne Hp) in E.
    rewrite (header_scan ctx Hp) in E.
    destruct (scan (rlpBuffer ctx) (workBuffer ctx)) as [[v consumed] rest] eqn:Hscan.
    pose proof (scan_split _ _ _ _ _ Hscan) as Hsplit.
    cbv zeta in E.
    destruct (scan_verdict _ _ _ _ _ Hscan) as [[Hv Hrest]|[[Hv Hc]|Hv]]; subst v.
    + inversion E; subst. exists consumed.
      split; [exact Hsplit|]. split; [simpl; apply hash_bytes_eq|].
      intros H. simpl in H. congruence.
    + destruct (rlpDecodeLength (rlpBuffer ctx ++ consumed))
        as [[[fl off] li]|] eqn:Hdec; [| inversion E; subst; congruence].
      set (d := detected consumed rest ctx) in *.
      set (h := begin_field fl off li d) in *.
      assert (Hph : isProcessingField h = true) by reflexivity.
      assert (Hposh : 0 <= currentFieldPos h <= currentFieldLength h).
      { simpl. pose proof (u32_range fl). lia. }
      assert (Hmaxh : currentFieldLength h < 2 ^ 32) by (simpl; apply u32_range).
      pose proof (proxy_hash h Hph Hposh Hmaxh) as H.
      destruct (Z.eqb_spec off 0) as [Hoff | Hoff].
      * (* a self-encoded byte *)
        subst off. destruct (rlp_self_encoded _ _ _ Hdec) as [-> ->].
        assert (Hwh : workBuffer h = last consumed x00 :: rest).
        { simpl. rewrite last_app_nonempty by assumption. reflexivity. }
        assert (Hsh : isFieldSingleByte h = true) by reflexivity.
        specialize (H ltac:(intros _; repeat split;
                             try reflexivity; rewrite Hwh; discriminate)).
        destruct (txStreamParseFieldProxy h) as [[] c|c]; simpl in E;
          inversion E; try (subst r c'); try congruence;
          destruct H as (k & H1 & H2 & _ & H4);
          destruct (H2 Hsh) as [-> H2'];
          exists consumed; rewrite H1, Hwh, H2'; simpl;
          (split; [exact Hsplit|]); (split; [apply hash_bytes_eq | exact H4]).
      * assert (Hsh : isFieldSingleByte h = false).
        { simpl. apply Z.eqb_neq. exact Hoff. }
        assert (Hwh : workBuffer h = rest).
        { simpl. apply Z.eqb_neq in Hoff. rewrite Hoff. reflexivity. }
        specialize (H ltac:(intros Hs; congruence)).
        destruct (txStreamParseFieldProxy h) as [[] c|c]; simpl in E;
          inversion E; try (subst r c'); try congruence;
          destruct H as (k & H1 & _ & H3 & H4);
          exists (consumed ++ firstn k rest);
          rewrite H1, Hwh, (H3 Hsh), Hwh, <- app_assoc, firstn_skipn;
          (split; [exact Hsplit|]);
          (split; [simpl; rewrite hash_bytes_eq, cx_hash_app; reflexivity
                  | exact H4]).
    + inversion E; subst; congruence.
Qed.

Lemma parse_hash n : forall ctx s c',
  hash_ok ctx ->
  txStreamParse n ctx = Some (Ret s c') ->
  s <> TX_STREAM_FAULT ->
  exists consumed,
    workBuffer ctx = consumed ++ workBuffer c' /\
    sha3 c' = cx_hash (sha3 ctx) consumed /\
    hash_ok c'.
Proof.
  induction n as [|n IH]; intros ctx s c' Hok E Hs; [discriminate E|].
  simpl in E. destruct (txStreamParse_body ctx) as [[s0|] c|c] eqn:Hb.
  - inversion E; subst.
    apply (body_hash ctx (Some s) c' Hok Hb). congruence.
  - destruct (body_hash ctx None c Hok Hb ltac:(discriminate))
      as (consumed1 & B1 & B2 & B3).
    destruct (IH c s c' B3 E Hs) as (consumed2 & I1 & I2 & I3).
    exists (consumed1 ++ consumed2).
    rewrite B1, I1, I2, B2, cx_hash_app, app_assoc. auto.
  - discriminate E.
Qed.

(** C3, as the code has it.  In every call that does not fault, the bytes
    taken from the input are exactly the bytes fed to the hash, once each and
    in order.  Header bytes are hashed where the detector reads them, payload
    bytes where they are copied or discarded.  The one byte of a self-encoded
    single-byte field is hashed by the detector's byte-level read, as every
    header byte is, and it is the hash step of the field-accumulation copy
    path that is suppressed for it. *)
Theorem every_byte_hashed_once :
  (forall ctx x rest,
      workBuffer ctx = x :: rest ->
      isProcessingField ctx = false ->
      exists c, txStreamReadByte ctx = Ret x c /\
                sha3 c = cx_hash (sha3 ctx) [x]) /\
  (forall ctx out len,
      isProcessingField ctx = true ->
      isFieldSingleByte ctx = true ->
      sha3 (ctx_of (txStreamCopyData ctx out len)) = sha3 ctx) /\
  (forall ctx buffer flags s c',
      hash_ok ctx ->
      txStreamProcess ctx buffer flags = Some (s, c') ->
      s <> TX_STREAM_FAULT ->
      exists consumed,
        buffer = consumed ++ workBuffer c' /\
        sha3 c' = cx_hash (sha3 ctx) consumed /\
        hash_ok c').
Proof.
  split; [| split].
  - intros ctx x rest Hw Hp. eexists.
    split; [apply txStreamReadByte_cons; eassumption | reflexivity].
  - intros ctx out len Hp Hs. unfold txStreamCopyData.
    destruct (workBufferLength ctx <? len); [reflexivity|].
    destruct out as [[p off]|]; simpl; rewrite Hp, Hs; simpl; rewrite Hp;
      reflexivity.
  - intros ctx buffer flags s c' Hok E Hs.
    destruct (process_inv _ _ _ _ _ E Hs) as (_ & _ & _ & Ep).
    exact (parse_hash _ (set_processingFlags flags (set_workBuffer buffer ctx))
             s c' Hok Ep Hs).
Qed.


(** ** Further properties of the parser *)

(** *** The state that a field processor leaves *)

Lemma accumulate_state field c :
  0 <= currentFieldPos c <= currentFieldLength c ->
  currentFieldLength c < 2 ^ 32 ->
  let a := accumulate field c in
  rlpBuffer a = rlpBuffer c /\
  currentFieldLength a = currentFieldLength c /\
  ((currentFieldLength c - currentFieldPos c <= workBufferLength c /\
    isProcessingField a = false /\
    currentField a = field_succ (currentField c) /\
    (length (workBuffer a) <= length (workBuffer c))%nat) \/
   (workBufferLength c < currentFieldLength c - currentFieldPos c /\
    isProcessingField a = true /\
    currentField a = currentField c /\
    workBuffer a = [] /\
    currentFieldPos a = currentFieldPos c + workBufferLength c)).
Proof.
  intros Hpos Hmax.
  assert (Hw : 0 <= workBufferLength c) by (unfold workBufferLength; lia).
  unfold accumulate, take_len. cbv zeta.
  destruct (currentFieldPos c <? currentFieldLength c) eqn:Hlt.
  - apply Z.ltb_lt in Hlt.
    set (k := Z.to_nat (Z.min (workBufferLength c)
                          (currentFieldLength c - currentFieldPos c))).
    set (c1 := copied _ k c).
    assert (Hp1 : currentFieldPos c1 = currentFieldPos c + Z.of_nat k).
    { unfold c1. simpl. apply u32_small. unfold k. lia. }
    assert (Hl1 : currentFieldLength c1 = currentFieldLength c) by reflexivity.
    destruct (currentFieldPos c1 =? currentFieldLength c1) eqn:E.
    + apply Z.eqb_eq in E. rewrite Hp1, Hl1 in E.
      split; [reflexivity|]. split; [reflexivity|]. left.
      split; [unfold k in E; lia|]. split; [reflexivity|].
      split; [reflexivity|]. simpl. rewrite length_skipn. lia.
    + apply Z.eqb_neq in E. rewrite Hp1, Hl1 in E.
      split; [reflexivity|]. split; [reflexivity|]. right.
      assert (Hk : Z.of_nat k = workBufferLength c) by (unfold k in *; lia).
      split; [lia|]. split; [reflexivity|]. split; [reflexivity|].
      split; [| rewrite Hp1, Hk; reflexivity].
      simpl. apply skipn_all2. unfold workBufferLength in Hk. lia.
  - apply Z.ltb_ge in Hlt.
    assert (E : currentFieldPos c = currentFieldLength c) by lia.
    rewrite E, Z.eqb_refl.
    split; [reflexivity|]. split; [reflexivity|]. left.
    split; [lia|]. split; [reflexivity|]. split; [reflexivity|]. simpl. lia.
Qed.

Lemma field_rank_succ_lt f :
  f <> TX_RLP_DONE -> field_rank f < field_rank (field_succ f).
Proof. destruct f; simpl; intros H; try lia; congruence. Qed.

(** The field dispatcher inside a field: it throws and leaves the context,
    or it ends the field, or it takes the whole input and stays in the
    field. *)
Lemma proxy_state h :
  isProcessingField h = true ->
  0 <= currentFieldPos h <= currentFieldLength h ->
  currentFieldLength h < 2 ^ 32 ->
  match txStreamParseFieldProxy h with
  | Throw c => c = h
  | Ret TX_STREAM_FAULT c => c = h
  | Ret _ c' =>
      rlpBuffer c' = rlpBuffer h /\
      ((isProcessingField c' = false /\
        field_rank (currentField h) < field_rank (currentField c') /\
        (length (workBuffer c') <= length (workBuffer h))%nat) \/
       (isProcessingField c' = true /\
        currentField c' = currentField h /\
        workBuffer c' = [] /\
        0 <= currentFieldPos c' < currentFieldLength c' /\
        currentFieldLength c' < 2 ^ 32))
  end.
Proof.
  intros Hp Hpos Hmax. rewrite (proxy_closed h Hp).
  pose proof (accumulate_state (field_ptr (currentField h)) h Hpos Hmax) as Ha.
  cbv zeta in Ha.
  assert (Hw : 0 <= workBufferLength h) by (unfold workBufferLength; lia).
  assert (Hacc :
    rlpBuffer (accumulate (field_ptr (currentField h)) h) = rlpBuffer h /\
    (currentField h <> TX_RLP_DONE ->
     (isProcessingField (accumulate (field_ptr (currentField h)) h) = false /\
      field_rank (currentField h) <
      field_rank (currentField (accumulate (field_ptr (currentField h)) h)) /\
      (length (workBuffer (accumulate (field_ptr (currentField h)) h)) <=
       length (workBuffer h))%nat) \/
     (isProcessingField (accumulate (field_ptr (currentField h)) h) = true /\
      currentField (accumulate (field_ptr (currentField h)) h) = currentField h /\
      workBuffer (accumulate (field_ptr (currentField h)) h) = [] /\
      0 <= currentFieldPos (accumulate (field_ptr (currentField h)) h) <
      currentFieldLength (accumulate (field_ptr (currentField h)) h) /\
      currentFieldLength (accumulate (field_ptr (currentField h)) h) < 2 ^ 32))).
  { destruct Ha as (A1 & A2 & [(B1 & B2 & B3 & B4)|(B1 & B2 & B3 & B4 & B5)]).
    - split; [exact A1|]. intros Hd. left.
      split; [exact B2|]. split; [| exact B4].
      rewrite B3. apply field_rank_succ_lt. exact Hd.
    - split; [exact A1|]. intros _. right.
      split; [exact B2|]. split; [exact B3|]. split; [exact B4|].
      rewrite A2, B5. lia. }
  destruct Hacc as [Hr Hacc].
  destruct (currentField h) eqn:Hf; simpl; try reflexivity;
    try (destruct (isCurrentFieldList h); [reflexivity|];
         match goal with
         | |- context [if ?b then _ else _] => destruct b
         end; [reflexivity|];
         split; [exact Hr | apply Hacc; discriminate]).
  destruct (isCurrentFieldList h); [| reflexivity].
  split; [reflexivity|]. left. simpl.
  split; [reflexivity|]. split; [| lia].
  destruct (Z.land (processingFlags h) TX_FLAG_TYPE =? 0); simpl; lia.
Qed.

(** *** What the returned status says *)

Lemma after_proxy_returns r s c :
  after_proxy r = Ret (Some s) c -> s = TX_STREAM_FAULT.
Proof. destruct r as [[] c0|c0]; simpl; intros E; inversion E; reflexivity. Qed.

Lemma body_status ctx s c' :
  txStreamParse_body ctx = Ret (Some s) c' -> status_meaning s c'.
Proof.
  intros E.
  destruct (field_eqb (currentField ctx) TX_RLP_DONE) eqn:Hd.
  { apply field_eqb_eq in Hd. rewrite (body_done ctx Hd) in E.
    inversion E; subst. left. exact Hd. }
  apply field_eqb_neq in Hd.
  destruct (workBuffer ctx) as [|x wb] eqn:Hw.
  { rewrite (body_at_end ctx Hd Hw) in E.
    destruct (field_eqb (currentField ctx) TX_RLP_V) eqn:Hv;
      inversion E; subst; simpl.
    - right. apply field_eqb_eq in Hv. auto.
    - auto. }
  assert (Hne : workBuffer ctx <> []) by (rewrite Hw; discriminate).
  destruct (isProcessingField ctx) eqn:Hp.
  - rewrite (body_in_field ctx Hd Hne Hp) in E.
    rewrite (after_proxy_returns _ _ _ E). exact I.
  - rewrite (body_at_boundary ctx Hd Hne Hp) in E.
    pose proof (header_more [] ctx Hp) as Hh.
    destruct (txStreamParse_header ctx) as [[s0|] h|h]; try contradiction.
    + inversion E; subst. destruct s; try exact I; try contradiction.
      destruct Hh as (H1 & _ & H3 & _). simpl. split; [exact H1 | congruence].
    + rewrite (after_proxy_returns _ _ _ E). exact I.
Qed.

Lemma parse_status n : forall ctx s c',
  txStreamParse n ctx = Some (Ret s c') -> status_meaning s c'.
Proof.
  induction n as [|n IH]; intros ctx s c' E; [discriminate E|].
  simpl in E. destruct (txStreamParse_body ctx) as [[s0|] c|c] eqn:Hb.
  - inversion E; subst. exact (body_status ctx s c' Hb).
  - exact (IH c s c' E).
  - discriminate E.
Qed.

(** X1.  What the status of a call says about the context it leaves:
    [TX_STREAM_PROCESSING] is returned only when the whole input has been
    taken and the schema is not complete; [TX_STREAM_FINISHED] only when the
    schema is complete, or when the input has been taken up to or into the V
    field, with [v.length] reset to 0. *)
Theorem returned_status_meaning :
  forall ctx buffer flags s c',
    txStreamProcess ctx buffer flags = Some (s, c') ->
    status_meaning s c'.
Proof.
  intros ctx buffer flags s c' E.
  destruct s; try exact I.
  - destruct (process_inv _ _ _ _ _ E ltac:(discriminate)) as (_ & _ & _ & Ep).
    exact (parse_status _ _ _ _ Ep).
  - destruct (process_inv _ _ _ _ _ E ltac:(discriminate)) as (_ & _ & _ & Ep).
    exact (parse_status _ _ _ _ Ep).
Qed.

(** X2.  The schema position never goes back: after any call, whatever its
    status, the current field is the field before the call or a later
    one. *)
Theorem schema_position_never_regresses :
  forall ctx buffer flags s c',
    txStreamProcess ctx buffer flags = Some (s, c') ->
    field_rank (currentField ctx) <= field_rank (currentField c').
Proof.
  intros ctx buffer flags s c' E. unfold txStreamProcess in E.
  destruct (negb (Z.of_nat (length buffer) >? 0));
    [inversion E; subst; lia|].
  destruct (negb ((field_rank (currentField ctx) >? field_rank TX_RLP_NONE)
                  && (field_rank (currentField ctx) <? field_rank TX_RLP_DONE)));
    [inversion E; subst; lia|].
  destruct (txStreamParse _ _) as [r|] eqn:Hparse; [| discriminate E].
  destruct (parse_frame _ _ _ Hparse) as [I1 _].
  destruct r as [s0 c0|c0]; inversion E; subst; exact I1.
Qed.

(** *** The loop returns and keeps the position inside the field *)

Lemma body_inv ctx :
  in_field_ok ctx ->
  match txStreamParse_body ctx with
  | Ret None c' => in_field_ok c' /\ (turns_left c' < turns_left ctx)%nat
  | Ret (Some s) c' => s <> TX_STREAM_FAULT -> in_field_ok c'
  | Throw _ => True
  end.
Proof.
  intros Hok.
  destruct (field_eqb (currentField ctx) TX_RLP_DONE) eqn:Hd.
  { apply field_eqb_eq in Hd. rewrite (body_done ctx Hd). auto. }
  apply field_eqb_neq in Hd.
  destruct (workBuffer ctx) as [|x wb] eqn:Hw.
  { rewrite (body_at_end ctx Hd Hw).
    destruct (field_eqb (currentField ctx) TX_RLP_V); intros _; exact Hok. }
  assert (Hne : workBuffer ctx <> []) by (rewrite Hw; discriminate).
  assert (Hlen : (0 < length (workBuffer ctx))%nat) by (rewrite Hw; simpl; lia).
  clear Hw x wb.
  assert (Hstep : forall h,
    isProcessingField h = true ->
    0 <= currentFieldPos h <= currentFieldLength h ->
    currentFieldLength h < 2 ^ 32 ->
    currentField h = currentField ctx ->
    (length (workBuffer h) <= length (workBuffer ctx))%nat ->
    match after_proxy (txStreamParseFieldProxy h) with
    | Ret None c' => in_field_ok c' /\ (turns_left c' < turns_left ctx)%nat
    | Ret (Some s) c' => s <> TX_STREAM_FAULT -> in_field_ok c'
    | Throw _ => True
    end).
  { intros h Hp Hpos Hmax Hf Hwh.
    pose proof (proxy_state h Hp Hpos Hmax) as H.
    pose proof (field_rank_range (currentField ctx)) as Hr.
    assert (Hcont : forall c',
      rlpBuffer c' = rlpBuffer h /\
      ((isProcessingField c' = false /\
        field_rank (currentField h) < field_rank (currentField c') /\
        (length (workBuffer c') <= length (workBuffer h))%nat) \/
       (isProcessingField c' = true /\
        currentField c' = currentField h /\
        workBuffer c' = [] /\
        0 <= currentFieldPos c' < currentFieldLength c' /\
        currentFieldLength c' < 2 ^ 32)) ->
      in_field_ok c' /\ (turns_left c' < turns_left ctx)%nat).
    { intros c' (_ & [(B1 & B2 & B3)|(B1 & B2 & B3 & B4 & B5)]);
        pose proof (field_rank_range (currentField c')) as Hr';
        unfold turns_left.
      - split; [intros Hc; congruence | rewrite Hf in B2; lia].
      - split; [intros _; lia | rewrite B3, B2, Hf; simpl; lia]. }
    destruct (txStreamParseFieldProxy h) as [[] c'|c']; simpl.
    - apply Hcont. exact H.
    - apply Hcont. exact H.
    - intros Hs. congruence.
    - exact I. }
  destruct (isProcessingField ctx) eqn:Hp.
  - destruct (Hok Hp) as [Hpos Hmax].
    rewrite (body_in_field ctx Hd Hne Hp).
    apply Hstep; auto; lia.
  - rewrite (body_at_boundary ctx Hd Hne Hp).
    pose proof (header_more [] ctx Hp) as Hh.
    destruct (txStreamParse_header ctx) as [[s0|] h|h]; try exact I.
    + destruct s0; try contradiction; try (intros Hs; congruence).
      destruct Hh as (_ & H2 & _). intros _ Hc. congruence.
    + destruct Hh as (_ & H2 & H3 & H4 & H5 & H6 & _).
      apply Hstep; auto; lia.
Qed.

Lemma parse_inv n : forall ctx,
  in_field_ok ctx ->
  (turns_left ctx < n)%nat ->
  exists r, txStreamParse n ctx = Some r /\
            match r with
            | Ret s c' => s <> TX_STREAM_FAULT -> in_field_ok c'
            | Throw _ => True
            end.
Proof.
  induction n as [|n IH]; intros ctx Hok Hn; [lia|].
  simpl. pose proof (body_inv ctx Hok) as H.
  destruct (txStreamParse_body ctx) as [[s|] c|c].
  - eexists. split; [reflexivity | exact H].
  - destruct H as [Hok' Hlt]. apply IH; [assumption | lia].
  - eexists. split; [reflexivity | exact I].
Qed.

(** The fuel that [txStreamProcess] gives its loop is enough. *)
Lemma process_total ctx buffer flags :
  in_field_ok ctx ->
  exists s c',
    txStreamProcess ctx buffer flags = Some (s, c') /\
    (s <> TX_STREAM_FAULT -> in_field_ok c').
Proof.
  intros Hok. unfold txStreamProcess.
  destruct (negb (Z.of_nat (length buffer) >? 0));
    [exists TX_STREAM_FAULT, ctx; split; [reflexivity | congruence]|].
  destruct (negb ((field_rank (currentField ctx) >? field_rank TX_RLP_NONE)
                  && (field_rank (currentField ctx) <? field_rank TX_RLP_DONE)));
    [exists TX_STREAM_FAULT, ctx; split; [reflexivity | congruence]|].
  set (c0 := set_processingFlags flags (set_workBuffer buffer ctx)).
  destruct (parse_inv (parse_fuel (length buffer)) c0) as (r & E & Hr).
  - exact Hok.
  - unfold turns_left, parse_fuel.
    change (workBuffer c0) with buffer.
    change (currentField c0) with (currentField ctx).
    pose proof (field_rank_range (currentField ctx)). lia.
  - rewrite E. destruct r as [s c'|c'].
    + exists s, c'. split; [reflexivity | exact Hr].
    + exists TX_STREAM_FAULT, c'. split; [reflexivity | congruence].
Qed.

(** X3.  From a context in which a field in progress has its position
    short of its declared length, every call returns (the parse loop needs at
    most one turn per input byte and per schema field), and a call that does
    not fault leaves such a context again: the bytes taken for a field never
    exceed its declared length. *)
Theorem process_returns :
  forall ctx buffer flags,
    in_field_ok ctx ->
    exists s c',
      txStreamProcess ctx buffer flags = Some (s, c') /\
      (s <> TX_STREAM_FAULT -> in_field_ok c').
Proof.
  intros ctx buffer flags Hok. exact (process_total ctx buffer flags Hok).
Qed.

(** X4.  Whatever the fragments and the flags, the calls made on a freshly
    initialised context all return: feeding a stream never ends in a loop
    that does not return. *)
Theorem feed_from_init_returns :
  forall sha3_init t fragments flags,
    exists s c,
      txStreamFeed (txStreamInit sha3_init t) fragments flags = Some (s, c).
Proof.
  intros sha3_init t fragments flags.
  assert (Hgen : forall ctx, in_field_ok ctx ->
            exists s c, txStreamFeed ctx fragments flags = Some (s, c)).
  { induction fragments as [|f rest IH]; intros ctx Hok.
    - simpl. eauto.
    - simpl. destruct (process_total ctx f flags Hok) as (s & c' & E & Hinv).
      rewrite E.
      destruct s; try (destruct rest; [eauto | apply IH; apply Hinv; discriminate]).
      eauto. }
  apply Hgen. intros H. discriminate H.
Qed.

(** *** The scratch buffer stays within its bound *)

Lemma scan_bound : forall input scratch r consumed rest,
  scan scratch input = (r, consumed, rest) ->
  Z.of_nat (length scratch) <= RLP_LENGTH_BUFFER_SIZE ->
  Z.of_nat (length (scratch ++ consumed)) <= RLP_LENGTH_BUFFER_SIZE.
Proof.
  induction input as [|x input IH]; simpl; intros scratch r consumed rest E Hs.
  - inversion E; subst. rewrite app_nil_r. exact Hs.
  - destruct (Z.eqb_spec (Z.of_nat (length scratch)) RLP_LENGTH_BUFFER_SIZE)
      as [Hfull|Hroom].
    + inversion E; subst. rewrite app_nil_r. exact Hs.
    + assert (Hx : Z.of_nat (length (scratch ++ [x])) <= RLP_LENGTH_BUFFER_SIZE)
        by (rewrite length_app; simpl; lia).
      destruct (rlpCanDecode (scratch ++ [x])) as [can isValid].
      destruct can.
      * destruct isValid; inversion E; subst; exact Hx.
      * destruct (scan (scratch ++ [x]) input) as [[r' c'] rest'] eqn:Hscan.
        inversion E; subst.
        pose proof (IH _ _ _ _ Hscan Hx) as H.
        rewrite <- app_assoc in H. exact H.
Qed.

Lemma accumulate_keeps_scratch field c :
  rlpBuffer (accumulate field c) = rlpBuffer c.
Proof.
  unfold accumulate. cbv zeta.
  destruct (currentFieldPos c <? currentFieldLength c); cbv iota;
    match goal with
    | |- context [if ?x =? ?y then _ else _] => destruct (x =? y)
    end; reflexivity.
Qed.

Lemma proxy_keeps_scratch h :
  isProcessingField h = true ->
  rlpBuffer (ctx_of (txStreamParseFieldProxy h)) = rlpBuffer h.
Proof.
  intros Hp. rewrite (proxy_closed h Hp).
  destruct (currentField h); simpl; try reflexivity;
    try (destruct (isCurrentFieldList h); [reflexivity|];
         match goal with
         | |- context [if ?b then _ else _] => destruct b
         end; [reflexivity | apply accumulate_keeps_scratch]).
  destruct (isCurrentFieldList h); reflexivity.
Qed.

Lemma after_proxy_ctx r : ctx_of (after_proxy r) = ctx_of r.
Proof. destruct r as [[] c|c]; reflexivity. Qed.

Lemma body_scratch ctx :
  0 <= RLP_LENGTH_BUFFER_SIZE ->
  scratch_ok ctx ->
  scratch_ok (ctx_of (txStreamParse_body ctx)).
Proof.
  intros Hsize Hok.
  destruct (field_eqb (currentField ctx) TX_RLP_DONE) eqn:Hd.
  { apply field_eqb_eq in Hd. rewrite (body_done ctx Hd). exact Hok. }
  apply field_eqb_neq in Hd.
  destruct (workBuffer ctx) as [|x wb] eqn:Hw.
  { rewrite (body_at_end ctx Hd Hw).
    destruct (field_eqb (currentField ctx) TX_RLP_V); exact Hok. }
  assert (Hne : workBuffer ctx <> []) by (rewrite Hw; discriminate).
  destruct (isProcessingField ctx) eqn:Hp.
  - rewrite (body_in_field ctx Hd Hne Hp), after_proxy_ctx.
    unfold scratch_ok, rlpBufferPos in *.
    rewrite (proxy_keeps_scratch ctx Hp). exact Hok.
  - rewrite (body_at_boundary ctx Hd Hne Hp), (header_scan ctx Hp).
    destruct (scan (rlpBuffer ctx) (workBuffer ctx)) as [[r consumed] rest]
      eqn:Hscan.
    pose proof (scan_bound _ _ _ _ _ Hscan Hok) as Hb.
    cbv zeta.
    assert (Hd' : scratch_ok (detected consumed rest ctx)) by exact Hb.
    destruct r as [[] []]; try exact Hd';
      destruct (rlpDecodeLength (rlpBuffer ctx ++ consumed)) as [[[fl off] li]|];
      try exact Hd';
      rewrite after_proxy_ctx;
      unfold scratch_ok, rlpBufferPos;
      rewrite proxy_keeps_scratch by reflexivity; simpl; exact Hsize.
Qed.

Lemma parse_scratch n : forall ctx r,
  0 <= RLP_LENGTH_BUFFER_SIZE ->
  scratch_ok ctx ->
  txStreamParse n ctx = Some r ->
  scratch_ok (ctx_of r).
Proof.
  induction n as [|n IH]; intros ctx r Hsize Hok E; [discriminate E|].
  simpl in E. pose proof (body_scratch ctx Hsize Hok) as H.
  destruct (txStreamParse_body ctx) as [[s|] c|c]; simpl in H.
  - inversion E; subst. exact H.
  - exact (IH c r Hsize H E).
  - inversion E; subst. exact H.
Qed.

(** X5.  The scratch buffer never exceeds its bound: if it holds at most
    [RLP_LENGTH_BUFFER_SIZE] bytes before a call, it holds at most that many
    after the call, whatever the input and the status; every byte that the
    detector stores lands inside the buffer. *)
Theorem scratch_within_bound :
  forall ctx buffer flags s c',
    0 <= RLP_LENGTH_BUFFER_SIZE ->
    scratch_ok ctx ->
    txStreamProcess ctx buffer flags = Some (s, c') ->
    scratch_ok c'.
Proof.
  intros ctx buffer flags s c' Hsize Hok E. unfold txStreamProcess in E.
  destruct (negb (Z.of_nat (length buffer) >? 0));
    [inversion E; subst; exact Hok|].
  destruct (negb ((field_rank (currentField ctx) >? field_rank TX_RLP_NONE)
                  && (field_rank (currentField ctx) <? field_rank TX_RLP_DONE)));
    [inversion E; subst; exact Hok|].
  destruct (txStreamParse _ _) as [r|] eqn:Hparse; [| discriminate E].
  pose proof (parse_scratch _ (set_processingFlags flags (set_workBuffer buffer ctx))
                r Hsize Hok Hparse) as H.
  destruct r as [s0 c0|c0]; inversion E; subst; exact H.
Qed.

(** *** The slots are used within their capacity *)

Lemma store_other : forall dst off b i,
  i <> off -> nth_error (store dst off b) i = nth_error dst i.
Proof.
  induction dst as [|x dst IH]; intros off b i Hi; [reflexivity|].
  destruct off as [|off]; destruct i as [|i]; simpl; try reflexivity;
    try congruence.
  apply IH. congruence.
Qed.

Lemma os_memmove_outside : forall src dst off i,
  (i < off \/ off + length src <= i)%nat ->
  nth_error (os_memmove dst off src) i = nth_error dst i.
Proof.
  induction src as [|b src IH]; intros dst off i Hi; [reflexivity|].
  simpl. rewrite IH by (simpl in Hi; lia).
  apply store_other. simpl in Hi. lia.
Qed.

Lemma slot_kept_refl cap s : slot_kept cap s s.
Proof. split; [intros i _; reflexivity | auto]. Qed.

Lemma slot_kept_trans cap s1 s2 s3 :
  slot_kept cap s1 s2 -> slot_kept cap s2 s3 -> slot_kept cap s1 s3.
Proof.
  intros [A1 A2] [B1 B2]. split; [| auto].
  intros i Hi. rewrite (B1 i Hi). apply A1. exact Hi.
Qed.

Lemma tx_kept_refl t : tx_kept t t.
Proof. intros q cap _. apply slot_kept_refl. Qed.

Lemma tx_kept_trans t1 t2 t3 : tx_kept t1 t2 -> tx_kept t2 t3 -> tx_kept t1 t3.
Proof.
  intros A B q cap Hq. eapply slot_kept_trans; [apply A | apply B]; assumption.
Qed.

Lemma tx_ptr_eq_dec (p q : tx_ptr) : {p = q} + {p <> q}.
Proof. decide equality. Defined.

Lemma field_ptr_of_ptr_field q : field_ptr (ptr_field q) = Some q.
Proof. destruct q; reflexivity. Qed.

(** A field processor that has passed the capacity check writes below the
    capacity. *)
Lemma accumulate_kept c cap :
  0 <= currentFieldPos c ->
  field_capacity (currentField c) = Some cap ->
  currentFieldLength c <= cap ->
  tx_kept (tx c) (tx (accumulate (field_ptr (currentField c)) c)).
Proof.
  intros Hpos Hcap Hfit q capq Hq.
  destruct (field_ptr (currentField c)) as [p|] eqn:Hp.
  2:{ assert (E : tx (accumulate None c) = tx c).
      { unfold accumulate. cbv zeta.
        destruct (currentFieldPos c <? currentFieldLength c); cbv iota;
          match goal with
          | |- context [if ?x =? ?y then _ else _] => destruct (x =? y)
          end; reflexivity. }
      rewrite E. apply slot_kept_refl. }
  pose proof (field_ptr_field _ _ Hp) as Hpf.
  assert (Hw : 0 <= workBufferLength c) by (unfold workBufferLength; lia).
  destruct (tx_ptr_eq_dec q p) as [-> | Hne].
  - assert (capq = cap) by congruence. subst capq.
    unfold accumulate, take_len. cbv zeta.
    destruct (currentFieldPos c <? currentFieldLength c) eqn:Hlt; cbv iota.
    + apply Z.ltb_lt in Hlt.
      set (k := Z.to_nat (Z.min (workBufferLength c)
                            (currentFieldLength c - currentFieldPos c))).
      assert (Hval : same_beyond cap (value (deref (tx c) p))
                (os_memmove (value (deref (tx c) p))
                   (Z.to_nat (currentFieldPos c))
                   (firstn k (workBuffer c)))).
      { intros i Hi. apply os_memmove_outside. right.
        rewrite length_firstn. unfold k. lia. }
      match goal with
      | |- context [if ?x =? ?y then _ else _] => destruct (x =? y)
      end; simpl; rewrite ?deref_assign, ?assign_assign, ?deref_assign;
        simpl; split; auto; intros _; exact Hfit.
    + destruct (currentFieldPos c =? currentFieldLength c); simpl.
      * rewrite deref_assign. simpl. split; [intros i _; reflexivity|].
        intros _; exact Hfit.
      * apply slot_kept_refl.
  - assert (E : deref (tx (accumulate (Some p) c)) q = deref (tx c) q).
    { unfold accumulate. cbv zeta.
      destruct (currentFieldPos c <? currentFieldLength c); cbv iota;
        match goal with
        | |- context [if ?x =? ?y then _ else _] => destruct (x =? y)
        end; simpl;
        rewrite ?(deref_assign_other _ p q) by congruence; reflexivity. }
    rewrite E. apply slot_kept_refl.
Qed.

Lemma proxy_kept h :
  isProcessingField h = true ->
  0 <= currentFieldPos h ->
  tx_kept (tx h) (tx (ctx_of (txStreamParseFieldProxy h))).
Proof.
  intros Hp Hpos. rewrite (proxy_closed h Hp).
  destruct (field_capacity (currentField h)) as [cap|] eqn:Hcap.
  - assert (H : tx_kept (tx h)
        (tx (ctx_of
          (if isCurrentFieldList h then Throw h
           else if negb (currentFieldLength h <=? cap) then Throw h
           else Ret TX_STREAM_PROCESSING
                  (accumulate (field_ptr (currentField h)) h))))).
    { destruct (isCurrentFieldList h); [apply tx_kept_refl|].
      destruct (currentFieldLength h <=? cap) eqn:Hfit; simpl;
        [| apply tx_kept_refl].
      apply Z.leb_le in Hfit. exact (accumulate_kept h cap Hpos Hcap Hfit). }
    destruct (currentField h); simpl in Hcap; try discriminate Hcap;
      inversion Hcap; subst; exact H.
  - destruct (currentField h); simpl in Hcap; try discriminate Hcap;
      simpl; try apply tx_kept_refl.
    destruct (isCurrentFieldList h); apply tx_kept_refl.
Qed.

Lemma body_kept ctx :
  in_field_ok ctx ->
  0 <= TX_MAX_INT256_LENGTH ->
  tx_kept (tx ctx) (tx (ctx_of (txStreamParse_body ctx))).
Proof.
  intros Hok Hcap0.
  destruct (field_eqb (currentField ctx) TX_RLP_DONE) eqn:Hd.
  { apply field_eqb_eq in Hd. rewrite (body_done ctx Hd). apply tx_kept_refl. }
  apply field_eqb_neq in Hd.
  destruct (workBuffer ctx) as [|x wb] eqn:Hw.
  { rewrite (body_at_end ctx Hd Hw).
    destruct (field_eqb (currentField ctx) TX_RLP_V); [| apply tx_kept_refl].
    intros q cap Hq. simpl.
    destruct q; simpl; try apply slot_kept_refl.
    simpl in Hq. inversion Hq; subst.
    split; [intros i _; reflexivity | intros _; exact Hcap0]. }
  assert (Hne : workBuffer ctx <> []) by (rewrite Hw; discriminate).
  destruct (isProcessingField ctx) eqn:Hp.
  - destruct (Hok Hp) as [Hpos _].
    rewrite (body_in_field ctx Hd Hne Hp), after_proxy_ctx.
    apply proxy_kept; [assumption | lia].
  - rewrite (body_at_boundary ctx Hd Hne Hp).
    destruct (header_keeps_field ctx Hp) as (_ & K2 & _ & _).
    pose proof (header_more [] ctx Hp) as Hh.
    destruct (txStreamParse_header ctx) as [[s0|] h|h]; simpl in K2;
      try (simpl; rewrite K2; apply tx_kept_refl).
    destruct Hh as (_ & H2 & H3 & _).
    rewrite after_proxy_ctx, <- K2.
    apply proxy_kept; [assumption | lia].
Qed.

Lemma parse_kept n : forall ctx r,
  in_field_ok ctx ->
  0 <= TX_MAX_INT256_LENGTH ->
  txStreamParse n ctx = Some r ->
  tx_kept (tx ctx) (tx (ctx_of r)).
Proof.
  induction n as [|n IH]; intros ctx r Hok Hcap0 E; [discriminate E|].
  simpl in E. pose proof (body_kept ctx Hok Hcap0) as H.
  pose proof (body_inv ctx Hok) as Hinv.
  destruct (txStreamParse_body ctx) as [[s|] c|c]; simpl in H.
  - inversion E; subst. exact H.
  - destruct Hinv as [Hok' _].
    exact (tx_kept_trans _ _ _ H (IH c r Hok' Hcap0 E)).
  - inversion E; subst. exact H.
Qed.

Lemma process_kept ctx buffer flags s c' :
  in_field_ok ctx ->
  0 <= TX_MAX_INT256_LENGTH ->
  txStreamProcess ctx buffer flags = Some (s, c') ->
  tx_kept (tx ctx) (tx c').
Proof.
  intros Hok Hcap0 E. unfold txStreamProcess in E.
  destruct (negb (Z.of_nat (length buffer) >? 0));
    [inversion E; subst; apply tx_kept_refl|].
  destruct (negb ((field_rank (currentField ctx) >? field_rank TX_RLP_NONE)
                  && (field_rank (currentField ctx) <? field_rank TX_RLP_DONE)));
    [inversion E; subst; apply tx_kept_refl|].
  destruct (txStreamParse _ _) as [r|] eqn:Hparse; [| discriminate E].
  pose proof (parse_kept _ (set_processingFlags flags (set_workBuffer buffer ctx))
                r Hok Hcap0 Hparse) as H.
  destruct r as [s0 c0|c0]; inversion E; subst; exact H.
Qed.

(** X6.  No call writes a destination slot at or beyond the capacity bound
    that the dispatcher passes for the slot's field: whatever the input and
    the status, the slot's array is unchanged from that index on. *)
Theorem writes_within_capacity :
  forall ctx buffer flags s c' q cap,
    in_field_ok ctx ->
    0 <= TX_MAX_INT256_LENGTH ->
    txStreamProcess ctx buffer flags = Some (s, c') ->
    field_capacity (ptr_field q) = Some cap ->
    same_beyond cap (value (deref (tx ctx) q)) (value (deref (tx c') q)).
Proof.
  intros ctx buffer flags s c' q cap Hok Hcap0 E Hq.
  exact (proj1 (process_kept ctx buffer flags s c' Hok Hcap0 E q cap Hq)).
Qed.

(** X7.  The length recorded in a destination slot never exceeds the
    capacity bound of the slot's field: if it is within the bound before a
    call, it is within the bound after the call. *)
Theorem recorded_length_within_capacity :
  forall ctx buffer flags s c' q cap,
    in_field_ok ctx ->
    0 <= TX_MAX_INT256_LENGTH ->
    txStreamProcess ctx buffer flags = Some (s, c') ->
    field_capacity (ptr_field q) = Some cap ->
    flength (deref (tx ctx) q) <= cap ->
    flength (deref (tx c') q) <= cap.
Proof.
  intros ctx buffer flags s c' q cap Hok Hcap0 E Hq.
  exact (proj2 (process_kept ctx buffer flags s c' Hok Hcap0 E q cap Hq)).
Qed.

(** *** Single turns of the loop *)

Lemma process_enters ctx buffer flags :
  buffer <> [] ->
  currentField ctx <> TX_RLP_NONE ->
  currentField ctx <> TX_RLP_DONE ->
  txStreamProcess ctx buffer flags =
  match txStreamParse (parse_fuel (length buffer))
          (set_processingFlags flags (set_workBuffer buffer ctx)) with
  | None => None
  | Some (Ret result c) => Some (result, c)
  | Some (Throw c) => Some (TX_STREAM_FAULT, c)
  end.
Proof.
  intros Hb Hn Hd. unfold txStreamProcess.
  assert (Hlen : (Z.of_nat (length buffer) >? 0) = true).
  { destruct buffer; [congruence|]. simpl length. apply Z.gtb_lt. lia. }
  assert (Hr : (field_rank (currentField ctx) >? field_rank TX_RLP_NONE)
               && (field_rank (currentField ctx) <? field_rank TX_RLP_DONE) = true).
  { destruct (currentField ctx); try reflexivity; congruence. }
  rewrite Hlen, Hr. reflexivity.
Qed.

Lemma process_one_turn ctx buffer flags s c' :
  buffer <> [] ->
  currentField ctx <> TX_RLP_NONE ->
  currentField ctx <> TX_RLP_DONE ->
  txStreamParse_body (set_processingFlags flags (set_workBuffer buffer ctx)) =
    Ret (Some s) c' ->
  txStreamProcess ctx buffer flags = Some (s, c').
Proof.
  intros Hb Hn Hd E. rewrite (process_enters ctx buffer flags Hb Hn Hd).
  unfold parse_fuel. rewrite Nat.add_succ_r. cbn [txStreamParse].
  rewrite E. reflexivity.
Qed.

Lemma process_two_turns ctx buffer flags a s c' :
  buffer <> [] ->
  currentField ctx <> TX_RLP_NONE ->
  currentField ctx <> TX_RLP_DONE ->
  txStreamParse_body (set_processingFlags flags (set_workBuffer buffer ctx)) =
    Ret None a ->
  txStreamParse_body a = Ret (Some s) c' ->
  txStreamProcess ctx buffer flags = Some (s, c').
Proof.
  intros Hb Hn Hd E1 E2. rewrite (process_enters ctx buffer flags Hb Hn Hd).
  unfold parse_fuel. rewrite !Nat.add_succ_r. cbn [txStreamParse].
  rewrite E1, E2. reflexivity.
Qed.

Lemma capacity_not_sentinel f cap :
  field_capacity f = Some cap ->
  f <> TX_RLP_NONE /\ f <> TX_RLP_DONE /\ f <> TX_RLP_ENVELOPE.
Proof. destruct f; simpl; intros E; try discriminate E; repeat split; discriminate. Qed.

Lemma proxy_on_scalar h cap :
  isProcessingField h = true ->
  field_capacity (currentField h) = Some cap ->
  isCurrentFieldList h = false ->
  currentFieldLength h <= cap ->
  txStreamParseFieldProxy h =
  Ret TX_STREAM_PROCESSING (accumulate (field_ptr (currentField h)) h).
Proof.
  intros Hp Hcap Hl Hfit. rewrite (proxy_closed h Hp).
  assert (Hfit' : negb (currentFieldLength h <=? cap) = false)
    by (apply negb_false_iff, Z.leb_le; exact Hfit).
  destruct (currentField h); simpl in Hcap; try discriminate Hcap;
    inversion Hcap; subst; simpl; rewrite Hl, Hfit'; reflexivity.
Qed.

(** X8.  A scalar field whose header has been decoded and whose whole
    payload is in the unread input is taken in the same turn of the loop:
    the payload leaves the input, the schema position advances, a retained
    slot receives the payload from index 0 with the declared length
    recorded, and no other slot changes.  A field of declared length 0
    takes nothing and records length 0. *)
Theorem field_taken_in_one_turn :
  forall ctx h cap,
    isProcessingField ctx = false ->
    workBuffer ctx <> [] ->
    field_capacity (currentField ctx) = Some cap ->
    txStreamParse_header ctx = Ret None h ->
    isCurrentFieldList h = false ->
    currentFieldLength h <= cap ->
    currentFieldLength h <= workBufferLength h ->
    exists c',
      txStreamParse_body ctx = Ret None c' /\
      workBuffer c' =
        skipn (Z.to_nat (currentFieldLength h)) (workBuffer h) /\
      currentField c' = field_succ (currentField ctx) /\
      isProcessingField c' = false /\
      sha3 c' =
        (if isFieldSingleByte h then sha3 h
         else if currentFieldLength h =? 0 then sha3 h
         else cx_hash (sha3 h)
                (firstn (Z.to_nat (currentFieldLength h)) (workBuffer h))) /\
      (forall p, field_ptr (currentField ctx) = Some p ->
                 deref (tx c') p =
                 mk_slot
                   (os_memmove (value (deref (tx ctx) p)) 0
                      (firstn (Z.to_nat (currentFieldLength h)) (workBuffer h)))
                   (currentFieldLength h)) /\
      (forall p, field_ptr (currentField ctx) <> Some p ->
                 deref (tx c') p = deref (tx ctx) p).
Proof.
  intros ctx h cap Hp Hne Hcap Hh Hl Hfit Hall.
  destruct (capacity_not_sentinel _ _ Hcap) as (_ & Hd & _).
  destruct (header_keeps_field ctx Hp) as (K1 & K2 & _ & _).
  pose proof (header_more [] ctx Hp) as Hm.
  rewrite Hh in K1, K2, Hm. simpl in K1, K2.
  destruct Hm as (_ & H2 & H3 & H4 & _).
  assert (Hcaph : field_capacity (currentField h) = Some cap)
    by (rewrite K1; exact Hcap).
  set (L := Z.to_nat (currentFieldLength h)).
  set (a := accumulate (field_ptr (currentField h)) h).
  assert (Hbody : txStreamParse_body ctx = Ret None a).
  { rewrite (body_at_boundary ctx Hd Hne Hp), Hh.
    rewrite (proxy_on_scalar h cap H2 Hcaph Hl Hfit). reflexivity. }
  exists a. split; [exact Hbody|].
  rewrite <- K1, <- K2.
  unfold a, accumulate, take_len. cbv zeta. rewrite H3.
  destruct (0 <? currentFieldLength h) eqn:Hpos; cbv iota.
  - apply Z.ltb_lt in Hpos.
    assert (Hz : (currentFieldLength h =? 0) = false) by (apply Z.eqb_neq; lia).
    rewrite Z.sub_0_r, Z.min_r by lia. fold L.
    set (c1 := copied _ L h).
    assert (E : currentFieldPos c1 = currentFieldLength c1).
    { unfold c1. simpl. rewrite H3. unfold L. rewrite Z2Nat.id by lia.
      apply u32_small. lia. }
    rewrite E, Z.eqb_refl. rewrite Hz. simpl.
    split; [reflexivity|]. split; [reflexivity|]. split; [reflexivity|].
    split; [reflexivity|].
    split.
    + intros p Hfp. rewrite Hfp. simpl. destruct p; reflexivity.
    + intros p Hfp.
      destruct (field_ptr (currentField h)) as [q|]; [| reflexivity].
      simpl. destruct p, q; try reflexivity; congruence.
  - apply Z.ltb_ge in Hpos.
    assert (Hz : currentFieldLength h = 0) by lia.
    assert (HL : L = 0%nat) by (unfold L; lia).
    rewrite H3, Hz, HL. simpl.
    split; [reflexivity|]. split; [reflexivity|]. split; [reflexivity|].
    split; [destruct (isFieldSingleByte h); reflexivity|].
    split.
    + intros p Hfp. rewrite Hfp. simpl. rewrite Hz.
      destruct p; reflexivity.
    + intros p Hfp.
      destruct (field_ptr (currentField h)) as [q|]; [| reflexivity].
      simpl. destruct p, q; try reflexivity; congruence.
Qed.

Lemma accumulate_partial_eq field c :
  0 <= currentFieldPos c ->
  workBufferLength c < currentFieldLength c - currentFieldPos c ->
  currentFieldLength c < 2 ^ 32 ->
  accumulate field c =
  copied (option_map (fun p => (p, currentFieldPos c)) field)
    (length (workBuffer c)) c.
Proof.
  intros Hpos Hlen Hmax.
  assert (Hw : 0 <= workBufferLength c) by (unfold workBufferLength; lia).
  assert (Hlt : (currentFieldPos c <? currentFieldLength c) = true)
    by (apply Z.ltb_lt; lia).
  unfold accumulate, take_len. rewrite Hlt. rewrite Z.min_l by lia.
  replace (Z.to_nat (workBufferLength c)) with (length (workBuffer c))
    by (unfold workBufferLength; lia).
  destruct (currentFieldPos (copied _ _ c) =? currentFieldLength (copied _ _ c))
    eqn:E; [| reflexivity].
  apply Z.eqb_eq in E. simpl in E. fold (workBufferLength c) in E.
  rewrite u32_small in E by lia. lia.
Qed.

(** X9.  A call made inside a scalar field with less input than the field
    still needs takes all of it: the bytes are hashed (unless the field is a
    self-encoded byte), a retained slot receives them at the current offset,
    the offset advances by their number and the parser stays in the field.
    The call returns [TX_STREAM_PROCESSING] - except inside the V field,
    where it returns [TX_STREAM_FINISHED] and resets [v.length] to 0. *)
Theorem payload_spanning_call :
  forall ctx buffer flags cap,
    isProcessingField ctx = true ->
    0 <= currentFieldPos ctx ->
    currentFieldLength ctx < 2 ^ 32 ->
    field_capacity (currentField ctx) = Some cap ->
    isCurrentFieldList ctx = false ->
    currentFieldLength ctx <= cap ->
    buffer <> [] ->
    Z.of_nat (length buffer) < currentFieldLength ctx - currentFieldPos ctx ->
    exists c',
      txStreamProcess ctx buffer flags =
        Some (if field_eqb (currentField ctx) TX_RLP_V
              then TX_STREAM_FINISHED else TX_STREAM_PROCESSING, c') /\
      workBuffer c' = [] /\
      isProcessingField c' = true /\
      currentField c' = currentField ctx /\
      currentFieldPos c' = currentFieldPos ctx + Z.of_nat (length buffer) /\
      sha3 c' = (if isFieldSingleByte ctx then sha3 ctx
                 else cx_hash (sha3 ctx) buffer) /\
      (forall p, field_ptr (currentField ctx) = Some p ->
                 value (deref (tx c') p) =
                 os_memmove (value (deref (tx ctx) p))
                   (Z.to_nat (currentFieldPos ctx)) buffer /\
                 flength (deref (tx c') p) =
                 if field_eqb (currentField ctx) TX_RLP_V then 0
                 else flength (deref (tx ctx) p)) /\
      (forall p, field_ptr (currentField ctx) <> Some p ->
                 deref (tx c') p = deref (tx ctx) p).
Proof.
  intros ctx buffer flags cap Hp Hpos Hmax Hcap Hl Hfit Hb Hshort.
  destruct (capacity_not_sentinel _ _ Hcap) as (Hn & Hd & _).
  set (c0 := set_processingFlags flags (set_workBuffer buffer ctx)).
  set (a := copied (option_map (fun p => (p, currentFieldPos ctx))
                      (field_ptr (currentField ctx))) (length buffer) c0).
  assert (Ha : accumulate (field_ptr (currentField c0)) c0 = a)
    by (apply accumulate_partial_eq; assumption).
  assert (Hbody : txStreamParse_body c0 = Ret None a).
  { rewrite (body_in_field c0 Hd Hb Hp).
    rewrite (proxy_on_scalar c0 cap Hp Hcap Hl Hfit), Ha. reflexivity. }
  assert (Hwa : workBuffer a = []) by (simpl; apply skipn_all).
  assert (Hda : currentField a <> TX_RLP_DONE) by exact Hd.
  assert (Hposa : currentFieldPos a =
                  currentFieldPos ctx + Z.of_nat (length buffer))
    by (simpl; apply u32_small; lia).
  assert (Hsha : sha3 a = (if isFieldSingleByte ctx then sha3 ctx
                           else cx_hash (sha3 ctx) buffer))
    by (simpl; rewrite firstn_all; reflexivity).
  assert (Hval : forall p, field_ptr (currentField ctx) = Some p ->
            value (deref (tx a) p) =
            os_memmove (value (deref (tx ctx) p))
              (Z.to_nat (currentFieldPos ctx)) buffer /\
            flength (deref (tx a) p) = flength (deref (tx ctx) p)).
  { intros p Hfp. simpl. rewrite Hfp. simpl. rewrite deref_assign.
    simpl. rewrite firstn_all. split; reflexivity. }
  assert (Hoth : forall p, field_ptr (currentField ctx) <> Some p ->
            deref (tx a) p = deref (tx ctx) p).
  { intros p Hfp. simpl.
    destruct (field_ptr (currentField ctx)) as [q|]; [| reflexivity].
    simpl. apply deref_assign_other. congruence. }
  pose proof (body_at_end a Hda Hwa) as Hend.
  change (currentField a) with (currentField ctx) in Hend.
  destruct (field_eqb (currentField ctx) TX_RLP_V) eqn:Hv.
  - exists (clear_v a).
    split; [exact (process_two_turns ctx buffer flags a _ _ Hb Hn Hd Hbody Hend)|].
    split; [exact Hwa|]. split; [reflexivity|]. split; [reflexivity|].
    split; [exact Hposa|]. split; [exact Hsha|].
    apply field_eqb_eq in Hv.
    split.
    + intros p Hfp. rewrite Hv in Hfp. simpl in Hfp. inversion Hfp; subst p.
      destruct (Hval P_v) as [V1 _]; [rewrite Hv; reflexivity|].
      split; [exact V1 | reflexivity].
    + intros p Hfp. rewrite <- (Hoth p Hfp). rewrite Hv in Hfp. simpl in Hfp.
      destruct p; try reflexivity. congruence.
  - exists a.
    split; [exact (process_two_turns ctx buffer flags a _ _ Hb Hn Hd Hbody Hend)|].
    split; [exact Hwa|]. split; [reflexivity|]. split; [reflexivity|].
    split; [exact Hposa|]. split; [exact Hsha|].
    split; [exact Hval | exact Hoth].
Qed.

(** X10.  The envelope, decoded as a list, is accepted in the turn that
    decodes its header: no payload is taken, the declared length is kept in
    [dataLength], and the next expected field is the nonce when the type flag
    is clear and the type field when it is set. *)
Theorem envelope_accepted :
  forall ctx h,
    currentField ctx = TX_RLP_ENVELOPE ->
    isProcessingField ctx = false ->
    workBuffer ctx <> [] ->
    txStreamParse_header ctx = Ret None h ->
    isCurrentFieldList h = true ->
    exists c',
      txStreamParse_body ctx = Ret None c' /\
      currentField c' =
        (if Z.land (processingFlags ctx) TX_FLAG_TYPE =? 0
         then TX_RLP_NONCE else TX_RLP_TYPE) /\
      dataLength c' = currentFieldLength h /\
      isProcessingField c' = false /\
      workBuffer c' = workBuffer h /\
      sha3 c' = sha3 h /\
      tx c' = tx ctx.
Proof.
  intros ctx h Hf Hp Hne Hh Hl.
  assert (Hd : currentField ctx <> TX_RLP_DONE) by (rewrite Hf; discriminate).
  destruct (header_keeps_field ctx Hp) as (K1 & K2 & K3 & K4).
  rewrite Hh in K1, K2, K3. simpl in K1, K2, K3. specialize (K4 h Hh).
  exists (enveloped h).
  split.
  - rewrite (body_at_boundary ctx Hd Hne Hp), Hh, (proxy_closed h K4).
    rewrite K1, Hf, Hl. reflexivity.
  - simpl. rewrite K3. repeat split; auto.
Qed.

(** X11.  The loop relies on the position inside a field never passing the
    declared length: on a context that is inside a scalar field with the
    position beyond the declared length, a call with input takes nothing and
    its parse loop never returns. *)
Theorem position_beyond_length_never_returns :
  forall ctx buffer flags cap,
    isProcessingField ctx = true ->
    currentFieldLength ctx < currentFieldPos ctx ->
    field_capacity (currentField ctx) = Some cap ->
    isCurrentFieldList ctx = false ->
    currentFieldLength ctx <= cap ->
    buffer <> [] ->
    (forall n,
        txStreamParse n (set_processingFlags flags (set_workBuffer buffer ctx)) =
        None) /\
    txStreamProcess ctx buffer flags = None.
Proof.
  intros ctx buffer flags cap Hp Hlt Hcap Hl Hfit Hb.
  destruct (capacity_not_sentinel _ _ Hcap) as (Hn & Hd & _).
  set (c0 := set_processingFlags flags (set_workBuffer buffer ctx)).
  assert (Hacc : accumulate (field_ptr (currentField c0)) c0 = c0).
  { unfold accumulate. cbv zeta.
    change (currentFieldPos c0) with (currentFieldPos ctx).
    change (currentFieldLength c0) with (currentFieldLength ctx).
    destruct (Z.ltb_spec (currentFieldPos ctx) (currentFieldLength ctx)); [lia|].
    cbv iota.
    change (currentFieldPos c0) with (currentFieldPos ctx).
    change (currentFieldLength c0) with (currentFieldLength ctx).
    destruct (Z.eqb_spec (currentFieldPos ctx) (currentFieldLength ctx)); [lia|].
    reflexivity. }
  assert (Hbody : txStreamParse_body c0 = Ret None c0).
  { rewrite (body_in_field c0 Hd Hb Hp).
    rewrite (proxy_on_scalar c0 cap Hp Hcap Hl Hfit), Hacc. reflexivity. }
  assert (Hloop : forall n, txStreamParse n c0 = None).
  { induction n as [|n IH]; [reflexivity|]. simpl. rewrite Hbody. exact IH. }
  split; [exact Hloop|].
  rewrite (process_enters ctx buffer flags Hb Hn Hd). fold c0.
  rewrite Hloop. reflexivity.
Qed.

(** *** The detector *)

Lemma scan_decodable : forall input scratch consumed rest,
  scan scratch input = ((TX_STREAM_PROCESSING, true), consumed, rest) ->
  rlpCanDecode (scratch ++ consumed) = (true, true).
Proof.
  induction input as [|x input IH]; simpl; intros scratch consumed rest E.
  - inversion E.
  - destruct (Z.of_nat (length scratch) =? RLP_LENGTH_BUFFER_SIZE);
      [inversion E|].
    destruct (rlpCanDecode (scratch ++ [x])) as [can isValid] eqn:Hc.
    destruct can.
    + destruct isValid; inversion E; subst. exact Hc.
    + destruct (scan (scratch ++ [x]) input) as [[r' c'] rest'] eqn:Hs.
      inversion E; subst.
      pose proof (IH _ _ _ Hs) as H. rewrite <- app_assoc in H. exact H.
Qed.

(** X12.  The detector never throws.  It moves a prefix of the unread
    input to the scratch buffer and hashes it byte by byte, and touches
    nothing else; it reports the header decodable only when the primitive
    says so of the scratch buffer, after at least one byte, and it reports
    "not yet" only when the input is exhausted. *)
Theorem detector_accounting :
  forall ctx,
    isProcessingField ctx = false ->
    exists st can consumed c1,
      txStreamDetectField ctx = Ret (st, can) c1 /\
      workBuffer ctx = consumed ++ workBuffer c1 /\
      rlpBuffer c1 = rlpBuffer ctx ++ consumed /\
      sha3 c1 = hash_bytes (sha3 ctx) consumed /\
      tx c1 = tx ctx /\
      currentField c1 = currentField ctx /\
      (can = true ->
       st = TX_STREAM_PROCESSING /\ consumed <> [] /\
       rlpCanDecode (rlpBuffer c1) = (true, true)) /\
      (can = false -> st = TX_STREAM_PROCESSING -> workBuffer c1 = []).
Proof.
  intros ctx Hp. rewrite (detect_scan ctx Hp).
  destruct (scan (rlpBuffer ctx) (workBuffer ctx)) as [[[st can] consumed] rest]
    eqn:Hs.
  exists st, can, consumed, (detected consumed rest ctx).
  split; [reflexivity|].
  split; [exact (scan_split _ _ _ _ _ Hs)|].
  split; [reflexivity|]. split; [reflexivity|]. split; [reflexivity|].
  split; [reflexivity|].
  destruct (scan_verdict _ _ _ _ _ Hs) as [[Hv Hrest]|[[Hv Hc]|Hv]];
    inversion Hv; subst.
  - split; [discriminate | auto].
  - split; [| discriminate]. intros _.
    split; [reflexivity|]. split; [exact Hc|].
    exact (scan_decodable _ _ _ _ Hs).
  - split; discriminate.
Qed.

(** *** Input after the last field *)

Lemma parse_trailing b n : forall ctx cF,
  b <> [] ->
  in_field_ok ctx ->
  txStreamParse n ctx = Some (Ret TX_STREAM_FINISHED cF) ->
  currentField cF = TX_RLP_DONE ->
  parses (more_input b ctx) (Ret TX_STREAM_FINISHED (more_input b cF)).
Proof.
  induction n as [|n IH]; intros ctx cF Hb Hok E HcF; [discriminate E|].
  simpl in E.
  destruct (field_eqb (currentField ctx) TX_RLP_DONE) eqn:Hd.
  { apply field_eqb_eq in Hd. rewrite (body_done ctx Hd) in E.
    inversion E; subst cF. apply parses_return.
    exact (body_done (more_input b ctx) Hd). }
  apply field_eqb_neq in Hd.
  destruct (workBuffer ctx) as [|x wb] eqn:Hw.
  { rewrite (body_at_end ctx Hd Hw) in E.
    destruct (field_eqb (currentField ctx) TX_RLP_V); inversion E; subst.
    simpl in HcF. congruence. }
  assert (Hne : workBuffer ctx <> []) by (rewrite Hw; discriminate).
  destruct (body_more b ctx Hb Hok Hne Hd) as
    [(c' & B1 & B2 & B3)|[(r & c' & B1 & B2 & B3 & B4 & B5 & B6)|[F1 F2]]].
  - rewrite B1 in E.
    apply (parses_step _ _ _ B2).
    apply (IH c' cF Hb); [intros H; congruence | exact E | exact HcF].
  - exfalso. rewrite B1 in E.
    assert (Hd' : currentField c' <> TX_RLP_DONE) by congruence.
    destruct B2 as [-> | ->]; [| discriminate E].
    destruct n as [|n]; [discriminate E|]. simpl in E.
    rewrite (body_at_end c' Hd' B3) in E.
    destruct (field_eqb (currentField c') TX_RLP_V); inversion E; subst.
    simpl in HcF. congruence.
  - exfalso.
    destruct (txStreamParse_body ctx) as [[[]|] c|c]; simpl in F1;
      try contradiction; discriminate E.
Qed.

(** X13.  Input that follows the last field of the schema is ignored: when
    a call completes the schema, the same call with more bytes behind the
    input also returns [TX_STREAM_FINISHED], with the same destination
    record, hash and parser state, and with the added bytes left unread and
    unhashed. *)
Theorem trailing_input_ignored :
  forall ctx a b flags cF,
    in_field_ok ctx ->
    b <> [] ->
    txStreamProcess ctx a flags = Some (TX_STREAM_FINISHED, cF) ->
    currentField cF = TX_RLP_DONE ->
    txStreamProcess ctx (a ++ b) flags =
    Some (TX_STREAM_FINISHED, more_input b cF).
Proof.
  intros ctx a b flags cF Hok Hb E HcF.
  destruct (process_inv _ _ _ _ _ E ltac:(discriminate)) as (Ha & Hn & Hd & Ep).
  apply process_parses; try assumption.
  - destruct a; [congruence | discriminate].
  - exact (parse_trailing b _
             (set_processingFlags flags (set_workBuffer a ctx)) cF Hb Hok Ep HcF).
Qed.

(** *** Faults and fragmentation *)

Lemma after_proxy_faults_inv r : body_faults (after_proxy r) -> proxy_faults r.
Proof. destruct r as [[] c|c]; simpl; auto. Qed.

Lemma proxy_clear_v_faults c :
  isProcessingField c = true ->
  proxy_faults (txStreamParseFieldProxy c) ->
  proxy_faults (txStreamParseFieldProxy (clear_v c)).
Proof.
  intros Hp.
  assert (Hp' : isProcessingField (clear_v c) = true) by exact Hp.
  rewrite (proxy_closed c Hp), (proxy_closed (clear_v c) Hp').
  change (currentField (clear_v c)) with (currentField c).
  change (isCurrentFieldList (clear_v c)) with (isCurrentFieldList c).
  change (currentFieldLength (clear_v c)) with (currentFieldLength c).
  destruct (currentField c); simpl; auto;
    destruct (isCurrentFieldList c); simpl; auto;
    match goal with
    | |- context [if ?b then _ else _] => destruct b
    end; simpl; auto.
Qed.

Lemma body_clear_v_faults c :
  body_faults (txStreamParse_body c) ->
  body_faults (txStreamParse_body (clear_v c)).
Proof.
  destruct (field_eqb (currentField c) TX_RLP_DONE) eqn:Hd.
  { apply field_eqb_eq in Hd. rewrite (body_done c Hd). simpl. tauto. }
  apply field_eqb_neq in Hd.
  destruct (workBuffer c) as [|x wb] eqn:Hw.
  { rewrite (body_at_end c Hd Hw).
    destruct (field_eqb (currentField c) TX_RLP_V); simpl; tauto. }
  assert (Hne : workBuffer c <> []) by (rewrite Hw; discriminate).
  destruct (isProcessingField c) eqn:Hp.
  - rewrite (body_in_field c Hd Hne Hp), (body_in_field (clear_v c) Hd Hne Hp).
    intros F. apply after_proxy_faults, proxy_clear_v_faults; [exact Hp|].
    apply after_proxy_faults_inv. exact F.
  - rewrite (body_at_boundary c Hd Hne Hp), (body_at_boundary (clear_v c) Hd Hne Hp).
    rewrite (header_clear_v c Hp).
    destruct (header_keeps_field c Hp) as (_ & _ & _ & K4).
    destruct (txStreamParse_header c) as [[s|] h|h]; simpl; auto.
    intros F. apply after_proxy_faults, proxy_clear_v_faults;
      [exact (K4 h eq_refl)|].
    apply after_proxy_faults_inv. exact F.
Qed.

Lemma parse_of_faulty_body n ctx :
  body_faults (txStreamParse_body ctx) ->
  exists r, txStreamParse (S n) ctx = Some r /\ proxy_faults r.
Proof.
  intros F. simpl.
  destruct (txStreamParse_body ctx) as [[[]|] c|c]; simpl in F;
    try contradiction; eexists; split; try reflexivity; exact I.
Qed.

Lemma parse_clear_v_faults n : forall c r,
  currentField c = TX_RLP_V ->
  txStreamParse n c = Some r ->
  proxy_faults r ->
  exists r', txStreamParse n (clear_v c) = Some r' /\ proxy_faults r'.
Proof.
  induction n as [|n IH]; intros c r Hf E F; [discriminate E|].
  pose proof (body_clear_v c Hf) as H.
  pose proof (body_clear_v_faults c) as HF.
  simpl in E.
  destruct (txStreamParse_body c) as [[s|] c'|c'].
  - inversion E; subst r. destruct s; simpl in F; try contradiction.
    apply parse_of_faulty_body. apply HF. exact I.
  - simpl. destruct H as [[H1 H2]|[H1 H2]]; rewrite H2.
    + exact (IH c' r H1 E F).
    + exists r. auto.
  - apply parse_of_faulty_body. apply HF. exact I.
Qed.

(** A faulting call on a longer input: the call on the shorter input
    faults, or it does not and the call on the rest faults. *)
Lemma parse_split_fault b n : forall ctx r,
  b <> [] ->
  in_field_ok ctx ->
  txStreamParse n (more_input b ctx) = Some r ->
  proxy_faults r ->
  (exists r', parses ctx r' /\ proxy_faults r') \/
  (exists s c1,
     parses ctx (Ret s c1) /\
     s <> TX_STREAM_FAULT /\
     workBuffer c1 = [] /\
     in_field_ok c1 /\
     currentField c1 <> TX_RLP_DONE /\
     (currentField ctx <> TX_RLP_NONE -> currentField c1 <> TX_RLP_NONE) /\
     processingFlags c1 = processingFlags ctx /\
     exists r', parses (set_workBuffer b c1) r' /\ proxy_faults r').
Proof.
  induction n as [|n IH]; intros ctx r Hb Hok E F; [discriminate E|].
  destruct (field_eqb (currentField ctx) TX_RLP_DONE) eqn:Hd.
  { apply field_eqb_eq in Hd. simpl in E.
    rewrite (body_done (more_input b ctx) Hd) in E. inversion E; subst r.
    contradiction. }
  apply field_eqb_neq in Hd.
  assert (Hend : forall c',
    workBuffer c' = [] -> in_field_ok c' -> currentField c' <> TX_RLP_DONE ->
    txStreamParse (S n) (set_workBuffer b c') = Some r ->
    exists s c1,
      parses c' (Ret s c1) /\ s <> TX_STREAM_FAULT /\ workBuffer c1 = [] /\
      in_field_ok c1 /\ currentField c1 = currentField c' /\
      processingFlags c1 = processingFlags c' /\
      exists r', parses (set_workBuffer b c1) r' /\ proxy_faults r').
  { intros c' Hw' Hok' Hd' E'.
    destruct (field_eqb (currentField c') TX_RLP_V) eqn:Hv.
    - exists TX_STREAM_FINISHED, (clear_v c').
      split; [apply parses_return; rewrite (body_at_end c' Hd' Hw'), Hv; reflexivity|].
      split; [discriminate|]. split; [exact Hw'|]. split; [exact Hok'|].
      split; [reflexivity|]. split; [reflexivity|].
      apply field_eqb_eq in Hv.
      destruct (parse_clear_v_faults (S n) (set_workBuffer b c') r Hv E' F)
        as (r' & R1 & R2).
      exists r'. split; [exists (S n); exact R1 | exact R2].
    - exists TX_STREAM_PROCESSING, c'.
      split; [apply parses_return; rewrite (body_at_end c' Hd' Hw'), Hv; reflexivity|].
      split; [discriminate|]. split; [exact Hw'|]. split; [exact Hok'|].
      split; [reflexivity|]. split; [reflexivity|].
      exists r. split; [exists (S n); exact E' | exact F]. }
  destruct (workBuffer ctx) as [|x wb] eqn:Hw.
  { rewrite (more_input_nil ctx b Hw) in E.
    destruct (Hend ctx Hw Hok Hd E) as (s & c1 & P1 & P2 & P3 & P4 & P5 & P6 & P7).
    right. exists s, c1.
    repeat (split; [assumption|]).
    split; [congruence|]. split; [rewrite P5; auto|].
    split; [exact P6 | exact P7]. }
  assert (Hne : workBuffer ctx <> []) by (rewrite Hw; discriminate).
  pose proof (frame_body ctx) as (F1 & _ & F3 & _).
  destruct (body_more b ctx Hb Hok Hne Hd) as
    [(c' & B1 & B2 & B3)|[(r0 & c' & B1 & B2 & B3 & B4 & B5 & B6)|[G1 G2]]].
  - simpl in E. rewrite B2 in E. rewrite B1 in F1, F3. simpl in F1, F3.
    destruct (IH c' r Hb ltac:(intros H; congruence) E F)
      as [(r' & R1 & R2)|(s & c1 & P1 & P2 & P3 & P4 & P5 & P6 & P7 & P8)].
    + left. exists r'. split; [exact (parses_step _ _ _ B1 R1) | exact R2].
    + right. exists s, c1.
      split; [exact (parses_step _ _ _ B1 P1)|].
      repeat (split; [assumption|]).
      split; [auto|]. split; [congruence | exact P8].
  - rewrite B1 in F1, F3. simpl in F1, F3.
    assert (Hd' : currentField c' <> TX_RLP_DONE) by congruence.
    assert (E' : txStreamParse (S n) (set_workBuffer b c') = Some r).
    { simpl. rewrite <- B6. exact E. }
    right. destruct B2 as [-> | ->].
    + destruct (Hend c' B3 B4 Hd' E')
        as (s & c1 & P1 & P2 & P3 & P4 & P5 & P6 & P7).
      exists s, c1.
      split; [exact (parses_step _ _ _ B1 P1)|].
      repeat (split; [assumption|]).
      split; [congruence|]. split; [rewrite P5; auto|].
      split; [congruence | exact P7].
    + exists TX_STREAM_PROCESSING, c'.
      split; [exact (parses_return _ _ _ B1)|].
      split; [discriminate|].
      repeat (split; [assumption|]).
      exists r. split; [exists (S n); exact E' | exact F].
  - left. destruct (parse_of_faulty_body 0 ctx G1) as (r' & R1 & R2).
    exists r'. split; [exists 1%nat; exact R1 | exact R2].
Qed.

Lemma process_parses_fault ctx buffer flags r :
  in_field_ok ctx ->
  buffer <> [] ->
  currentField ctx <> TX_RLP_NONE ->
  currentField ctx <> TX_RLP_DONE ->
  parses (set_processingFlags flags (set_workBuffer buffer ctx)) r ->
  proxy_faults r ->
  exists c, txStreamProcess ctx buffer flags = Some (TX_STREAM_FAULT, c).
Proof.
  intros Hok Hb Hn Hd Hp F.
  rewrite (process_enters ctx buffer flags Hb Hn Hd).
  set (c0 := set_processingFlags flags (set_workBuffer buffer ctx)) in *.
  assert (Hok0 : in_field_ok c0) by exact Hok.
  pose proof (parses_fuel c0 r Hok0 Hp) as E.
  change (workBuffer c0) with buffer in E. rewrite E.
  destruct r as [[] c|c]; simpl in F; try contradiction; eexists; reflexivity.
Qed.

(** X14.  Fragmentation does not hide a fault: when a single call on a
    stream returns [TX_STREAM_FAULT], feeding the same stream in any
    non-empty fragments ends with a call that returns [TX_STREAM_FAULT]. *)
Theorem fault_survives_fragmentation :
  forall fragments ctx flags cF,
    in_field_ok ctx ->
    fragments <> [] ->
    Forall (fun f => f <> []) fragments ->
    txStreamProcess ctx (concat fragments) flags = Some (TX_STREAM_FAULT, cF) ->
    exists c, txStreamFeed ctx fragments flags = Some (TX_STREAM_FAULT, c).
Proof.
  induction fragments as [|f rest IH]; intros ctx flags cF Hok Hne Hall E;
    [congruence|].
  inversion Hall as [|? ? Hf Hrest]; subst.
  destruct rest as [|g rest].
  - simpl in *. rewrite app_nil_r in E. rewrite E. eauto.
  - set (b := concat (g :: rest)) in *.
    assert (Hb : b <> []).
    { unfold b. simpl. inversion Hrest; subst.
      destruct g; [congruence | discriminate]. }
    change (concat (f :: g :: rest)) with (f ++ b) in E.
    change (txStreamFeed ctx (f :: g :: rest) flags) with
      (match txStreamProcess ctx f flags with
       | None => None
       | Some (TX_STREAM_FAULT, c) => Some (TX_STREAM_FAULT, c)
       | Some (_, c) => txStreamFeed c (g :: rest) flags
       end).
    assert (Hfb : f ++ b <> []) by (destruct f; [congruence | discriminate]).
    destruct (field_eqb (currentField ctx) TX_RLP_NONE) eqn:Hn.
    { apply field_eqb_eq in Hn. unfold txStreamProcess at 1. rewrite Hn.
      destruct (negb (Z.of_nat (length f) >? 0)); simpl; eauto. }
    destruct (field_eqb (currentField ctx) TX_RLP_DONE) eqn:Hd.
    { apply field_eqb_eq in Hd. unfold txStreamProcess at 1. rewrite Hd.
      destruct (negb (Z.of_nat (length f) >? 0)); simpl; eauto. }
    apply field_eqb_neq in Hn. apply field_eqb_neq in Hd.
    rewrite (process_enters ctx (f ++ b) flags Hfb Hn Hd) in E.
    set (cA := set_processingFlags flags (set_workBuffer f ctx)).
    assert (HokA : in_field_ok cA) by exact Hok.
    change (set_processingFlags flags (set_workBuffer (f ++ b) ctx))
      with (more_input b cA) in E.
    destruct (txStreamParse (parse_fuel (length (f ++ b))) (more_input b cA))
      as [r|] eqn:Ep; [| discriminate E].
    assert (F : proxy_faults r).
    { destruct r as [[] c|c]; simpl; auto; inversion E. }
    destruct (parse_split_fault b _ cA r Hb HokA Ep F)
      as [(r' & R1 & R2)|(s & c1 & P1 & P2 & P3 & P4 & P5 & P6 & P7 & r' & P8 & P9)].
    + destruct (process_parses_fault ctx f flags r' Hok Hf Hn Hd R1 R2) as [c Ec].
      rewrite Ec. eauto.
    + assert (E1 : txStreamProcess ctx f flags = Some (s, c1))
        by (apply process_parses; assumption).
      assert (E2 : exists c, txStreamProcess c1 b flags = Some (TX_STREAM_FAULT, c)).
      { apply (process_parses_fault c1 b flags r'); auto.
        simpl in P7. rewrite <- P7.
        change (set_processingFlags (processingFlags c1) (set_workBuffer b c1))
          with (set_workBuffer b (set_processingFlags (processingFlags c1) c1)).
        rewrite set_processingFlags_same. exact P8. }
      destruct E2 as [c2 E2].
      assert (IH' := IH c1 flags c2 P4 ltac:(discriminate) Hrest E2).
      rewrite E1. destruct s; try exact IH'. congruence.
Qed.

(** *** The hash over a sequence of calls *)

Lemma process_hash ctx buffer flags s c' :
  hash_ok ctx ->
  txStreamProcess ctx buffer flags = Some (s, c') ->
  s <> TX_STREAM_FAULT ->
  exists consumed,
    buffer = consumed ++ workBuffer c' /\
    sha3 c' = cx_hash (sha3 ctx) consumed /\
    hash_ok c'.
Proof.
  intros Hok E Hs.
  destruct (process_inv _ _ _ _ _ E Hs) as (_ & _ & _ & Ep).
  exact (parse_hash _ (set_processingFlags flags (set_workBuffer buffer ctx))
           s c' Hok Ep Hs).
Qed.

Lemma process_status ctx buffer flags s c' :
  txStreamProcess ctx buffer flags = Some (s, c') ->
  s <> TX_STREAM_FAULT ->
  status_meaning s c'.
Proof.
  intros E Hs.
  destruct (process_inv _ _ _ _ _ E Hs) as (_ & _ & _ & Ep).
  exact (parse_status _ _ _ _ Ep).
Qed.

Lemma feed_at_done c f rest flags :
  currentField c = TX_RLP_DONE ->
  txStreamFeed c (f :: rest) flags = Some (TX_STREAM_FAULT, c).
Proof.
  intros Hd. simpl. unfold txStreamProcess. rewrite Hd.
  destruct (negb (Z.of_nat (length f) >? 0)); reflexivity.
Qed.

(** A call that does not fault and is followed by a call that does not
    fault either has taken its whole input. *)
Lemma feed_continues ctx f g rest flags s1 c1 s c' :
  txStreamProcess ctx f flags = Some (s1, c1) ->
  txStreamFeed ctx (f :: g :: rest) flags = Some (s, c') ->
  s <> TX_STREAM_FAULT ->
  s1 <> TX_STREAM_FAULT /\ workBuffer c1 = [] /\
  txStreamFeed c1 (g :: rest) flags = Some (s, c').
Proof.
  intros E1 E Hs.
  change (txStreamFeed ctx (f :: g :: rest) flags) with
    (match txStreamProcess ctx f flags with
     | None => None
     | Some (TX_STREAM_FAULT, c) => Some (TX_STREAM_FAULT, c)
     | Some (_, c) => txStreamFeed c (g :: rest) flags
     end) in E.
  rewrite E1 in E.
  assert (Hs1 : s1 <> TX_STREAM_FAULT).
  { intros ->. inversion E; subst. congruence. }
  assert (E' : txStreamFeed c1 (g :: rest) flags = Some (s, c'))
    by (destruct s1; try exact E; congruence).
  split; [exact Hs1|]. split; [| exact E'].
  pose proof (process_status _ _ _ _ _ E1 Hs1) as Hm.
  destruct s1; simpl in Hm; try congruence.
  - tauto.
  - destruct Hm as [Hd | (_ & Hw & _)]; [| exact Hw].
    rewrite (feed_at_done c1 g rest flags Hd) in E'.
    inversion E'; subst. congruence.
Qed.

(** X15.  Over any sequence of calls that ends without a fault, the hash
    has absorbed exactly the bytes of the stream that were taken, once each
    and in order: every fragment but the last whole, and of the last one what
    its call has taken. *)
Theorem feed_hash :
  forall fragments ctx flags s c',
    hash_ok ctx ->
    fragments <> [] ->
    txStreamFeed ctx fragments flags = Some (s, c') ->
    s <> TX_STREAM_FAULT ->
    exists consumed,
      concat fragments = consumed ++ workBuffer c' /\
      sha3 c' = cx_hash (sha3 ctx) consumed /\
      hash_ok c'.
Proof.
  induction fragments as [|f rest IH]; intros ctx flags s c' Hok Hne E Hs;
    [congruence|].
  destruct rest as [|g rest].
  - simpl in E.
    destruct (txStreamProcess ctx f flags) as [[s1 c1]|] eqn:E1;
      [| discriminate E].
    assert (E' : s1 = s /\ c1 = c')
      by (destruct s1; inversion E; subst; auto).
    destruct E' as [-> ->].
    simpl. rewrite app_nil_r. exact (process_hash ctx f flags s c' Hok E1 Hs).
  - destruct (txStreamProcess ctx f flags) as [[s1 c1]|] eqn:E1.
    2:{ simpl in E. rewrite E1 in E. discriminate E. }
    destruct (feed_continues ctx f g rest flags s1 c1 s c' E1 E Hs)
      as (Hs1 & Hw1 & E').
    destruct (process_hash ctx f flags s1 c1 Hok E1 Hs1)
      as (consumed1 & C1 & C2 & C3).
    rewrite Hw1, app_nil_r in C1. subst consumed1.
    destruct (IH c1 flags s c' C3 ltac:(discriminate) E' Hs)
      as (consumed2 & D1 & D2 & D3).
    exists (f ++ consumed2).
    split; [| split; [| exact D3]].
    + change (concat (f :: g :: rest)) with (f ++ concat (g :: rest)).
      rewrite D1, app_assoc. reflexivity.
    + rewrite D2, C2, cx_hash_app. reflexivity.
Qed.

(** *** Fragmentation of a stream that stops short *)

Lemma clear_v_idem c : clear_v (clear_v c) = clear_v c.
Proof. unfold clear_v. simpl. destruct (tx c); reflexivity. Qed.

Lemma body_clear_v_processing c c' :
  currentField c = TX_RLP_V ->
  txStreamParse_body c = Ret (Some TX_STREAM_PROCESSING) c' ->
  currentField c' = TX_RLP_V /\
  txStreamParse_body (clear_v c) = Ret (Some TX_STREAM_PROCESSING) (clear_v c').
Proof.
  intros Hf E.
  assert (Hd : currentField c <> TX_RLP_DONE) by (rewrite Hf; discriminate).
  destruct (workBuffer c) as [|x wb] eqn:Hw.
  { rewrite (body_at_end c Hd Hw), Hf in E. discriminate E. }
  assert (Hne : workBuffer c <> []) by (rewrite Hw; discriminate).
  destruct (isProcessingField c) eqn:Hp.
  - rewrite (body_in_field c Hd Hne Hp) in E.
    destruct (txStreamParseFieldProxy c) as [s c1|c1]; simpl in E;
      [destruct s|]; discriminate E.
  - rewrite (body_at_boundary c Hd Hne Hp) in E.
    rewrite (body_at_boundary (clear_v c) Hd Hne Hp), (header_clear_v c Hp).
    destruct (header_keeps_field c Hp) as (K1 & _).
    destruct (txStreamParse_header c) as [[s|] h|h].
    + inversion E; subst. simpl in K1. split; [congruence | reflexivity].
    + destruct (txStreamParseFieldProxy h) as [s c1|c1]; simpl in E;
        [destruct s|]; discriminate E.
    + discriminate E.
Qed.

Lemma parse_clear_v_processing n : forall c cF,
  currentField c = TX_RLP_V ->
  txStreamParse n c = Some (Ret TX_STREAM_PROCESSING cF) ->
  exists cF',
    txStreamParse n (clear_v c) = Some (Ret TX_STREAM_PROCESSING cF') /\
    (cF' = cF \/ (currentField cF = TX_RLP_V /\ cF' = clear_v cF)).
Proof.
  induction n as [|n IH]; intros c cF Hf E; [discriminate E|].
  simpl in *. pose proof (body_clear_v c Hf) as H.
  destruct (txStreamParse_body c) as [[s|] c'|c'] eqn:Eb.
  - inversion E; subst.
    destruct (body_clear_v_processing c cF Hf Eb) as [K1 K2].
    exists (clear_v cF). rewrite K2. auto.
  - destruct H as [[H1 H2]|[H1 H2]]; rewrite H2.
    + exact (IH c' cF H1 E).
    + exists cF. auto.
  - discriminate E.
Qed.

Lemma parse_split_processing b n : forall ctx cF,
  b <> [] ->
  in_field_ok ctx ->
  txStreamParse n (more_input b ctx) = Some (Ret TX_STREAM_PROCESSING cF) ->
  exists s c1,
    parses ctx (Ret s c1) /\
    s <> TX_STREAM_FAULT /\
    workBuffer c1 = [] /\
    in_field_ok c1 /\
    currentField c1 <> TX_RLP_DONE /\
    (currentField ctx <> TX_RLP_NONE -> currentField c1 <> TX_RLP_NONE) /\
    processingFlags c1 = processingFlags ctx /\
    exists cF',
      parses (set_workBuffer b c1) (Ret TX_STREAM_PROCESSING cF') /\
      (cF' = cF \/ (currentField cF = TX_RLP_V /\ cF' = clear_v cF)).
Proof.
  induction n as [|n IH]; intros ctx cF Hb Hok E; [discriminate E|].
  destruct (field_eqb (currentField ctx) TX_RLP_DONE) eqn:Hd.
  { apply field_eqb_eq in Hd. simpl in E.
    rewrite (body_done (more_input b ctx) Hd) in E. discriminate E. }
  apply field_eqb_neq in Hd.
  assert (Hend : forall c',
    workBuffer c' = [] -> in_field_ok c' -> currentField c' <> TX_RLP_DONE ->
    txStreamParse (S n) (set_workBuffer b c') =
      Some (Ret TX_STREAM_PROCESSING cF) ->
    exists s c1,
      parses c' (Ret s c1) /\ s <> TX_STREAM_FAULT /\ workBuffer c1 = [] /\
      in_field_ok c1 /\ currentField c1 = currentField c' /\
      processingFlags c1 = processingFlags c' /\
      exists cF',
        parses (set_workBuffer b c1) (Ret TX_STREAM_PROCESSING cF') /\
        (cF' = cF \/ (currentField cF = TX_RLP_V /\ cF' = clear_v cF))).
  { intros c' B3 B4 Hd' E'.
    destruct (field_eqb (currentField c') TX_RLP_V) eqn:Hv.
    - exists TX_STREAM_FINISHED, (clear_v c').
      split; [apply parses_return; rewrite (body_at_end c' Hd' B3), Hv; reflexivity|].
      split; [discriminate|]. split; [exact B3|]. split; [exact B4|].
      split; [reflexivity|]. split; [reflexivity|].
      apply field_eqb_eq in Hv.
      destruct (parse_clear_v_processing (S n) (set_workBuffer b c') cF Hv E')
        as (cF' & Q1 & Q2).
      exists cF'. split; [exists (S n); exact Q1 | exact Q2].
    - exists TX_STREAM_PROCESSING, c'.
      split; [apply parses_return; rewrite (body_at_end c' Hd' B3), Hv; reflexivity|].
      split; [discriminate|]. split; [exact B3|]. split; [exact B4|].
      split; [reflexivity|]. split; [reflexivity|].
      exists cF. split; [exists (S n); exact E' | auto]. }
  destruct (workBuffer ctx) as [|x wb] eqn:Hw.
  { rewrite (more_input_nil ctx b Hw) in E.
    destruct (Hend ctx Hw Hok Hd E) as (s & c1 & P1 & P2 & P3 & P4 & P5 & P6 & P7).
    exists s, c1. repeat (split; [assumption|]).
    split; [congruence|]. split; [rewrite P5; auto|].
    split; [exact P6 | exact P7]. }
  assert (Hne : workBuffer ctx <> []) by (rewrite Hw; discriminate).
  destruct (body_more b ctx Hb Hok Hne Hd) as
    [(c' & B1 & B2 & B3)|[(r & c' & B1 & B2 & B3 & B4 & B5 & B6)|[F1 F2]]].
  - simpl in E. rewrite B2 in E.
    destruct (IH c' cF Hb) as (s & c1 & P1 & P2 & P3 & P4 & P5 & P6 & P7 & P8);
      [intros H; congruence | exact E |].
    exists s, c1.
    split; [exact (parses_step _ _ _ B1 P1)|].
    repeat (split; [assumption|]).
    pose proof (frame_body ctx) as (F1 & _ & F3 & _).
    rewrite B1 in F1, F3. simpl in F1, F3.
    split; [auto|].
    split; [congruence | exact P8].
  - assert (Hd' : currentField c' <> TX_RLP_DONE) by congruence.
    assert (E' : txStreamParse (S n) (set_workBuffer b c') =
                 Some (Ret TX_STREAM_PROCESSING cF)).
    { simpl. rewrite <- B6. exact E. }
    pose proof (frame_body ctx) as (F1 & _ & F3 & _).
    rewrite B1 in F1, F3. simpl in F1, F3.
    destruct B2 as [-> | ->].
    + destruct (Hend c' B3 B4 Hd' E') as (s & c1 & P1 & P2 & P3 & P4 & P5 & P6 & P7).
      exists s, c1.
      split; [exact (parses_step _ _ _ B1 P1)|].
      repeat (split; [assumption|]).
      split; [congruence|]. split; [rewrite P5; auto|].
      split; [congruence | exact P7].
    + exists TX_STREAM_PROCESSING, c'.
      split; [exact (parses_return _ _ _ B1)|].
      split; [discriminate|].
      repeat (split; [assumption|]).
      exists cF. split; [exists (S n); exact E' | auto].
  - simpl in E. exfalso.
    destruct (txStreamParse_body (more_input b ctx)) as [[[]|] c|c];
      simpl in F2; try contradiction; discriminate E.
Qed.

(** X16.  A stream that stops short of the end of the schema: when a single
    call on the whole of it returns [TX_STREAM_PROCESSING], feeding the same
    bytes in any number of non-empty fragments returns
    [TX_STREAM_PROCESSING] too and leaves the same context, with one
    exception.  When the stream stops inside the header of the V field, the
    fragmented run may have gone through the legacy-shape exit of an earlier
    call, and then the recorded length of [v] is zero where the single call
    has left it untouched; nothing else differs. *)
Theorem prefix_fragmentation_invariance :
  forall fragments ctx flags cF,
    in_field_ok ctx ->
    fragments <> [] ->
    Forall (fun f => f <> []) fragments ->
    txStreamProcess ctx (concat fragments) flags =
      Some (TX_STREAM_PROCESSING, cF) ->
    exists c,
      txStreamFeed ctx fragments flags = Some (TX_STREAM_PROCESSING, c) /\
      (c = cF \/ (currentField cF = TX_RLP_V /\ c = clear_v cF)).
Proof.
  induction fragments as [|f rest IH]; intros ctx flags cF Hok Hne Hall E;
    [congruence|].
  inversion Hall as [|? ? Hf Hrest]; subst.
  destruct rest as [|g rest].
  - simpl in *. rewrite app_nil_r in E. rewrite E. exists cF. auto.
  - set (b := concat (g :: rest)) in *.
    assert (Hb : b <> []).
    { unfold b. simpl. inversion Hrest; subst.
      destruct g; [congruence | discriminate]. }
    change (concat (f :: g :: rest)) with (f ++ b) in E.
    destruct (process_inv _ _ _ _ _ E) as (_ & Hn & Hd & Ep); [discriminate|].
    set (cA := set_processingFlags flags (set_workBuffer f ctx)).
    assert (HokA : in_field_ok cA) by exact Hok.
    destruct (parse_split_processing b _ cA cF Hb HokA Ep)
      as (s & c1 & P1 & P2 & P3 & P4 & P5 & P6 & P7 & cF' & P8 & P9).
    assert (E1 : txStreamProcess ctx f flags = Some (s, c1))
      by (apply process_parses; assumption).
    assert (E2 : txStreamProcess c1 b flags = Some (TX_STREAM_PROCESSING, cF')).
    { apply process_parses; auto.
      simpl in P7. rewrite <- P7.
      change (set_processingFlags (processingFlags c1) (set_workBuffer b c1))
        with (set_workBuffer b (set_processingFlags (processingFlags c1) c1)).
      rewrite set_processingFlags_same. exact P8. }
    destruct (IH c1 flags cF' P4 ltac:(discriminate) Hrest E2) as (c & I1 & I2).
    exists c. split.
    + change (txStreamFeed ctx (f :: g :: rest) flags) with
        (match txStreamProcess ctx f flags with
         | None => None
         | Some (TX_STREAM_FAULT, c) => Some (TX_STREAM_FAULT, c)
         | Some (_, c) => txStreamFeed c (g :: rest) flags
         end).
      rewrite E1. destruct s; try exact I1. congruence.
    + destruct P9 as [-> | [Q1 ->]].
      * exact I2.
      * right. split; [exact Q1|].
        destruct I2 as [-> | [_ ->]]; [reflexivity | apply clear_v_idem].
Qed.

(** ** The slot of the field at which a call stops *)

Lemma field_rank_inj f g : field_rank f = field_rank g -> f = g.
Proof. destruct f, g; simpl; intros H; try reflexivity; discriminate H. Qed.

Lemma accumulate_stop field c :
  isProcessingField c = true ->
  isProcessingField (accumulate field c) = true \/
  currentField (accumulate field c) = field_succ (currentField c).
Proof.
  intros Hp. unfold accumulate.
  destruct (currentFieldPos c <? currentFieldLength c);
    match goal with
    | |- context [if ?x =? ?y then _ else _] => destruct (x =? y)
    end; simpl; auto.
Qed.

(** The dispatcher never leaves the parser at the boundary of the field it
    was called for. *)
Lemma proxy_stop h :
  isProcessingField h = true ->
  isProcessingField (ctx_of (txStreamParseFieldProxy h)) = true \/
  currentField (ctx_of (txStreamParseFieldProxy h)) <> currentField h.
Proof.
  intros Hp. rewrite (proxy_closed h Hp).
  destruct (currentField h) eqn:Hf; simpl; auto;
    try (destruct (isCurrentFieldList h); simpl; auto;
         match goal with
         | |- context [if ?b then _ else _] => destruct b
         end; simpl; auto;
         destruct (accumulate_stop (field_ptr (currentField h)) h Hp) as [H | H];
         rewrite Hf in H; simpl in H; [left; exact H | right; rewrite H; discriminate]).
  destruct (isCurrentFieldList h); simpl; auto.
  right. destruct (Z.land (processingFlags h) TX_FLAG_TYPE =? 0); discriminate.
Qed.

Lemma after_proxy_ctx_of r : ctx_of (after_proxy r) = ctx_of r.
Proof. destruct r as [[] c|c]; reflexivity. Qed.

(** One turn of the loop that leaves the parser at the field where it
    was. *)
Lemma body_stop ctx :
  currentField (ctx_of (txStreamParse_body ctx)) = currentField ctx ->
  (isProcessingField ctx = true ->
   isProcessingField (ctx_of (txStreamParse_body ctx)) = true) /\
  (forall c, txStreamParse_body ctx = Ret None c ->
             isProcessingField c = true) /\
  (isProcessingField (ctx_of (txStreamParse_body ctx)) = false ->
   tx (ctx_of (txStreamParse_body ctx)) = tx ctx \/
   (currentField ctx = TX_RLP_V /\
    txStreamParse_body ctx = Ret (Some TX_STREAM_FINISHED) (clear_v ctx))).
Proof.
  destruct (field_eqb (currentField ctx) TX_RLP_DONE) eqn:Hd.
  { apply field_eqb_eq in Hd. rewrite (body_done ctx Hd). simpl.
    intros _. repeat split; auto. intros c H. discriminate H. }
  apply field_eqb_neq in Hd.
  destruct (workBuffer ctx) as [|x wb] eqn:Hw.
  { rewrite (body_at_end ctx Hd Hw).
    destruct (field_eqb (currentField ctx) TX_RLP_V) eqn:Hv; simpl; intros _.
    - apply field_eqb_eq in Hv.
      split; [auto|]. split; [intros c H; discriminate H|]. auto.
    - split; [auto|]. split; [intros c H; discriminate H|]. auto. }
  assert (Hne : workBuffer ctx <> []) by (rewrite Hw; discriminate).
  destruct (isProcessingField ctx) eqn:Hp.
  - rewrite (body_in_field ctx Hd Hne Hp), after_proxy_ctx_of.
    intros Hf. destruct (proxy_stop ctx Hp) as [H | H]; [| contradiction].
    split; [auto|]. split; [| rewrite H; discriminate].
    intros c Hc.
    destruct (txStreamParseFieldProxy ctx) as [[] c0|c0]; simpl in *;
      inversion Hc; subst; exact H.
  - rewrite (body_at_boundary ctx Hd Hne Hp).
    destruct (header_keeps_field ctx Hp) as (K1 & K2 & K3 & K4).
    destruct (txStreamParse_header ctx) as [[s|] h|h] eqn:Hh; simpl in *.
    + intros _. split; [discriminate|].
      split; [intros c H; discriminate H | auto].
    + rewrite after_proxy_ctx_of. intros Hf.
      destruct (proxy_stop h (K4 h eq_refl)) as [H | H]; [| congruence].
      split; [discriminate|]. split; [| rewrite H; discriminate].
      intros c Hc.
      destruct (txStreamParseFieldProxy h) as [[] c0|c0]; simpl in *;
        inversion Hc; subst; exact H.
    + intros _. split; [discriminate|].
      split; [intros c H; discriminate H | auto].
Qed.

(** A run of the loop that starts inside a field and ends at that field
    ends inside it. *)
Lemma parse_stop_in_field n : forall ctx r,
  txStreamParse n ctx = Some r ->
  isProcessingField ctx = true ->
  currentField (ctx_of r) = currentField ctx ->
  isProcessingField (ctx_of r) = true.
Proof.
  induction n as [|n IH]; intros ctx r E Hp Hf; [discriminate E|].
  simpl in E. pose proof (frame_body ctx) as (_ & F2 & _).
  pose proof (body_stop ctx) as Hs.
  destruct (txStreamParse_body ctx) as [[s|] c|c] eqn:Hb; simpl in *.
  - inversion E; subst. simpl in *. destruct (Hs Hf) as (S1 & _). exact (S1 Hp).
  - destruct (parse_frame n c r E) as [I1 _].
    assert (Hc : currentField c = currentField ctx).
    { apply field_rank_inj. rewrite Hf in I1. lia. }
    destruct (Hs Hc) as (S1 & _).
    apply (IH c r E (S1 Hp)). congruence.
  - inversion E; subst. simpl in *. destruct (Hs Hf) as (S1 & _). exact (S1 Hp).
Qed.

(** A run of the loop that ends at the boundary of a field has not written
    the slot of that field, but for the reset of [v.length] at its exit. *)
Lemma parse_stop n : forall ctx r q,
  txStreamParse n ctx = Some r ->
  currentField (ctx_of r) = ptr_field q ->
  isProcessingField (ctx_of r) = false ->
  deref (tx (ctx_of r)) q = deref (tx ctx) q \/
  (q = P_v /\ r = Ret TX_STREAM_FINISHED (ctx_of r) /\
   deref (tx (ctx_of r)) q = set_flength (deref (tx ctx) q) 0).
Proof.
  induction n as [|n IH]; intros ctx r q E Hf Hp; [discriminate E|].
  simpl in E. pose proof (frame_body ctx) as (_ & F2 & _ & F4).
  pose proof (body_stop ctx) as Hs.
  assert (Hlast : forall c,
            ctx_of (txStreamParse_body ctx) = c ->
            currentField c = ptr_field q -> isProcessingField c = false ->
            deref (tx c) q = deref (tx ctx) q \/
            (q = P_v /\
             txStreamParse_body ctx = Ret (Some TX_STREAM_FINISHED) c /\
             deref (tx c) q = set_flength (deref (tx ctx) q) 0)).
  { intros c <- Hfc Hpc.
    destruct (field_eqb (currentField ctx) (ptr_field q)) eqn:Hq.
    - apply field_eqb_eq in Hq.
      destruct Hs as (_ & _ & S3); [congruence|].
      destruct (S3 Hpc) as [S | [S1 S2]].
      + left. rewrite S. reflexivity.
      + right. rewrite S2. simpl.
        assert (q = P_v) by (destruct q; simpl in Hq; congruence).
        subst q. repeat split.
    - apply field_eqb_neq in Hq. left. apply F4. exact Hq. }
  destruct (txStreamParse_body ctx) as [[s|] c|c] eqn:Hb.
  - inversion E; subst. simpl in *.
    destruct (Hlast c eq_refl Hf Hp) as [H | (H1 & H2 & H3)]; [left; exact H|].
    right. inversion H2; subst. auto.
  - simpl in F2, F4.
    destruct (field_eqb (currentField ctx) (ptr_field q)) eqn:Hq.
    + apply field_eqb_eq in Hq. exfalso.
      destruct (parse_frame n c r E) as [I1 _].
      assert (Hc : currentField c = currentField ctx).
      { apply field_rank_inj. rewrite Hf, <- Hq in I1. lia. }
      destruct (Hs Hc) as (_ & S2 & _).
      pose proof (parse_stop_in_field n c r E (S2 c eq_refl)) as Hin.
      rewrite Hin in Hp; [discriminate Hp | congruence].
    + apply field_eqb_neq in Hq.
      destruct (IH c r q E Hf Hp) as [H | (H1 & H2 & H3)].
      * left. rewrite H. apply F4. exact Hq.
      * right. rewrite H3, (F4 q Hq). auto.
  - inversion E; subst. simpl in *.
    destruct (Hlast c eq_refl Hf Hp) as [H | (H1 & H2 & H3)]; [left; exact H|].
    discriminate H2.
Qed.

(** C10.  A field processor run on a field that the schema does not retain
    (type, nonce, data, r, s) leaves the whole destination record as it was.
    After any call, a retained slot is as it was before the call when its
    field lies before the schema position at which the call started or
    behind the position at which it stopped, and also when the call stopped
    at the boundary of the slot's own field, before the header of that field
    was decoded - with one exception: a call that leaves by the legacy-shape
    exit (it returns [TX_STREAM_FINISHED] with the parser at V) has set
    [v.length] to 0, although it may not have taken a byte of V; the bytes of
    [v] are as they were. *)
Theorem destination_frame :
  (forall c,
      isProcessingField c = true ->
      field_capacity (currentField c) <> None ->
      field_ptr (currentField c) = None ->
      tx (ctx_of (txStreamParseFieldProxy c)) = tx c) /\
  (forall ctx buffer flags s c' q,
      txStreamProcess ctx buffer flags = Some (s, c') ->
      field_rank (ptr_field q) < field_rank (currentField ctx) \/
      field_rank (currentField c') < field_rank (ptr_field q) \/
      (currentField c' = ptr_field q /\ isProcessingField c' = false) ->
      deref (tx c') q =
      match q with
      | P_v =>
          if legacy_exit s c' then set_flength (v (tx ctx)) 0 else v (tx ctx)
      | _ => deref (tx ctx) q
      end).
Proof.
  split.
  - intros c Hp _ Hnone.
    pose proof (frame_proxy c Hp) as (_ & _ & _ & F4).
    apply tx_ext. intros p. apply F4.
    intros Heq. rewrite Heq in Hnone. destruct p; discriminate Hnone.
  - intros ctx buffer flags s c' q E Hq. unfold txStreamProcess in E.
    destruct (negb (Z.of_nat (length buffer) >? 0));
      [inversion E; subst; destruct q; reflexivity|].
    destruct (negb ((field_rank (currentField ctx) >? field_rank TX_RLP_NONE)
                    && (field_rank (currentField ctx) <? field_rank TX_RLP_DONE)));
      [inversion E; subst; destruct q; reflexivity|].
    set (c0 := set_processingFlags flags (set_workBuffer buffer ctx)) in E.
    destruct (txStreamParse (parse_fuel (length buffer)) c0) as [r|] eqn:Hparse;
      [| discriminate E].
    assert (Hr : ctx_of r = c' /\
                 (r = Ret s c' \/ (r = Throw c' /\ s = TX_STREAM_FAULT)))
      by (destruct r as [s0 c1|c1]; inversion E; subst; simpl; auto).
    destruct Hr as [Hc Hr]. clear E.
    destruct (parse_frame _ _ _ Hparse) as [I1 I2]. rewrite Hc in I1, I2.
    change (currentField c0) with (currentField ctx) in I1, I2.
    change (tx c0) with (tx ctx) in I2.
    assert (Hzero : legacy_exit s c' = true ->
              currentField c' = TX_RLP_V /\ flength (v (tx c')) = 0).
    { unfold legacy_exit. destruct s; try discriminate. intros Hv.
      apply field_eqb_eq in Hv. split; [exact Hv|].
      destruct Hr as [-> | [_ Hs]]; [| discriminate Hs].
      destruct (parse_status _ _ _ _ Hparse) as [Hd | (_ & _ & H0)];
        [congruence | exact H0]. }
    assert (Hsame : deref (tx c') q = deref (tx ctx) q ->
              deref (tx c') q =
              match q with
              | P_v => if legacy_exit s c' then set_flength (v (tx ctx)) 0
                       else v (tx ctx)
              | _ => deref (tx ctx) q
              end).
    { intros H. destruct q; try exact H.
      destruct (legacy_exit s c') eqn:Hl; [| exact H].
      destruct (Hzero eq_refl) as [_ H0].
      change (v (tx c') = v (tx ctx)) in H.
      change (v (tx c') = set_flength (v (tx ctx)) 0).
      rewrite H in H0. rewrite H.
      destruct (v (tx ctx)) as [val len]. simpl in H0. rewrite H0. reflexivity. }
    destruct Hq as [Hq | [Hq | [Hq Hp]]].
    + apply Hsame, I2. lia.
    + apply Hsame, I2. lia.
    + pose proof (parse_stop _ c0 r q Hparse) as Hs. rewrite Hc in Hs.
      change (tx c0) with (tx ctx) in Hs.
      destruct (Hs Hq Hp) as [H | (H1 & H2 & H3)]; [exact (Hsame H)|].
      subst q. rewrite H3.
      assert (Hl : legacy_exit s c' = true).
      { destruct Hr as [Hr | [Hr _]]; [| congruence].
        rewrite Hr in H2. inversion H2; subst.
        simpl. rewrite Hq. reflexivity. }
      rewrite Hl. reflexivity.
Qed.

(** ** The flags of a call *)

Lemma parse_flags n : forall ctx r,
  txStreamParse n ctx = Some r ->
  processingFlags (ctx_of r) = processingFlags ctx.
Proof.
  induction n as [|n IH]; intros ctx r E; [discriminate E|].
  simpl in E. pose proof (frame_body ctx) as (F1 & _).
  destruct (txStreamParse_body ctx) as [[s|] c|c]; simpl in F1.
  - inversion E; subst. exact F1.
  - rewrite (IH c r E). exact F1.
  - inversion E; subst. exact F1.
Qed.

(** C8.  The flags are not latched.  Every call that passes the checks on
    its arguments stores the flags it is given, over those of the calls
    before it.  The flags are read in one place, when the envelope is
    accepted: in the call in which the header of the envelope becomes
    decodable, the flags of that very call decide whether the type field or
    the nonce is expected next, whatever flags the context held from earlier
    calls, and the call goes on from there.  Once the parse is past the
    envelope, the flags passed to a call change nothing but the flags field
    of the context: two calls on the same context and input with different
    flags return the same status and contexts that agree on every other
    field. *)
Theorem flags_used_at_envelope_only :
  (forall ctx buffer flags s c',
      buffer <> [] ->
      currentField ctx <> TX_RLP_NONE ->
      currentField ctx <> TX_RLP_DONE ->
      txStreamProcess ctx buffer flags = Some (s, c') ->
      processingFlags c' = flags) /\
  (forall ctx buffer flags h,
      currentField ctx = TX_RLP_ENVELOPE ->
      isProcessingField ctx = false ->
      buffer <> [] ->
      txStreamParse_header (set_processingFlags flags (set_workBuffer buffer ctx)) =
        Ret None h ->
      isCurrentFieldList h = true ->
      exists c1,
        txStreamParse_body (set_processingFlags flags (set_workBuffer buffer ctx)) =
          Ret None c1 /\
        currentField c1 =
          (if Z.land flags TX_FLAG_TYPE =? 0 then TX_RLP_NONCE else TX_RLP_TYPE) /\
        txStreamProcess ctx buffer flags =
          match txStreamParse (length buffer + 13) c1 with
          | None => None
          | Some (Ret result c) => Some (result, c)
          | Some (Throw c) => Some (TX_STREAM_FAULT, c)
          end) /\
  (forall ctx buffer flags1 flags2,
      currentField ctx <> TX_RLP_ENVELOPE ->
      option_map (fun r => (fst r, forget_flags (snd r)))
        (txStreamProcess ctx buffer flags1) =
      option_map (fun r => (fst r, forget_flags (snd r)))
        (txStreamProcess ctx buffer flags2)).
Proof.
  split; [| split].
  - intros ctx buffer flags s c' Hb Hn Hd E.
    rewrite (process_enters ctx buffer flags Hb Hn Hd) in E.
    destruct (txStreamParse _ _) as [r|] eqn:Hparse; [| discriminate E].
    pose proof (parse_flags _ _ _ Hparse) as Hf.
    destruct r as [s0 c0|c0]; inversion E; subst; exact Hf.
  - intros ctx buffer flags h Hf Hp Hb Hh Hl.
    set (c0 := set_processingFlags flags (set_workBuffer buffer ctx)) in *.
    assert (Hf0 : currentField c0 = TX_RLP_ENVELOPE) by exact Hf.
    assert (Hp0 : isProcessingField c0 = false) by exact Hp.
    assert (Hw0 : workBuffer c0 <> []) by exact Hb.
    assert (Hd0 : currentField c0 <> TX_RLP_DONE) by (rewrite Hf0; discriminate).
    destruct (header_keeps_field c0 Hp0) as (K1 & _ & K3 & K4).
    rewrite Hh in K1, K3. simpl in K1, K3. specialize (K4 h Hh).
    assert (Kh : currentField h = TX_RLP_ENVELOPE) by (rewrite K1; exact Hf).
    assert (Eb : txStreamParse_body c0 = Ret None (enveloped h)).
    { rewrite (body_at_boundary c0 Hd0 Hw0 Hp0), Hh, (proxy_closed h K4).
      rewrite Kh, Hl. reflexivity. }
    exists (enveloped h). split; [exact Eb|]. split.
    + simpl. rewrite K3. reflexivity.
    + rewrite (process_enters ctx buffer flags Hb)
        by (rewrite Hf; discriminate).
      fold c0. unfold parse_fuel.
      replace (length buffer + 14)%nat with (S (length buffer + 13)) by lia.
      cbn [txStreamParse]. rewrite Eb. reflexivity.
  - exact flags_after_envelope.
Qed.

(** ** Callers and the early exit at V *)

(** The caller that stops at the first [TX_STREAM_FINISHED] ends where the
    caller that feeds every fragment ends, or it stops at a fragment that
    ends at or inside V, from where the fragments behind lead to the same
    end. *)
Lemma terminal_or_early : forall fragments ctx flags cF,
  fragments <> [] ->
  txStreamFeed ctx fragments flags = Some (TX_STREAM_FINISHED, cF) ->
  txStreamFeedTerminal ctx fragments flags = Some (TX_STREAM_FINISHED, cF) \/
  exists pre post c,
    fragments = pre ++ post /\ pre <> [] /\ post <> [] /\
    txStreamFeedTerminal ctx fragments flags = Some (TX_STREAM_FINISHED, c) /\
    currentField c = TX_RLP_V /\ workBuffer c = [] /\
    flength (v (tx c)) = 0 /\
    txStreamFeed c post flags = Some (TX_STREAM_FINISHED, cF).
Proof.
  induction fragments as [|f rest IH]; intros ctx flags cF Hne E; [congruence|].
  destruct rest as [|g rest].
  - left. simpl in *.
    destruct (txStreamProcess ctx f flags) as [[[] c]|]; exact E.
  - change (txStreamFeed ctx (f :: g :: rest) flags) with
      (match txStreamProcess ctx f flags with
       | None => None
       | Some (TX_STREAM_FAULT, c) => Some (TX_STREAM_FAULT, c)
       | Some (_, c) => txStreamFeed c (g :: rest) flags
       end) in E.
    change (txStreamFeedTerminal ctx (f :: g :: rest) flags) with
      (match txStreamProcess ctx f flags with
       | None => None
       | Some (TX_STREAM_PROCESSING, c) =>
           txStreamFeedTerminal c (g :: rest) flags
       | Some (s, c) => Some (s, c)
       end).
    destruct (txStreamProcess ctx f flags) as [[s1 c1]|] eqn:E1;
      [| discriminate E].
    destruct s1.
    + destruct (IH c1 flags cF ltac:(discriminate) E)
        as [H | (pre & post & c & H1 & H2 & H3 & H4 & H5)].
      * left. exact H.
      * right. exists (f :: pre), post, c.
        split; [rewrite H1; reflexivity|].
        split; [discriminate|]. split; [exact H3|].
        split; [exact H4 | exact H5].
    + right. exists [f], (g :: rest), c1.
      split; [reflexivity|]. split; [discriminate|]. split; [discriminate|].
      split; [reflexivity|].
      pose proof (process_status _ _ _ _ _ E1 ltac:(discriminate)) as Hm.
      simpl in Hm. destruct Hm as [Hd | (M1 & M2 & M3)].
      * rewrite (feed_at_done c1 g rest flags Hd) in E. discriminate E.
      * repeat (split; [assumption|]). exact E.
    + discriminate E.
Qed.


End TxStream.

(** ** The parser on the sample data *)

Arguments Ret {cx_sha3_t A} a c.
Arguments Throw {cx_sha3_t A} c.

Abbreviation demo_init := (txStreamInit (list byte) [] Demo.demo_tx).

Abbreviation demo_at f input :=
  (mk_ctx (list byte) [] Demo.demo_tx f input false false false 0 0 0 [] 0).

Abbreviation demo_process :=
  (txStreamProcess (list byte) Rlp.cx_hash Rlp.rlpCanDecode Rlp.rlpDecodeLength
     Rlp.RLP_LENGTH_BUFFER_SIZE Rlp.TX_MAX_INT256_LENGTH
     Rlp.TX_MAX_ADDRESS_LENGTH Rlp.MAX_BUFFER_SIZE Rlp.TX_FLAG_TYPE).

Abbreviation demo_feed :=
  (txStreamFeed (list byte) Rlp.cx_hash Rlp.rlpCanDecode Rlp.rlpDecodeLength
     Rlp.RLP_LENGTH_BUFFER_SIZE Rlp.TX_MAX_INT256_LENGTH
     Rlp.TX_MAX_ADDRESS_LENGTH Rlp.MAX_BUFFER_SIZE Rlp.TX_FLAG_TYPE).

Abbreviation demo_feed_terminal :=
  (txStreamFeedTerminal (list byte) Rlp.cx_hash Rlp.rlpCanDecode
     Rlp.rlpDecodeLength Rlp.RLP_LENGTH_BUFFER_SIZE Rlp.TX_MAX_INT256_LENGTH
     Rlp.TX_MAX_ADDRESS_LENGTH Rlp.MAX_BUFFER_SIZE Rlp.TX_FLAG_TYPE).

Abbreviation demo_header :=
  (txStreamParse_header (list byte) Rlp.cx_hash Rlp.rlpCanDecode
     Rlp.rlpDecodeLength Rlp.RLP_LENGTH_BUFFER_SIZE).

Abbreviation demo_body :=
  (txStreamParse_body (list byte) Rlp.cx_hash Rlp.rlpCanDecode
     Rlp.rlpDecodeLength Rlp.RLP_LENGTH_BUFFER_SIZE Rlp.TX_MAX_INT256_LENGTH
     Rlp.TX_MAX_ADDRESS_LENGTH Rlp.MAX_BUFFER_SIZE Rlp.TX_FLAG_TYPE).

Abbreviation demo_detect :=
  (txStreamDetectField (list byte) Rlp.cx_hash Rlp.rlpCanDecode
     Rlp.RLP_LENGTH_BUFFER_SIZE).

(** A context inside the payload of field [f], at position [pos] of [len]. *)
Abbreviation demo_in f pos len :=
  (mk_ctx (list byte) [] Demo.demo_tx f [] true false false pos len 0 [] 0).

(** The context after a first call on [f8], the first byte of a two-byte
    header of the envelope, with the type flag set. *)
Abbreviation demo_cut :=
  (mk_ctx (list byte) [xf8] Demo.demo_tx TX_RLP_ENVELOPE [] false false false
     0 0 0 [xf8] 1).

Lemma demo_hash_app : forall (h a b : list byte),
  Rlp.cx_hash h (a ++ b) = Rlp.cx_hash (Rlp.cx_hash h a) b.
Proof. intros h a b. unfold Rlp.cx_hash. apply app_assoc. Qed.

Lemma demo_hash_nil : forall h : list byte, Rlp.cx_hash h [] = h.
Proof. intros h. unfold Rlp.cx_hash. apply app_nil_r. Qed.

Lemma demo_self_encoded : forall buffer fieldLength list,
  Rlp.rlpDecodeLength buffer = Some (fieldLength, 0, list) ->
  fieldLength = 1 /\ list = false.
Proof.
  intros buffer fieldLength list. unfold Rlp.rlpDecodeLength.
  destruct buffer as [|b rest]; [discriminate|].
  set (x := Rlp.byte_val b).
  destruct (x <=? 127) eqn:E1; [intros H; inversion H; auto|].
  destruct (x <=? 183) eqn:E2; [intros H; discriminate H|].
  destruct (x <=? 191) eqn:E3.
  { destruct (x <=? 187); intros H; [| discriminate H].
    assert (H2 : 1 + (x - 183) = 0) by congruence.
    apply Z.leb_gt in E2. lia. }
  destruct (x <=? 247) eqn:E4; [intros H; discriminate H|].
  destruct (x <=? 251); intros H; [| discriminate H].
  assert (H2 : 1 + (x - 247) = 0) by congruence.
  apply Z.leb_gt in E4. lia.
Qed.




(** The signed sample in one call: the hash has absorbed the sample. *)
Lemma every_byte_hashed_once_witness :
  exists c',
    demo_process demo_init Demo.signed_bytes 0 = Some (TX_STREAM_FINISHED, c') /\
    sha3 (list byte) c' = Demo.signed_bytes.
Proof.
  assert (Hr : exists c',
             demo_process demo_init Demo.signed_bytes 0 =
               Some (TX_STREAM_FINISHED, c') /\
             workBuffer (list byte) c' = [])
    by (vm_compute; eexists; split; reflexivity).
  destruct Hr as (c' & E & Hw). exists c'. split; [exact E|].
  destruct (every_byte_hashed_once (list byte) Rlp.cx_hash Rlp.rlpCanDecode
              Rlp.rlpDecodeLength Rlp.RLP_LENGTH_BUFFER_SIZE
              Rlp.TX_MAX_INT256_LENGTH Rlp.TX_MAX_ADDRESS_LENGTH
              Rlp.MAX_BUFFER_SIZE Rlp.TX_FLAG_TYPE
              demo_hash_app demo_hash_nil demo_self_encoded)
    as (_ & _ & H).
  destruct (H demo_init Demo.signed_bytes 0 TX_STREAM_FINISHED c')
    as (consumed & C1 & C2 & _).
  - intros Hp. discriminate Hp.
  - exact E.
  - discriminate.
  - rewrite Hw, app_nil_r in C1. rewrite C2, <- C1. reflexivity.
Defined.

(** C3 as stated fails on a self-encoded nonce [05]: the byte-level read of
    the detector does hash the byte (the hash changes), and the copy path,
    which then takes the byte as payload, leaves the hash as it is. *)
Lemma copy_path_hash_suppressed_counterexample :
  exists h,
    demo_header (demo_at TX_RLP_NONCE [x05]) = Ret None h /\
    isFieldSingleByte (list byte) h = true /\
    sha3 (list byte)
      (ctx_of (list byte)
         (txStreamReadByte (list byte) Rlp.cx_hash (demo_at TX_RLP_NONCE [x05])))
      <> sha3 (list byte) (demo_at TX_RLP_NONCE [x05]) /\
    workBuffer (list byte) h = [x05] /\
    workBuffer (list byte)
      (ctx_of (list byte) (txStreamCopyData (list byte) Rlp.cx_hash h None 1)) = [] /\
    sha3 (list byte)
      (ctx_of (list byte) (txStreamCopyData (list byte) Rlp.cx_hash h None 1)) =
    sha3 (list byte) h.
Proof.
  eexists. split; [vm_compute; reflexivity|].
  split; [reflexivity|]. split; [vm_compute; discriminate|].
  split; [reflexivity|]. split; reflexivity.
Qed.

(** The legacy sample: the input ends exactly before V. *)
Lemma legacy_shape_finished_witness :
  exists c',
    demo_process demo_init Demo.legacy_bytes 0 = Some (TX_STREAM_FINISHED, c') /\
    flength (v Demo.demo_tx) = 7 /\
    flength (v (tx (list byte) c')) = 0.
Proof.
  assert (Hr : exists s c',
             demo_process demo_init Demo.legacy_bytes 0 = Some (s, c') /\
             at_v_boundary (list byte) c')
    by (vm_compute; do 2 eexists; repeat split).
  destruct Hr as (s & c' & E & Hv).
  destruct (legacy_shape_finished (list byte) Rlp.cx_hash Rlp.rlpCanDecode
              Rlp.rlpDecodeLength Rlp.RLP_LENGTH_BUFFER_SIZE
              Rlp.TX_MAX_INT256_LENGTH Rlp.TX_MAX_ADDRESS_LENGTH
              Rlp.MAX_BUFFER_SIZE Rlp.TX_FLAG_TYPE
              demo_init Demo.legacy_bytes 0 s c') as [Hs H0].
  - discriminate.
  - exact E.
  - exact Hv.
  - subst s. exists c'. split; [exact E|]. split; [reflexivity | exact H0].
Defined.

(** A recipient of declared length 21, above the address capacity 20. *)
Lemma capacity_fault_witness :
  exists h,
    demo_process (demo_at TX_RLP_RECIPIENT []) [x95; x01] 0 =
      Some (TX_STREAM_FAULT, h) /\
    workBuffer (list byte) h = [x01] /\
    sha3 (list byte) h = [x95] /\
    tx (list byte) h = Demo.demo_tx.
Proof.
  assert (Hh : exists h,
             demo_header (demo_at TX_RLP_RECIPIENT [x95; x01]) = Ret None h /\
             20 < currentFieldLength (list byte) h /\
             workBuffer (list byte) h = [x01] /\
             sha3 (list byte) h = [x95])
    by (vm_compute; eexists; repeat split).
  destruct Hh as (h & Hh & Hlt & Hw & Hs).
  destruct (capacity_fault (list byte) Rlp.cx_hash Rlp.rlpCanDecode
              Rlp.rlpDecodeLength Rlp.RLP_LENGTH_BUFFER_SIZE
              Rlp.TX_MAX_INT256_LENGTH Rlp.TX_MAX_ADDRESS_LENGTH
              Rlp.MAX_BUFFER_SIZE Rlp.TX_FLAG_TYPE
              (demo_at TX_RLP_RECIPIENT [x95; x01]) h 20)
    as (_ & Htx & _ & HP).
  - reflexivity.
  - discriminate.
  - reflexivity.
  - exact Hh.
  - exact Hlt.
  - exists h. split; [exact (HP (demo_at TX_RLP_RECIPIENT []) [x95; x01] 0 eq_refl)|].
    split; [exact Hw|]. split; [exact Hs | exact Htx].
Defined.


(** A header [bf] asks for eight length bytes; after five bytes the scratch
    buffer is full, and the sixth byte cannot be stored. *)
Lemma scratch_fault_witness :
  exists c',
    demo_process demo_init [xbf; x01; x02; x03; x04; x05] 0 =
    Some (TX_STREAM_FAULT, c').
Proof.
  apply (scratch_fault (list byte) Rlp.cx_hash Rlp.rlpCanDecode
           Rlp.rlpDecodeLength Rlp.RLP_LENGTH_BUFFER_SIZE
           Rlp.TX_MAX_INT256_LENGTH Rlp.TX_MAX_ADDRESS_LENGTH
           Rlp.MAX_BUFFER_SIZE Rlp.TX_FLAG_TYPE
           demo_init [xbf; x01; x02; x03; x04; x05] 0 5%nat).
  - reflexivity.
  - discriminate.
  - discriminate.
  - simpl. lia.
  - intros j Hj.
    destruct j as [|[|[|[|[|[|j]]]]]]; try lia; reflexivity.
  - intros j Hj. unfold rlpBufferPos, Rlp.RLP_LENGTH_BUFFER_SIZE. simpl. lia.
  - left. reflexivity.
Defined.

(** The header [f8 20] of the envelope cut between two calls: the first
    call is given the type flag, the second is not, and the nonce is
    expected next.  A call at the nonce does the same with the type flag
    clear and set. *)
Lemma flags_used_at_envelope_only_witness :
  exists c2,
    demo_process demo_init [xf8] 1 = Some (TX_STREAM_PROCESSING, demo_cut) /\
    processingFlags (list byte) demo_cut = 1 /\
    demo_body (set_processingFlags (list byte) 0
                 (set_workBuffer (list byte) [x20] demo_cut)) = Ret None c2 /\
    currentField (list byte) c2 = TX_RLP_NONCE /\
    option_map (fun r => (fst r, forget_flags (list byte) (snd r)))
      (demo_process (demo_at TX_RLP_NONCE []) [x05] 0) =
    option_map (fun r => (fst r, forget_flags (list byte) (snd r)))
      (demo_process (demo_at TX_RLP_NONCE []) [x05] 1).
Proof.
  destruct (flags_used_at_envelope_only (list byte) Rlp.cx_hash
              Rlp.rlpCanDecode Rlp.rlpDecodeLength Rlp.RLP_LENGTH_BUFFER_SIZE
              Rlp.TX_MAX_INT256_LENGTH Rlp.TX_MAX_ADDRESS_LENGTH
              Rlp.MAX_BUFFER_SIZE Rlp.TX_FLAG_TYPE) as (Hstore & Henv & Hafter).
  assert (E : demo_process demo_init [xf8] 1 =
              Some (TX_STREAM_PROCESSING, demo_cut))
    by (vm_compute; reflexivity).
  destruct (Henv demo_cut [x20] 0
              (ctx_of (list byte)
                 (demo_header (set_processingFlags (list byte) 0
                                 (set_workBuffer (list byte) [x20] demo_cut)))))
    as (c2 & B1 & B2 & _).
  - reflexivity.
  - reflexivity.
  - discriminate.
  - vm_compute. reflexivity.
  - vm_compute. reflexivity.
  - exists c2. split; [exact E|]. split.
    + apply (Hstore demo_init [xf8] 1 TX_STREAM_PROCESSING demo_cut);
        try discriminate. exact E.
    + split; [exact B1|]. split; [exact B2|].
      apply Hafter. discriminate.
Defined.

(** C8 as stated fails when the header [f8 20] of the envelope is cut
    between two calls: the first call is given the type flag, and the flags of
    the second call decide which field is expected next. *)
Lemma flags_of_later_call_decide_counterexample :
  exists c2 c2',
    demo_process demo_init [xf8] 1 = Some (TX_STREAM_PROCESSING, demo_cut) /\
    processingFlags (list byte) demo_cut = 1 /\
    demo_process demo_cut [x20] 0 = Some (TX_STREAM_PROCESSING, c2) /\
    currentField (list byte) c2 = TX_RLP_NONCE /\
    demo_process demo_cut [x20] 1 = Some (TX_STREAM_PROCESSING, c2') /\
    currentField (list byte) c2' = TX_RLP_TYPE.
Proof.
  do 2 eexists. split; [vm_compute; reflexivity|].
  split; [reflexivity|]. split; [vm_compute; reflexivity|].
  split; [reflexivity|]. split; [vm_compute; reflexivity|]. reflexivity.
Qed.

(** A call without input. *)
Lemma precondition_fault_witness :
  demo_process demo_init [] 0 = Some (TX_STREAM_FAULT, demo_init).
Proof.
  apply precondition_fault. left. reflexivity.
Defined.

(** A call from the data field on [83 0a 0b 0c], the whole of that field:
    it stops at the boundary of V, the recipient is as it was, and of [v]
    only the length has changed. *)
Lemma destination_frame_witness :
  exists s c',
    demo_process (demo_at TX_RLP_DATA []) [x83; x0a; x0b; x0c] 0 = Some (s, c') /\
    currentField (list byte) c' = TX_RLP_V /\
    isProcessingField (list byte) c' = false /\
    recipient (tx (list byte) c') = recipient Demo.demo_tx /\
    v (tx (list byte) c') = set_flength (v Demo.demo_tx) 0.
Proof.
  assert (Hr : exists s c',
             demo_process (demo_at TX_RLP_DATA []) [x83; x0a; x0b; x0c] 0 =
             Some (s, c') /\
             currentField (list byte) c' = TX_RLP_V /\
             isProcessingField (list byte) c' = false /\
             legacy_exit (list byte) s c' = true)
    by (vm_compute; do 2 eexists; repeat split).
  destruct Hr as (s & c' & E & Hf & Hp & Hl). exists s, c'.
  split; [exact E|]. split; [exact Hf|]. split; [exact Hp|].
  destruct (destination_frame (list byte) Rlp.cx_hash Rlp.rlpCanDecode
              Rlp.rlpDecodeLength Rlp.RLP_LENGTH_BUFFER_SIZE
              Rlp.TX_MAX_INT256_LENGTH Rlp.TX_MAX_ADDRESS_LENGTH
              Rlp.MAX_BUFFER_SIZE Rlp.TX_FLAG_TYPE) as [_ H].
  split.
  - apply (H (demo_at TX_RLP_DATA []) [x83; x0a; x0b; x0c] 0 s c' P_recipient E).
    left. simpl. lia.
  - pose proof (H (demo_at TX_RLP_DATA []) [x83; x0a; x0b; x0c] 0 s c' P_v E)
      as Hv.
    simpl in Hv. rewrite Hl in Hv. apply Hv.
    right. right. split; [exact Hf | exact Hp].
Defined.

(** C10 as stated fails on the same call: the four bytes are the header and
    the payload of the data field, no byte of V has been read, and the
    length of [v] is no longer what it was. *)
Lemma stale_v_length_reset_counterexample :
  exists s c',
    demo_process (demo_at TX_RLP_DATA []) [x83; x0a; x0b; x0c] 0 = Some (s, c') /\
    sha3 (list byte) c' = [x83; x0a; x0b; x0c] /\
    currentField (list byte) c' = TX_RLP_V /\
    isProcessingField (list byte) c' = false /\
    rlpBuffer (list byte) c' = [] /\
    flength (v Demo.demo_tx) = 7 /\
    flength (v (tx (list byte) c')) = 0 /\
    v (tx (list byte) c') <> v Demo.demo_tx.
Proof.
  do 2 eexists. split; [vm_compute; reflexivity|].
  repeat (split; [reflexivity|]). vm_compute. discriminate.
Qed.

(** A fragment that ends where V begins makes its call return
    [TX_STREAM_FINISHED] although the stream goes on; the next call resumes at
    V and ends where the single call on the whole stream ends. *)
Example finished_before_v_then_resumed :
  match demo_process demo_init (firstn 13 Demo.signed_bytes) 0 with
  | Some (s1, c1) =>
      s1 = TX_STREAM_FINISHED /\
      currentField (list byte) c1 = TX_RLP_V /\
      demo_process c1 (skipn 13 Demo.signed_bytes) 0 =
      demo_process demo_init Demo.signed_bytes 0
  | None => False
  end.
Proof.
  vm_compute. repeat split.
Qed.

(** ** The further properties on the sample data *)

(** The legacy sample ends at the boundary before V. *)
Lemma returned_status_meaning_witness :
  exists c',
    demo_process demo_init Demo.legacy_bytes 0 = Some (TX_STREAM_FINISHED, c') /\
    status_meaning (list byte) TX_STREAM_FINISHED c'.
Proof.
  assert (Hr : exists c',
             demo_process demo_init Demo.legacy_bytes 0 =
             Some (TX_STREAM_FINISHED, c'))
    by (vm_compute; eexists; reflexivity).
  destruct Hr as (c' & E). exists c'. split; [exact E|].
  exact (returned_status_meaning (list byte) Rlp.cx_hash Rlp.rlpCanDecode
           Rlp.rlpDecodeLength Rlp.RLP_LENGTH_BUFFER_SIZE
           Rlp.TX_MAX_INT256_LENGTH Rlp.TX_MAX_ADDRESS_LENGTH
           Rlp.MAX_BUFFER_SIZE Rlp.TX_FLAG_TYPE
           demo_init Demo.legacy_bytes 0 TX_STREAM_FINISHED c' E).
Defined.

(** The first seven bytes of the signed sample take the parser from the
    envelope to the value field. *)
Lemma schema_position_never_regresses_witness :
  exists s c',
    demo_process demo_init (firstn 7 Demo.signed_bytes) 0 = Some (s, c') /\
    currentField (list byte) c' = TX_RLP_VALUE /\
    field_rank (currentField (list byte) demo_init) <=
    field_rank (currentField (list byte) c').
Proof.
  assert (Hr : exists s c',
             demo_process demo_init (firstn 7 Demo.signed_bytes) 0 =
             Some (s, c') /\
             currentField (list byte) c' = TX_RLP_VALUE)
    by (vm_compute; do 2 eexists; split; reflexivity).
  destruct Hr as (s & c' & E & Hf). exists s, c'.
  split; [exact E|]. split; [exact Hf|].
  exact (schema_position_never_regresses (list byte) Rlp.cx_hash
           Rlp.rlpCanDecode Rlp.rlpDecodeLength Rlp.RLP_LENGTH_BUFFER_SIZE
           Rlp.TX_MAX_INT256_LENGTH Rlp.TX_MAX_ADDRESS_LENGTH
           Rlp.MAX_BUFFER_SIZE Rlp.TX_FLAG_TYPE
           demo_init (firstn 7 Demo.signed_bytes) 0 s c' E).
Defined.

(** A call inside the recipient, at position 3 of 20. *)
Lemma process_returns_witness :
  exists s c',
    demo_process (demo_in TX_RLP_RECIPIENT 3 20) [x0a; x0b] 0 = Some (s, c') /\
    (s <> TX_STREAM_FAULT -> in_field_ok (list byte) c').
Proof.
  apply (process_returns (list byte) Rlp.cx_hash Rlp.rlpCanDecode
           Rlp.rlpDecodeLength Rlp.RLP_LENGTH_BUFFER_SIZE
           Rlp.TX_MAX_INT256_LENGTH Rlp.TX_MAX_ADDRESS_LENGTH
           Rlp.MAX_BUFFER_SIZE Rlp.TX_FLAG_TYPE
           (demo_in TX_RLP_RECIPIENT 3 20) [x0a; x0b] 0).
  intros _. simpl. lia.
Defined.

(** The input stops inside a three-byte header [b9 ..]: one byte is left in
    the scratch buffer. *)
Lemma scratch_within_bound_witness :
  exists s c',
    demo_process demo_init [xcf; xb9] 0 = Some (s, c') /\
    rlpBuffer (list byte) c' = [xb9] /\
    scratch_ok (list byte) Rlp.RLP_LENGTH_BUFFER_SIZE c'.
Proof.
  assert (Hr : exists s c',
             demo_process demo_init [xcf; xb9] 0 = Some (s, c') /\
             rlpBuffer (list byte) c' = [xb9])
    by (vm_compute; do 2 eexists; split; reflexivity).
  destruct Hr as (s & c' & E & Hb). exists s, c'.
  split; [exact E|]. split; [exact Hb|].
  apply (scratch_within_bound (list byte) Rlp.cx_hash Rlp.rlpCanDecode
           Rlp.rlpDecodeLength Rlp.RLP_LENGTH_BUFFER_SIZE
           Rlp.TX_MAX_INT256_LENGTH Rlp.TX_MAX_ADDRESS_LENGTH
           Rlp.MAX_BUFFER_SIZE Rlp.TX_FLAG_TYPE
           demo_init [xcf; xb9] 0 s c').
  - vm_compute. discriminate.
  - vm_compute. discriminate.
  - exact E.
Defined.

(** The gas price [81 90] is stored in its slot; the slot is unchanged from
    index 32 on. *)
Lemma writes_within_capacity_witness :
  exists s c',
    demo_process demo_init (firstn 4 Demo.signed_bytes) 0 = Some (s, c') /\
    same_beyond 32 (value (gasPrice Demo.demo_tx))
      (value (gasPrice (tx (list byte) c'))).
Proof.
  assert (Hr : exists s c',
             demo_process demo_init (firstn 4 Demo.signed_bytes) 0 =
             Some (s, c'))
    by (vm_compute; do 2 eexists; reflexivity).
  destruct Hr as (s & c' & E). exists s, c'. split; [exact E|].
  apply (writes_within_capacity (list byte) Rlp.cx_hash Rlp.rlpCanDecode
           Rlp.rlpDecodeLength Rlp.RLP_LENGTH_BUFFER_SIZE
           Rlp.TX_MAX_INT256_LENGTH Rlp.TX_MAX_ADDRESS_LENGTH
           Rlp.MAX_BUFFER_SIZE Rlp.TX_FLAG_TYPE
           demo_init (firstn 4 Demo.signed_bytes) 0 s c' P_gasPrice 32).
  - intros H. discriminate H.
  - vm_compute. discriminate.
  - exact E.
  - reflexivity.
Defined.

(** The recipient [07] is recorded with length 1, within the capacity 20. *)
Lemma recorded_length_within_capacity_witness :
  exists s c',
    demo_process demo_init (firstn 9 Demo.signed_bytes) 0 = Some (s, c') /\
    flength (recipient (tx (list byte) c')) <= 20.
Proof.
  assert (Hr : exists s c',
             demo_process demo_init (firstn 9 Demo.signed_bytes) 0 =
             Some (s, c'))
    by (vm_compute; do 2 eexists; reflexivity).
  destruct Hr as (s & c' & E). exists s, c'. split; [exact E|].
  apply (recorded_length_within_capacity (list byte) Rlp.cx_hash
           Rlp.rlpCanDecode Rlp.rlpDecodeLength Rlp.RLP_LENGTH_BUFFER_SIZE
           Rlp.TX_MAX_INT256_LENGTH Rlp.TX_MAX_ADDRESS_LENGTH
           Rlp.MAX_BUFFER_SIZE Rlp.TX_FLAG_TYPE
           demo_init (firstn 9 Demo.signed_bytes) 0 s c' P_recipient 20).
  - intros H. discriminate H.
  - vm_compute. discriminate.
  - exact E.
  - reflexivity.
  - vm_compute. discriminate.
Defined.

(** The gas limit [82 01 02], followed by another byte. *)
Lemma field_taken_in_one_turn_witness :
  exists c',
    demo_body (demo_at TX_RLP_START_GAS [x82; x01; x02; x80]) = Ret None c' /\
    workBuffer (list byte) c' = [x80] /\
    currentField (list byte) c' = TX_RLP_VALUE /\
    sha3 (list byte) c' = [x82; x01; x02] /\
    startGas (tx (list byte) c') = mk_slot (x01 :: x02 :: repeat x00 30) 2.
Proof.
  destruct (field_taken_in_one_turn (list byte) Rlp.cx_hash Rlp.rlpCanDecode
              Rlp.rlpDecodeLength Rlp.RLP_LENGTH_BUFFER_SIZE
              Rlp.TX_MAX_INT256_LENGTH Rlp.TX_MAX_ADDRESS_LENGTH
              Rlp.MAX_BUFFER_SIZE Rlp.TX_FLAG_TYPE
              (demo_at TX_RLP_START_GAS [x82; x01; x02; x80])
              (ctx_of (list byte)
                 (demo_header (demo_at TX_RLP_START_GAS [x82; x01; x02; x80])))
              32)
    as (c' & E & Hw & Hf & _ & Hs & Hp & _).
  - reflexivity.
  - discriminate.
  - reflexivity.
  - vm_compute. reflexivity.
  - vm_compute. reflexivity.
  - vm_compute. discriminate.
  - vm_compute. discriminate.
  - exists c'. split; [exact E|].
    split; [rewrite Hw; vm_compute; reflexivity|].
    split; [exact Hf|].
    split; [rewrite Hs; vm_compute; reflexivity|].
    exact (eq_trans (Hp P_startGas eq_refl) eq_refl).
Defined.

(** Two bytes of a recipient of 20, from position 3. *)
Lemma payload_spanning_call_witness :
  exists c',
    demo_process (demo_in TX_RLP_RECIPIENT 3 20) [x0a; x0b] 0 =
      Some (TX_STREAM_PROCESSING, c') /\
    currentFieldPos (list byte) c' = 5 /\
    sha3 (list byte) c' = [x0a; x0b] /\
    value (recipient (tx (list byte) c')) =
      [x00; x00; x00; x0a; x0b] ++ repeat x00 15.
Proof.
  destruct (payload_spanning_call (list byte) Rlp.cx_hash Rlp.rlpCanDecode
              Rlp.rlpDecodeLength Rlp.RLP_LENGTH_BUFFER_SIZE
              Rlp.TX_MAX_INT256_LENGTH Rlp.TX_MAX_ADDRESS_LENGTH
              Rlp.MAX_BUFFER_SIZE Rlp.TX_FLAG_TYPE
              (demo_in TX_RLP_RECIPIENT 3 20) [x0a; x0b] 0 20)
    as (c' & E & _ & _ & _ & Hpos & Hs & Hp & _).
  - reflexivity.
  - simpl. lia.
  - simpl. lia.
  - reflexivity.
  - reflexivity.
  - simpl. lia.
  - discriminate.
  - simpl. lia.
  - exists c'. split; [exact E|]. split; [exact Hpos|]. split; [exact Hs|].
    exact (proj1 (Hp P_recipient eq_refl)).
Defined.

(** The envelope [cf] of the signed sample. *)
Lemma envelope_accepted_witness :
  exists c',
    demo_body (demo_at TX_RLP_ENVELOPE [xcf; x05]) = Ret None c' /\
    currentField (list byte) c' = TX_RLP_NONCE /\
    dataLength (list byte) c' = 15 /\
    workBuffer (list byte) c' = [x05].
Proof.
  destruct (envelope_accepted (list byte) Rlp.cx_hash Rlp.rlpCanDecode
              Rlp.rlpDecodeLength Rlp.RLP_LENGTH_BUFFER_SIZE
              Rlp.TX_MAX_INT256_LENGTH Rlp.TX_MAX_ADDRESS_LENGTH
              Rlp.MAX_BUFFER_SIZE Rlp.TX_FLAG_TYPE
              (demo_at TX_RLP_ENVELOPE [xcf; x05])
              (ctx_of (list byte)
                 (demo_header (demo_at TX_RLP_ENVELOPE [xcf; x05]))))
    as (c' & E & Hf & Hd & _ & Hw & _).
  - reflexivity.
  - reflexivity.
  - discriminate.
  - vm_compute. reflexivity.
  - vm_compute. reflexivity.
  - exists c'. split; [exact E|]. split; [exact Hf|].
    split; [rewrite Hd; vm_compute; reflexivity|].
    rewrite Hw. vm_compute. reflexivity.
Defined.

(** A context inside the data field with position 4 beyond the declared
    length 3. *)
Lemma position_beyond_length_never_returns_witness :
  demo_process (demo_in TX_RLP_DATA 4 3) [x0a] 0 = None.
Proof.
  apply (position_beyond_length_never_returns (list byte) Rlp.cx_hash
           Rlp.rlpCanDecode Rlp.rlpDecodeLength Rlp.RLP_LENGTH_BUFFER_SIZE
           Rlp.TX_MAX_INT256_LENGTH Rlp.TX_MAX_ADDRESS_LENGTH
           Rlp.MAX_BUFFER_SIZE Rlp.TX_FLAG_TYPE
           (demo_in TX_RLP_DATA 4 3) [x0a] 0 255).
  - reflexivity.
  - simpl. lia.
  - reflexivity.
  - reflexivity.
  - simpl. lia.
  - discriminate.
Defined.

(** The detector on a three-byte header [b9 01 00] followed by a payload
    byte. *)
Lemma detector_accounting_witness :
  exists st can consumed c1,
    demo_detect (demo_at TX_RLP_DATA [xb9; x01; x00; x0a]) = Ret (st, can) c1 /\
    [xb9; x01; x00; x0a] = consumed ++ workBuffer (list byte) c1 /\
    rlpBuffer (list byte) c1 = consumed /\
    sha3 (list byte) c1 =
      hash_bytes (list byte) Rlp.cx_hash [] consumed.
Proof.
  destruct (detector_accounting (list byte) Rlp.cx_hash Rlp.rlpCanDecode
              Rlp.RLP_LENGTH_BUFFER_SIZE
              (demo_at TX_RLP_DATA [xb9; x01; x00; x0a]))
    as (st & can & consumed & c1 & E & Hw & Hb & Hs & _).
  - reflexivity.
  - exists st, can, consumed, c1.
    split; [exact E|]. split; [exact Hw|]. split; [exact Hb | exact Hs].
Defined.

(** The signed sample followed by two more bytes. *)
Lemma trailing_input_ignored_witness :
  exists cF,
    demo_process demo_init Demo.signed_bytes 0 = Some (TX_STREAM_FINISHED, cF) /\
    demo_process demo_init (Demo.signed_bytes ++ [x01; x02]) 0 =
      Some (TX_STREAM_FINISHED, more_input (list byte) [x01; x02] cF).
Proof.
  assert (Hr : exists cF,
             demo_process demo_init Demo.signed_bytes 0 =
             Some (TX_STREAM_FINISHED, cF) /\
             currentField (list byte) cF = TX_RLP_DONE)
    by (vm_compute; eexists; split; reflexivity).
  destruct Hr as (cF & E & Hd). exists cF. split; [exact E|].
  apply (trailing_input_ignored (list byte) Rlp.cx_hash Rlp.rlpCanDecode
           Rlp.rlpDecodeLength Rlp.RLP_LENGTH_BUFFER_SIZE
           Rlp.TX_MAX_INT256_LENGTH Rlp.TX_MAX_ADDRESS_LENGTH
           Rlp.MAX_BUFFER_SIZE Rlp.TX_FLAG_TYPE demo_hash_app
           demo_init Demo.signed_bytes [x01; x02] 0 cF).
  - intros H. discriminate H.
  - discriminate.
  - exact E.
  - exact Hd.
Defined.

(** A gas price of declared length 33, above the capacity 32, one byte per
    call. *)
Lemma fault_survives_fragmentation_witness :
  exists c,
    demo_feed demo_init (map (fun x => [x]) [xcf; x05; xa1; x01]) 0 =
    Some (TX_STREAM_FAULT, c).
Proof.
  assert (Hr : exists cF,
             demo_process demo_init [xcf; x05; xa1; x01] 0 =
             Some (TX_STREAM_FAULT, cF))
    by (vm_compute; eexists; reflexivity).
  destruct Hr as (cF & E).
  apply (fault_survives_fragmentation (list byte) Rlp.cx_hash Rlp.rlpCanDecode
           Rlp.rlpDecodeLength Rlp.RLP_LENGTH_BUFFER_SIZE
           Rlp.TX_MAX_INT256_LENGTH Rlp.TX_MAX_ADDRESS_LENGTH
           Rlp.MAX_BUFFER_SIZE Rlp.TX_FLAG_TYPE demo_hash_app
           (map (fun x => [x]) [xcf; x05; xa1; x01]) demo_init 0 cF).
  - intros H. discriminate H.
  - discriminate.
  - repeat constructor; discriminate.
  - exact E.
Defined.

(** The signed sample, one byte per call: the hash holds the sixteen bytes
    in order. *)
Lemma feed_hash_witness :
  exists c',
    demo_feed demo_init (map (fun x => [x]) Demo.signed_bytes) 0 =
      Some (TX_STREAM_FINISHED, c') /\
    exists consumed,
      Demo.signed_bytes = consumed ++ workBuffer (list byte) c' /\
      sha3 (list byte) c' = Rlp.cx_hash [] consumed.
Proof.
  assert (Hr : exists c',
             demo_feed demo_init (map (fun x => [x]) Demo.signed_bytes) 0 =
             Some (TX_STREAM_FINISHED, c'))
    by (vm_compute; eexists; reflexivity).
  destruct Hr as (c' & E). exists c'. split; [exact E|].
  destruct (feed_hash (list byte) Rlp.cx_hash Rlp.rlpCanDecode
              Rlp.rlpDecodeLength Rlp.RLP_LENGTH_BUFFER_SIZE
              Rlp.TX_MAX_INT256_LENGTH Rlp.TX_MAX_ADDRESS_LENGTH
              Rlp.MAX_BUFFER_SIZE Rlp.TX_FLAG_TYPE
              demo_hash_app demo_hash_nil demo_self_encoded
              (map (fun x => [x]) Demo.signed_bytes) demo_init 0
              TX_STREAM_FINISHED c')
    as (consumed & H1 & H2 & _).
  - intros H. discriminate H.
  - discriminate.
  - exact E.
  - discriminate.
  - exists consumed. split; [exact H1 | exact H2].
Defined.

(** The first eleven bytes of the signed sample stop inside the data field;
    one byte per call. *)
Lemma prefix_fragmentation_invariance_witness :
  exists cF c,
    demo_process demo_init (firstn 11 Demo.signed_bytes) 0 =
      Some (TX_STREAM_PROCESSING, cF) /\
    demo_feed demo_init (map (fun x => [x]) (firstn 11 Demo.signed_bytes)) 0 =
      Some (TX_STREAM_PROCESSING, c) /\
    (c = cF \/
     (currentField (list byte) cF = TX_RLP_V /\ c = clear_v (list byte) cF)).
Proof.
  assert (Hr : exists cF,
             demo_process demo_init (firstn 11 Demo.signed_bytes) 0 =
             Some (TX_STREAM_PROCESSING, cF))
    by (vm_compute; eexists; reflexivity).
  destruct Hr as (cF & E).
  destruct (prefix_fragmentation_invariance (list byte) Rlp.cx_hash
              Rlp.rlpCanDecode Rlp.rlpDecodeLength Rlp.RLP_LENGTH_BUFFER_SIZE
              Rlp.TX_MAX_INT256_LENGTH Rlp.TX_MAX_ADDRESS_LENGTH
              Rlp.MAX_BUFFER_SIZE Rlp.TX_FLAG_TYPE demo_hash_app
              (map (fun x => [x]) (firstn 11 Demo.signed_bytes)) demo_init 0 cF)
    as (c & H1 & H2).
  - intros H. discriminate H.
  - discriminate.
  - repeat constructor; discriminate.
  - exact E.
  - exists cF, c. split; [exact E|]. split; [exact H1 | exact H2].
Defined.

(** The exception is met: a stream that stops inside a two-byte header of V,
    cut where V begins.  The single call leaves the length of [v] as it
    was, the two calls leave it zero, and the contexts differ in nothing
    else. *)
Example stream_cut_before_v_header :
  match demo_process demo_init (Demo.legacy_bytes ++ [xb8]) 0,
        demo_feed demo_init [Demo.legacy_bytes; [xb8]] 0 with
  | Some (s, cF), Some (s', c) =>
      s = TX_STREAM_PROCESSING /\ s' = TX_STREAM_PROCESSING /\
      currentField (list byte) cF = TX_RLP_V /\
      flength (v (tx (list byte) cF)) = 7 /\
      flength (v (tx (list byte) c)) = 0 /\
      c = clear_v (list byte) cF
  | _, _ => False
  end.
Proof.
  vm_compute. repeat split.
Qed.
